(** * Replik audio editor: timeline store, undo history and ffmpeg pipeline

    A shallow embedding of
    - [src/stores/audioEditorStore.ts]   (the zustand store: tracks, envelope
      points, snapshot history),
    - [electron/preload.ts], second half (class [AudioProcessor]: speed
      decomposition, volume-envelope expression, selection pipeline),
    - [electron/main.ts]                 (the [ipcMain.handle] wrappers),
    - [src/components/AdvancedAudioEditor.tsx] (the edit handlers and
      [handleExport]'s input list),
    - [src/utils/fileNaming.ts]          ([sanitizeFileName] and
      [generateMetadataFileName]).

    JavaScript numbers are modelled by rationals [Q]: every finite double is
    a rational and comparisons agree.  The halving and doubling of
    [changeSpeed] is exact on doubles in the ranges considered.  Sums and
    differences are exact here where the code rounds: the handlers of the
    component branch on differences such as [(offset + duration) - offset],
    which on doubles can miss [duration] by a rounding step when the offset
    is not 0, so what is proved about those branches is stated with the
    code's own expressions or for a track at offset 0.  [structuredClone] is
    the identity on the immutable values used here. *)

From Stdlib Require Import ZArith QArith Qminmax Qround Lqa Ascii String List Lia.
From stdpp Require Import base list gmap strings sorting pretty.

Open Scope Z_scope.

(* ================================================================== *)
(** * Part I.  The editor store                                         *)
(* ================================================================== *)

Module Store.

(** ** Data model ([types/index.ts], [audioEditorStore.ts] lines 4-43) *)

Record Take := mkTake {
  take_id : string;
  lineIndex : Z;
  takeNumber : Z;
  fileName : string;
  filePath : string;
  take_duration : Q;
  timestamp : string;
  isSelected : bool
}.

Record AudioRegion := mkRegion {
  region_id : string;
  region_start : Q;
  region_end : Q;
  color : option string
}.

Record EnvelopePoint := mkPoint {
  point_id : string;
  time : Q;
  point_volume : Q
}.

Record AudioTrack := mkTrack {
  id : string;
  track_take : Take;           (* the field [take] *)
  offset : Q;
  duration : Q;
  muted : bool;
  solo : bool;
  volume : Q;
  gain : Q;
  regions : list AudioRegion;
  envelopePoints : list EnvelopePoint
}.

Record ClipboardData := mkClipboard {
  startTime : Q;
  endTime : Q;
  clip_trackId : string;
  clip_filePath : string
}.

(** ['select' | 'trim' | 'split' | 'envelope'] *)
Inductive ToolMode := tool_select | tool_trim | tool_split | tool_envelope.

Record HistoryState := mkSnapshot {
  hs_tracks : list AudioTrack;
  hs_selectedTrackId : option string;
  hs_selectedRegionStart : option Q;
  hs_selectedRegionEnd : option Q
}.

Record AudioEditorState := mkState {
  tracks : list AudioTrack;
  selectedTrackId : option string;
  selectedRegionStart : option Q;
  selectedRegionEnd : option Q;
  cursorPosition : Q;
  clipboard : option ClipboardData;
  isPlaying : bool;
  currentTime : Q;
  timelineDuration : Q;          (* the store's field [duration] *)
  zoom : Q;
  scrollLeft : Q;
  toolMode : ToolMode;
  history : list HistoryState;
  historyIndex : Z
}.

(** [Partial<AudioTrack>] and [Partial<EnvelopePoint>]: an absent key is
    [None]. *)
Record TrackUpdates := mkTrackUpdates {
  u_id : option string;
  u_take : option Take;
  u_offset : option Q;
  u_duration : option Q;
  u_muted : option bool;
  u_solo : option bool;
  u_volume : option Q;
  u_gain : option Q;
  u_regions : option (list AudioRegion);
  u_envelopePoints : option (list EnvelopePoint)
}.

Record PointUpdates := mkPointUpdates {
  pu_id : option string;
  pu_time : option Q;
  pu_volume : option Q
}.

Definition noTrackUpdates : TrackUpdates :=
  mkTrackUpdates None None None None None None None None None None.

(** The store as [create] builds it (lines 123-137). *)
Definition initialState : AudioEditorState :=
  {| tracks := []; selectedTrackId := None;
     selectedRegionStart := None; selectedRegionEnd := None;
     cursorPosition := 0%Q; clipboard := None; isPlaying := false;
     currentTime := 0%Q; timelineDuration := 0%Q; zoom := 100%Q;
     scrollLeft := 0%Q; toolMode := tool_select;
     history := []; historyIndex := -1 |}.

(** ** [set] with the keys each action passes *)

Definition set_tracks (ts : list AudioTrack) (s : AudioEditorState) :=
  {| tracks := ts; selectedTrackId := selectedTrackId s;
     selectedRegionStart := selectedRegionStart s;
     selectedRegionEnd := selectedRegionEnd s;
     cursorPosition := cursorPosition s; clipboard := clipboard s;
     isPlaying := isPlaying s; currentTime := currentTime s;
     timelineDuration := timelineDuration s; zoom := zoom s;
     scrollLeft := scrollLeft s; toolMode := toolMode s;
     history := history s; historyIndex := historyIndex s |}.

Definition set_selectedTrackId (o : option string) (s : AudioEditorState) :=
  {| tracks := tracks s; selectedTrackId := o;
     selectedRegionStart := selectedRegionStart s;
     selectedRegionEnd := selectedRegionEnd s;
     cursorPosition := cursorPosition s; clipboard := clipboard s;
     isPlaying := isPlaying s; currentTime := currentTime s;
     timelineDuration := timelineDuration s; zoom := zoom s;
     scrollLeft := scrollLeft s; toolMode := toolMode s;
     history := history s; historyIndex := historyIndex s |}.

Definition set_region (a b : option Q) (s : AudioEditorState) :=
  {| tracks := tracks s; selectedTrackId := selectedTrackId s;
     selectedRegionStart := a; selectedRegionEnd := b;
     cursorPosition := cursorPosition s; clipboard := clipboard s;
     isPlaying := isPlaying s; currentTime := currentTime s;
     timelineDuration := timelineDuration s; zoom := zoom s;
     scrollLeft := scrollLeft s; toolMode := toolMode s;
     history := history s; historyIndex := historyIndex s |}.

Definition set_duration (d : Q) (s : AudioEditorState) :=
  {| tracks := tracks s; selectedTrackId := selectedTrackId s;
     selectedRegionStart := selectedRegionStart s;
     selectedRegionEnd := selectedRegionEnd s;
     cursorPosition := cursorPosition s; clipboard := clipboard s;
     isPlaying := isPlaying s; currentTime := currentTime s;
     timelineDuration := d; zoom := zoom s;
     scrollLeft := scrollLeft s; toolMode := toolMode s;
     history := history s; historyIndex := historyIndex s |}.

Definition set_history (h : list HistoryState) (i : Z) (s : AudioEditorState) :=
  {| tracks := tracks s; selectedTrackId := selectedTrackId s;
     selectedRegionStart := selectedRegionStart s;
     selectedRegionEnd := selectedRegionEnd s;
     cursorPosition := cursorPosition s; clipboard := clipboard s;
     isPlaying := isPlaying s; currentTime := currentTime s;
     timelineDuration := timelineDuration s; zoom := zoom s;
     scrollLeft := scrollLeft s; toolMode := toolMode s;
     history := h; historyIndex := i |}.

(** The four keys [undo] and [redo] copy out of a stored snapshot, and the
    new cursor. *)
Definition restore (h : HistoryState) (i : Z) (s : AudioEditorState) :=
  {| tracks := hs_tracks h; selectedTrackId := hs_selectedTrackId h;
     selectedRegionStart := hs_selectedRegionStart h;
     selectedRegionEnd := hs_selectedRegionEnd h;
     cursorPosition := cursorPosition s; clipboard := clipboard s;
     isPlaying := isPlaying s; currentTime := currentTime s;
     timelineDuration := timelineDuration s; zoom := zoom s;
     scrollLeft := scrollLeft s; toolMode := toolMode s;
     history := history s; historyIndex := i |}.

(** ** JavaScript array helpers *)

(** [arr[i]] for an integer [i]: [undefined] ([None]) out of range. *)
Definition at_index {A} (l : list A) (i : Z) : option A :=
  if i <? 0 then None else l !! Z.to_nat i.

(** [arr.slice(0, e)]: a negative [e] counts from the end. *)
Definition slice0 {A} (e : Z) (l : list A) : list A :=
  let len := Z.of_nat (length l) in
  let k := if e <? 0 then Z.max (len + e) 0 else Z.min e len in
  take (Z.to_nat k) l.

(** [arr.shift()]: drops the first element, if any. *)
Definition shift {A} (l : list A) : list A := drop 1 l.

(** [Math.max], [Math.min] on (finite) numbers. *)
Definition Math_max (a b : Q) : Q := Qmax a b.
Definition Math_min (a b : Q) : Q := Qmin a b.

Definition Qltb (a b : Q) : bool := match (a ?= b)%Q with Lt => true | _ => false end.
Definition Qleb (a b : Q) : bool := match (a ?= b)%Q with Gt => false | _ => true end.

(** [arr.sort((a, b) => a.time - b.time)].  The sort of ECMAScript is
    stable; for a comparator that is a total preorder the result of a stable
    sort is unique, and insertion from the right computes it: an element goes
    in front of the later elements that do not compare smaller. *)
Fixpoint insert_by_time (p : EnvelopePoint) (l : list EnvelopePoint) : list EnvelopePoint :=
  match l with
  | [] => [p]
  | q :: l' => if Qleb (time p) (time q) then p :: l else q :: insert_by_time p l'
  end.

Fixpoint sort_by_time (l : list EnvelopePoint) : list EnvelopePoint :=
  match l with
  | [] => []
  | p :: l' => insert_by_time p (sort_by_time l')
  end.

(** ** History (lines 365-433) *)

Definition snapshot (s : AudioEditorState) : HistoryState :=
  {| hs_tracks := tracks s;                 (* structuredClone(state.tracks) *)
     hs_selectedTrackId := selectedTrackId s;
     hs_selectedRegionStart := selectedRegionStart s;
     hs_selectedRegionEnd := selectedRegionEnd s |}.

Definition saveToHistory (s : AudioEditorState) : AudioEditorState :=
  let snap := snapshot s in
  if (length (history s) =? 0)%nat then set_history [snap] 0 s
  else
    let newHistory := slice0 (historyIndex s + 1) (history s) ++ [snap] in
    let newHistory :=
      if (50 <? length newHistory)%nat then shift newHistory else newHistory in
    set_history newHistory (Z.of_nat (length newHistory) - 1) s.

(** When [history[historyIndex - 1]] is [undefined] the property access
    throws before [set] runs, so the store is left as it was. *)
Definition undo (s : AudioEditorState) : AudioEditorState :=
  if (length (history s) =? 0)%nat || (historyIndex s <=? 0) then s
  else match at_index (history s) (historyIndex s - 1) with
       | Some prevState => restore prevState (historyIndex s - 1) s
       | None => s
       end.

Definition redo (s : AudioEditorState) : AudioEditorState :=
  if historyIndex s <? Z.of_nat (length (history s)) - 1 then
    match at_index (history s) (historyIndex s + 1) with
    | Some nextState => restore nextState (historyIndex s + 1) s
    | None => s
    end
  else s.

Definition canUndo (s : AudioEditorState) : bool := 0 <? historyIndex s.
Definition canRedo (s : AudioEditorState) : bool :=
  historyIndex s <? Z.of_nat (length (history s)) - 1.

(** ** Track actions (lines 140-194) *)

(** [tracks.reduce((max, track) => Math.max(max, track.offset + track.duration), 0)] *)
Definition maxEnd (ts : list AudioTrack) : Q :=
  fold_left (fun max track => Math_max max (offset track + duration track)%Q) ts 0%Q.

(** [{ ...t, ...updates }] *)
Definition merge_track (t : AudioTrack) (u : TrackUpdates) : AudioTrack :=
  {| id := default (id t) (u_id u);
     track_take := default (track_take t) (u_take u);
     offset := default (offset t) (u_offset u);
     duration := default (duration t) (u_duration u);
     muted := default (muted t) (u_muted u);
     solo := default (solo t) (u_solo u);
     volume := default (volume t) (u_volume u);
     gain := default (gain t) (u_gain u);
     regions := default (regions t) (u_regions u);
     envelopePoints := default (envelopePoints t) (u_envelopePoints u) |}.

(** [{ ...p, ...updates }] *)
Definition merge_point (p : EnvelopePoint) (u : PointUpdates) : EnvelopePoint :=
  {| point_id := default (point_id p) (pu_id u);
     time := default (time p) (pu_time u);
     point_volume := default (point_volume p) (pu_volume u) |}.

Definition with_envelopePoints (t : AudioTrack) (ps : list EnvelopePoint) : AudioTrack :=
  {| id := id t; track_take := track_take t; offset := offset t;
     duration := duration t; muted := muted t; solo := solo t;
     volume := volume t; gain := gain t; regions := regions t;
     envelopePoints := ps |}.

Definition with_regions (t : AudioTrack) (rs : list AudioRegion) : AudioTrack :=
  {| id := id t; track_take := track_take t; offset := offset t;
     duration := duration t; muted := muted t; solo := solo t;
     volume := volume t; gain := gain t; regions := rs;
     envelopePoints := envelopePoints t |}.

(** [newId] stands for the value of [generateTrackId()], which is built
    from the clock and [Math.random]. *)
Definition addTrack (newId : string) (take : Take) (s : AudioEditorState) : AudioEditorState :=
  let state := s in
  let s1 := saveToHistory s in
  let maxEnd := maxEnd (tracks state) in
  let newTrack :=
    {| id := newId; track_take := take; offset := maxEnd;
       duration := take_duration take; muted := false; solo := false;
       volume := 1%Q; gain := 0%Q; regions := []; envelopePoints := [] |} in
  set_duration (Math_max (timelineDuration s1) (maxEnd + take_duration take)%Q)
    (set_tracks (tracks s1 ++ [newTrack]) s1).

Definition removeTrack (trackId : string) (s : AudioEditorState) : AudioEditorState :=
  let s1 := saveToHistory s in
  set_selectedTrackId
    (match selectedTrackId s1 with
     | Some sel => if String.eqb sel trackId then None else Some sel
     | None => None
     end)
    (set_tracks (filter (fun t => id t ≠ trackId) (tracks s1)) s1).

Definition updateTrack (trackId : string) (updates : TrackUpdates)
    (s : AudioEditorState) : AudioEditorState :=
  set_tracks
    (map (fun t => if String.eqb (id t) trackId then merge_track t updates else t)
         (tracks s)) s.

Definition setTracks (ts : list AudioTrack) (s : AudioEditorState) : AudioEditorState :=
  let s1 := saveToHistory s in
  let duration := maxEnd ts in
  set_duration duration (set_tracks ts s1).

Definition clearTracks (s : AudioEditorState) : AudioEditorState :=
  let s1 := saveToHistory s in
  set_duration 0%Q
    (set_region None None (set_selectedTrackId None (set_tracks [] s1))).

Definition selectTrack (trackId : option string) (s : AudioEditorState) :=
  set_selectedTrackId trackId s.

Definition setSelection (a b : option Q) (s : AudioEditorState) := set_region a b s.

Definition clearSelection (s : AudioEditorState) := set_region None None s.

(** [!state.selectedTrackId]: [null] and the empty string are falsy. *)
Definition truthy_id (o : option string) : option string :=
  match o with
  | Some EmptyString => None
  | o => o
  end.

(** ** Selection actions (lines 251-296) *)

Definition deleteSelection (s : AudioEditorState) : AudioEditorState :=
  match truthy_id (selectedTrackId s), selectedRegionStart s, selectedRegionEnd s with
  | Some _, Some _, Some _ => set_region None None (saveToHistory s)
  | _, _, _ => s
  end.

(** [now] stands for [Date.now()]. *)
Definition splitAtCursor (now : Z) (s : AudioEditorState) : AudioEditorState :=
  let state := s in
  match truthy_id (selectedTrackId state) with
  | None => s
  | Some sel =>
    match find (fun t => String.eqb (id t) sel) (tracks state) with
    | None => s
    | Some track =>
      let cursorInTrack :=
        Qleb (offset track) (cursorPosition state) &&
        Qleb (cursorPosition state) (offset track + duration track)%Q in
      if negb cursorInTrack then s
      else
        let s1 := saveToHistory s in
        let splitPoint := (cursorPosition state - offset track)%Q in
        let newRegion :=
          {| region_id := "split_" +:+ pretty now;
             region_start := splitPoint;
             region_end := (splitPoint + (1 # 100))%Q;
             color := Some "rgba(255, 200, 0, 0.8)" |} in
        set_tracks
          (map (fun t =>
                  if bool_decide (Some (id t) = selectedTrackId s1)
                  then with_regions t (regions t ++ [newRegion]) else t)
               (tracks s1)) s1
    end
  end.

(** ** Envelope actions (lines 319-363) *)

(** [newId] stands for the value of [generatePointId()]. *)
Definition addEnvelopePoint (newId : string) (trackId : string) (time volume : Q)
    (s : AudioEditorState) : AudioEditorState :=
  let s1 := saveToHistory s in
  let newPoint := {| point_id := newId; time := time; point_volume := volume |} in
  set_tracks
    (map (fun t =>
            if String.eqb (id t) trackId
            then with_envelopePoints t (sort_by_time (envelopePoints t ++ [newPoint]))
            else t)
         (tracks s1)) s1.

Definition updateEnvelopePoint (trackId pointId : string) (updates : PointUpdates)
    (s : AudioEditorState) : AudioEditorState :=
  set_tracks
    (map (fun t =>
            if String.eqb (id t) trackId
            then with_envelopePoints t
                   (sort_by_time
                      (map (fun p => if String.eqb (point_id p) pointId
                                     then merge_point p updates else p)
                           (envelopePoints t)))
            else t)
         (tracks s)) s.

Definition removeEnvelopePoint (trackId pointId : string)
    (s : AudioEditorState) : AudioEditorState :=
  let s1 := saveToHistory s in
  set_tracks
    (map (fun t =>
            if String.eqb (id t) trackId
            then with_envelopePoints t
                   (filter (fun p => point_id p ≠ pointId) (envelopePoints t))
            else t)
         (tracks s1)) s1.

(** ** Cursor, view and clipboard actions (lines 196-249, 298-316, 435-450) *)

(** [set] with the keys of the cursor, the clipboard, the transport and
    the view. *)
Definition set_view (cursorPosition' : Q) (clipboard' : option ClipboardData)
    (isPlaying' : bool) (currentTime' zoom' scrollLeft' : Q) (toolMode' : ToolMode)
    (s : AudioEditorState) : AudioEditorState :=
  {| tracks := tracks s; selectedTrackId := selectedTrackId s;
     selectedRegionStart := selectedRegionStart s;
     selectedRegionEnd := selectedRegionEnd s;
     cursorPosition := cursorPosition'; clipboard := clipboard';
     isPlaying := isPlaying'; currentTime := currentTime';
     timelineDuration := timelineDuration s; zoom := zoom';
     scrollLeft := scrollLeft'; toolMode := toolMode';
     history := history s; historyIndex := historyIndex s |}.

Definition setCursorPosition (position : Q) (s : AudioEditorState) : AudioEditorState :=
  set_view (Math_max 0 position) (clipboard s) (isPlaying s) (Math_max 0 position)
           (zoom s) (scrollLeft s) (toolMode s) s.

Definition setIsPlaying (playing : bool) (s : AudioEditorState) : AudioEditorState :=
  set_view (cursorPosition s) (clipboard s) playing (currentTime s)
           (zoom s) (scrollLeft s) (toolMode s) s.

Definition setCurrentTime (time : Q) (s : AudioEditorState) : AudioEditorState :=
  set_view (cursorPosition s) (clipboard s) (isPlaying s) time
           (zoom s) (scrollLeft s) (toolMode s) s.

Definition setDuration (duration : Q) (s : AudioEditorState) : AudioEditorState :=
  set_duration duration s.

Definition setZoom (zoom : Q) (s : AudioEditorState) : AudioEditorState :=
  set_view (cursorPosition s) (clipboard s) (isPlaying s) (currentTime s)
           (Math_max 10 (Math_min 500 zoom)) (scrollLeft s) (toolMode s) s.

Definition setScrollLeft (scrollLeft : Q) (s : AudioEditorState) : AudioEditorState :=
  set_view (cursorPosition s) (clipboard s) (isPlaying s) (currentTime s)
           (zoom s) (Math_max 0 scrollLeft) (toolMode s) s.

Definition setToolMode (mode : ToolMode) (s : AudioEditorState) : AudioEditorState :=
  set_view (cursorPosition s) (clipboard s) (isPlaying s) (currentTime s)
           (zoom s) (scrollLeft s) mode s.

(** The clipboard's [type] is ['region'] wherever the store writes one; the
    record keeps the other four keys. *)
Definition copySelection (s : AudioEditorState) : AudioEditorState :=
  let state := s in
  match truthy_id (selectedTrackId state),
        selectedRegionStart state, selectedRegionEnd state with
  | Some sel, Some a, Some b =>
    match find (fun t => String.eqb (id t) sel) (tracks state) with
    | None => s
    | Some track =>
      set_view (cursorPosition s)
        (Some {| startTime := Math_min a b; endTime := Math_max a b;
                 clip_trackId := id track;
                 clip_filePath := filePath (track_take track) |})
        (isPlaying s) (currentTime s) (zoom s) (scrollLeft s) (toolMode s) s
    end
  | _, _, _ => s
  end.

Definition cutSelection (s : AudioEditorState) : AudioEditorState :=
  deleteSelection (copySelection s).

(** Only a [console.log]. *)
Definition pasteAtCursor (s : AudioEditorState) : AudioEditorState := s.

Definition selectAll (s : AudioEditorState) : AudioEditorState :=
  let state := s in
  match truthy_id (selectedTrackId state) with
  | None => s
  | Some sel =>
    match find (fun t => String.eqb (id t) sel) (tracks state) with
    | None => s
    | Some track =>
      set_region (Some (offset track)) (Some (offset track + duration track)%Q) s
    end
  end.

Definition reset (s : AudioEditorState) : AudioEditorState := initialState.

End Store.

(* ================================================================== *)
(** * Part II.  The outside world: ffmpeg, ffprobe and the file system  *)
(* ================================================================== *)

Module Engine.

(** What an [AudioProcessor] method asked of the outside world. *)
Inductive Call :=
| Probe (inputPath : string)
| Trim (inputPath outputPath : string) (startTime duration : Q)
| AudioFilters (inputPath filter outputPath : string)
| Concat (inputPaths : list string) (outputPath : string)
| CopyFile (src dst : string)
| WriteFile (path : string)
| Unlink (path : string).

(** The files that exist, and the calls made so far (oldest first). *)
Record World := mkWorld {
  files : gset string;
  calls : list Call
}.

(** How the outside world answers.  [Some message] is the ['error'] event of
    fluent-ffmpeg (or the exception of an [fs] call) with that message. *)
Record Oracle := mkOracle {
  ffprobe : string → string + Q;
  ffmpeg_trim : string → string → Q → Q → option string;
  ffmpeg_filter : string → string → string → option string;
  ffmpeg_concat : list string → string → option string;
  fs_copy : string → string → option string;
  fs_write : string → option string;
  fs_unlink : string → option string
}.

Inductive Result (A : Type) :=
| Resolved (a : A)
| Rejected (message : string).
Arguments Resolved {A} a.
Arguments Rejected {A} message.

(** A promise, run to completion: it resolves or rejects, and changes the
    world on the way.  [await] of a rejected promise throws, which ends the
    surrounding [async] function with the same rejection. *)
Definition Promise (A : Type) : Type := World → Result A * World.

#[export] Instance Promise_ret : MRet Promise := λ A a w, (Resolved a, w).

#[export] Instance Promise_bind : MBind Promise := λ A B k m w,
  match m w with
  | (Resolved a, w') => k a w'
  | (Rejected e, w') => (Rejected e, w')
  end.

Definition throw {A} (message : string) : Promise A := λ w, (Rejected message, w).

Definition record (c : Call) (w : World) : World :=
  {| files := files w; calls := calls w ++ [c] |}.

Definition create (path : string) (w : World) : World :=
  {| files := {[path]} ∪ files w; calls := calls w |}.

Definition remove (path : string) (w : World) : World :=
  {| files := files w ∖ {[path]}; calls := calls w |}.

Section WithOracle.
Context (ora : Oracle).

(** [try { fs.unlinkSync(path); } catch { /* ignore */ }]: the exception
    of a removal that fails is swallowed, and the file (if there was one)
    is still there. *)
Definition unlink (path : string) : Promise () := λ w,
  let w := record (Unlink path) w in
  match fs_unlink ora path with
  | None => (Resolved (), remove path w)
  | Some _ => (Resolved (), w)
  end.

(** [fs.writeFileSync(path, content)]: an exception when the file cannot be
    written; what a failed write leaves behind is not modelled. *)
Definition writeFile (path : string) : Promise () := λ w,
  let w := record (WriteFile path) w in
  match fs_write ora path with
  | None => (Resolved (), create path w)
  | Some e => (Rejected e, w)
  end.

(** [fs.copyFileSync(src, dst)]: throws when [src] does not exist. *)
Definition copyFile (src dst : string) : Promise () := λ w,
  let w := record (CopyFile src dst) w in
  if bool_decide (src ∈ files w) then
    match fs_copy ora src dst with
    | None => (Resolved (), create dst w)
    | Some e => (Rejected e, w)
    end
  else (Rejected ("ENOENT: no such file or directory, copyfile '" +:+ src +:+ "' -> '"
                  +:+ dst +:+ "'"), w).

(** A run of ffmpeg: it writes [outputPath] when it ends well; what a
    failed run leaves behind is not modelled. *)
Definition run_ffmpeg (c : Call) (outcome : option string) (outputPath : string)
  : Promise () := λ w,
  let w := record c w in
  match outcome with
  | None => (Resolved (), create outputPath w)
  | Some e => (Rejected e, w)
  end.

End WithOracle.

End Engine.

(* ================================================================== *)
(** * Part III.  [AudioProcessor] ([electron/preload.ts], lines 87-516) *)
(* ================================================================== *)

Module AudioProcessor.
Import Engine.

(** The stages pushed on [filters] by [changeSpeed]: the two literals
    ['atempo=2.0'] and ['atempo=0.5'], and [`atempo=${currentSpeed}`]. *)
Inductive Stage :=
| atempo_2
| atempo_half
| atempo (currentSpeed : Q).


(** ** The two loops of [changeSpeed], while [filters] has room

    [while (currentSpeed > 2.0) { filters.push('atempo=2.0'); currentSpeed /= 2.0; }]
    [None]: the loop is still running when the fuel is used up.  Here every
    [push] succeeds; the loops on the array itself, where a [push] can
    throw, follow below. *)
Fixpoint halving_loop (fuel : nat) (filters : list Stage) (currentSpeed : Q)
  : option (list Stage * Q) :=
  match fuel with
  | O => None
  | S fuel' =>
    if Store.Qltb 2 currentSpeed
    then halving_loop fuel' (filters ++ [atempo_2]) (currentSpeed / 2)%Q
    else Some (filters, currentSpeed)
  end.

(** [while (currentSpeed < 0.5) { filters.push('atempo=0.5'); currentSpeed *= 2.0; }] *)
Fixpoint doubling_loop (fuel : nat) (filters : list Stage) (currentSpeed : Q)
  : option (list Stage * Q) :=
  match fuel with
  | O => None
  | S fuel' =>
    if Store.Qltb currentSpeed (1 # 2)
    then doubling_loop fuel' (filters ++ [atempo_half]) (currentSpeed * 2)%Q
    else Some (filters, currentSpeed)
  end.

(** The array [filters] when [changeSpeed] reaches ffmpeg (lines 257-270). *)
Definition changeSpeed_filters (fuel : nat) (speed : Q) : option (list Stage) :=
  '(filters, currentSpeed) ← halving_loop fuel [] speed;
  '(filters, currentSpeed) ← doubling_loop fuel filters currentSpeed;
  Some (filters ++ [atempo currentSpeed]).

(** ** The same loops on the array

    An array holds at most [2^32 - 1] elements: [filters.push] on a full
    array throws [RangeError: Invalid array length].  (An engine may give up
    earlier, with the same error, when it cannot grow the array.) *)
Definition max_array_length : N := 4294967295.

Definition push (filters : list Stage) (stage : Stage) : string + list Stage :=
  if (N.of_nat (length filters) <? max_array_length)%N
  then inr (filters ++ [stage])
  else inl "Invalid array length".

(** [inl message]: the loop was left by the exception of a [push]. *)
Fixpoint halving_loop_array (fuel : nat) (filters : list Stage) (currentSpeed : Q)
  : option (string + list Stage * Q) :=
  match fuel with
  | O => None
  | S fuel' =>
    if Store.Qltb 2 currentSpeed then
      match push filters atempo_2 with
      | inr filters => halving_loop_array fuel' filters (currentSpeed / 2)%Q
      | inl message => Some (inl message)
      end
    else Some (inr (filters, currentSpeed))
  end.

Fixpoint doubling_loop_array (fuel : nat) (filters : list Stage) (currentSpeed : Q)
  : option (string + list Stage * Q) :=
  match fuel with
  | O => None
  | S fuel' =>
    if Store.Qltb currentSpeed (1 # 2) then
      match push filters atempo_half with
      | inr filters => doubling_loop_array fuel' filters (currentSpeed * 2)%Q
      | inl message => Some (inl message)
      end
    else Some (inr (filters, currentSpeed))
  end.

(** Lines 257-270: both loops and the last [push]. *)
Definition changeSpeed_array (fuel : nat) (speed : Q) : option (string + list Stage) :=
  match halving_loop_array fuel [] speed with
  | None => None
  | Some (inl message) => Some (inl message)
  | Some (inr (filters, currentSpeed)) =>
    match doubling_loop_array fuel filters currentSpeed with
    | None => None
    | Some (inl message) => Some (inl message)
    | Some (inr (filters, currentSpeed)) => Some (push filters (atempo currentSpeed))
    end
  end.

(** [{ time, volume }] of [applyVolumeEnvelope]. *)
Record VolumePoint := mkVolumePoint {
  vp_time : Q;
  vp_volume : Q
}.

(** [outputPath.replace(/[^/\\]+$/, '')]: the path without its last
    component. *)
Definition is_sep (c : ascii) : bool :=
  Ascii.eqb c "/" || Ascii.eqb c "\".

Fixpoint has_sep (s : string) : bool :=
  match s with
  | EmptyString => false
  | String c s' => is_sep c || has_sep s'
  end.

Fixpoint tempDir_of (s : string) : string :=
  match s with
  | EmptyString => EmptyString
  | String c s' => if has_sep s then String c (tempDir_of s') else EmptyString
  end.

(** [filters.join(',')] *)
Fixpoint join (sep : string) (l : list string) : string :=
  match l with
  | [] => ""
  | [x] => x
  | x :: l' => x +:+ sep +:+ join sep l'
  end.

(** [')'] appended [n] times. *)
Fixpoint closing (n : nat) : string :=
  match n with
  | O => ""
  | S n' => ")" +:+ closing n'
  end.

Section Methods.

(** [toString] is the conversion of a number inside a template literal;
    [dbToLinear v] is [Math.pow(10, v / 20)]. *)
Context (toString : Q → string) (dbToLinear : Q → Q).
Context (ora : Oracle).

Definition stage_string (st : Stage) : string :=
  match st with
  | atempo_2 => "atempo=2.0"
  | atempo_half => "atempo=0.5"
  | atempo r => "atempo=" +:+ toString r
  end.

(** Lines 88-99. *)
Definition trim (inputPath outputPath : string) (startTime duration : Q)
  : Promise string :=
  run_ffmpeg (Trim inputPath outputPath startTime duration)
             (ffmpeg_trim ora inputPath outputPath startTime duration) outputPath;;
  mret outputPath.

(** The one-filter methods ([applyEcho], [adjustVolume], ...) and the inline
    promise of [applyEffectToSelection] share this shape. *)
Definition audioFilters (inputPath filter outputPath : string) : Promise string :=
  run_ffmpeg (AudioFilters inputPath filter outputPath)
             (ffmpeg_filter ora inputPath filter outputPath) outputPath;;
  mret outputPath.

(** Lines 150-191. *)
Definition concatenate (inputPaths : list string) (outputPath : string)
  : Promise string :=
  match inputPaths with
  | [] => throw "No input files provided"
  | [p] => copyFile ora p outputPath;; mret outputPath
  | _ =>
    let tempListPath := outputPath +:+ ".txt" in
    writeFile ora tempListPath;;
    ((λ w,
      let w := record (Concat inputPaths outputPath) w in
      match ffmpeg_concat ora inputPaths outputPath with
      | None => (unlink ora tempListPath;; mret outputPath) (create outputPath w)
      | Some e => (unlink ora tempListPath;; throw e) w
      end) : Promise string)
  end.

(** Lines 196-206; the oracle's answer already includes [|| 0]. *)
Definition getDuration (inputPath : string) : Promise Q := λ w,
  let w := record (Probe inputPath) w in
  match ffprobe ora inputPath with
  | inr d => (Resolved d, w)
  | inl e => (Rejected e, w)
  end.

(** Lines 254-280.  [None]: the executor of the promise is still running
    when the fuel is used up.  An exception thrown in the executor rejects
    the promise before ffmpeg is reached. *)
Definition changeSpeed (fuel : nat) (inputPath outputPath : string) (speed : Q)
  : World → option (Result string * World) := λ w,
  match changeSpeed_array fuel speed with
  | None => None
  | Some (inl message) => Some (Rejected message, w)
  | Some (inr filters) =>
    Some (audioFilters inputPath (join "," (map stage_string filters)) outputPath w)
  end.

(** Lines 341-381.  [timestamp] stands for [Date.now()]. *)
Definition deleteSelection (timestamp : Z) (inputPath outputPath : string)
    (startTime endTime : Q) : Promise string :=
  audioDuration ← getDuration inputPath;
  let tempDir := tempDir_of outputPath in
  if Store.Qleb startTime 0 && Store.Qleb audioDuration endTime then
    throw "Cannot delete entire audio"
  else if Store.Qleb startTime 0 then
    trim inputPath outputPath endTime (audioDuration - endTime)%Q;;
    mret outputPath
  else if Store.Qleb audioDuration endTime then
    trim inputPath outputPath 0%Q startTime;;
    mret outputPath
  else
    let beforePath := tempDir +:+ "temp_before_" +:+ pretty timestamp +:+ ".wav" in
    let afterPath := tempDir +:+ "temp_after_" +:+ pretty timestamp +:+ ".wav" in
    trim inputPath beforePath 0%Q startTime;;
    trim inputPath afterPath endTime (audioDuration - endTime)%Q;;
    concatenate [beforePath; afterPath] outputPath;;
    unlink ora beforePath;;
    unlink ora afterPath;;
    mret outputPath.

(** Lines 391-452. *)
Definition applyEffectToSelection (timestamp : Z) (inputPath outputPath : string)
    (startTime endTime : Q) (effectFilter : string) : Promise string :=
  audioDuration ← getDuration inputPath;
  let tempDir := tempDir_of outputPath in
  let beforePath := tempDir +:+ "temp_before_" +:+ pretty timestamp +:+ ".wav" in
  let selectionPath := tempDir +:+ "temp_selection_" +:+ pretty timestamp +:+ ".wav" in
  let selectionProcessedPath :=
    tempDir +:+ "temp_selection_processed_" +:+ pretty timestamp +:+ ".wav" in
  let afterPath := tempDir +:+ "temp_after_" +:+ pretty timestamp +:+ ".wav" in
  let partsToConcat : list string := [] in
  partsToConcat ←
    (if Store.Qltb 0 startTime
     then trim inputPath beforePath 0%Q startTime;;
          mret (partsToConcat ++ [beforePath])
     else mret partsToConcat);
  let selectionDuration := (endTime - startTime)%Q in
  trim inputPath selectionPath startTime selectionDuration;;
  audioFilters selectionPath effectFilter selectionProcessedPath;;
  let partsToConcat := partsToConcat ++ [selectionProcessedPath] in
  partsToConcat ←
    (if Store.Qltb endTime audioDuration
     then trim inputPath afterPath endTime (audioDuration - endTime)%Q;;
          mret (partsToConcat ++ [afterPath])
     else mret partsToConcat);
  (if (length partsToConcat =? 1)%nat
   then copyFile ora selectionProcessedPath outputPath
   else concatenate partsToConcat outputPath;; mret ());;
  unlink ora beforePath;;
  unlink ora selectionPath;;
  unlink ora selectionProcessedPath;;
  unlink ora afterPath;;
  mret outputPath.

(** The body of the first loop of [applyVolumeEnvelope] (lines 479-500):
    what iteration [i] and the later ones append to [volumeExpr];
    [first] is [i === 0]. *)
Fixpoint envelope_terms (first : bool) (volumePoints : list VolumePoint) : string :=
  match volumePoints with
  | [] => ""
  | point :: rest =>
    let volLinear := dbToLinear (vp_volume point) in
    (if first && Store.Qltb 0 (vp_time point)
     then "if(lt(t," +:+ toString (vp_time point) +:+ ")," +:+ toString volLinear +:+ ","
     else "")
    +:+
    (match rest with
     | nextPoint :: _ =>
       let nextVolLinear := dbToLinear (vp_volume nextPoint) in
       let timeDiff := (vp_time nextPoint - vp_time point)%Q in
       "if(lt(t," +:+ toString (vp_time nextPoint) +:+ ")," +:+ toString volLinear
       +:+ "+(" +:+ toString nextVolLinear +:+ "-" +:+ toString volLinear
       +:+ ")*(t-" +:+ toString (vp_time point) +:+ ")/" +:+ toString timeDiff +:+ ","
     | [] => toString volLinear
     end)
    +:+ envelope_terms false rest
  end.

(** [volumeExpr] after the closing loop (lines 502-505). *)
Definition volumeExpr (volumePoints : list VolumePoint) : string :=
  envelope_terms true volumePoints +:+ closing (length volumePoints).

(** Lines 457-515. *)
Definition applyVolumeEnvelope (inputPath outputPath : string)
    (volumePoints : list VolumePoint) : Promise string :=
  if (length volumePoints =? 0)%nat then
    copyFile ora inputPath outputPath;; mret outputPath
  else
    audioFilters inputPath ("volume='" +:+ volumeExpr volumePoints +:+ "'") outputPath.

(** The one-filter methods (lines 101-143, 211-249, 285-336). *)
Definition removeSilence (inputPath outputPath : string) : Promise string :=
  audioFilters inputPath
    "silenceremove=stop_periods=-1:stop_duration=1:stop_threshold=-50dB" outputPath.

Definition applyNoiseReduction (inputPath outputPath : string) : Promise string :=
  audioFilters inputPath "afftdn=nf=-25" outputPath.

Definition applyEcho (inputPath outputPath : string) : Promise string :=
  audioFilters inputPath "aecho=0.8:0.9:1000:0.3" outputPath.

Definition applyDistortion (inputPath outputPath : string) : Promise string :=
  audioFilters inputPath "acrusher=level_in=1:level_out=1:bits=4:mode=log:aa=1"
    outputPath.

Definition applyFadeIn (inputPath outputPath : string) (duration : Q) : Promise string :=
  audioFilters inputPath ("afade=t=in:st=0:d=" +:+ toString duration) outputPath.

(** [Math.max(0, audioDuration - duration)] of [applyFadeOut]. *)
Definition fadeOut_startTime (duration audioDuration : Q) : Q :=
  Store.Math_max 0 (audioDuration - duration)%Q.

Definition applyFadeOut (inputPath outputPath : string) (duration audioDuration : Q)
  : Promise string :=
  let startTime := fadeOut_startTime duration audioDuration in
  audioFilters inputPath
    ("afade=t=out:st=" +:+ toString startTime +:+ ":d=" +:+ toString duration)
    outputPath.

Definition normalize (inputPath outputPath : string) : Promise string :=
  audioFilters inputPath "loudnorm=I=-16:TP=-1.5:LRA=11" outputPath.

Definition adjustVolume (inputPath outputPath : string) (volumeDb : Q) : Promise string :=
  audioFilters inputPath ("volume=" +:+ toString volumeDb +:+ "dB") outputPath.

Definition applyReverb (inputPath outputPath : string) : Promise string :=
  audioFilters inputPath "aecho=0.8:0.88:60:0.4" outputPath.

Definition applyBassBoost (inputPath outputPath : string) : Promise string :=
  audioFilters inputPath "bass=g=10" outputPath.

Definition applyTrebleBoost (inputPath outputPath : string) : Promise string :=
  audioFilters inputPath "treble=g=10" outputPath.

End Methods.

End AudioProcessor.

(* ================================================================== *)
(** * Part IV.  The IPC handlers ([electron/main.ts], lines 357-417)    *)
(* ================================================================== *)

Module Main.
Import Engine.

(** [{ success: true, path }] or [{ success: false, error }]. *)
Inductive IpcResult :=
| success (path : string)
| failure (error : string).

(** [try { await p; return { success: true, path: outputPath }; }
     catch (error) { return { success: false, error: error.message }; }] *)
Definition handle (p : Promise string) (outputPath : string)
  : World → IpcResult * World := λ w,
  match p w with
  | (Resolved _, w') => (success outputPath, w')
  | (Rejected message, w') => (failure message, w')
  end.

Section Handlers.
Context (toString : Q → string) (ora : Oracle).

Definition audio_deleteSelection (timestamp : Z) (inputPath outputPath : string)
    (startTime endTime : Q) : World → IpcResult * World :=
  handle (AudioProcessor.deleteSelection ora timestamp inputPath outputPath
            startTime endTime) outputPath.

Definition audio_applyEffectToSelection (timestamp : Z) (inputPath outputPath : string)
    (startTime endTime : Q) (effectFilter : string) : World → IpcResult * World :=
  handle (AudioProcessor.applyEffectToSelection ora timestamp inputPath outputPath
            startTime endTime effectFilter) outputPath.

(** [None]: the handler has not answered when the fuel is used up. *)
Definition audio_changeSpeed (fuel : nat) (inputPath outputPath : string) (speed : Q)
  : World → option (IpcResult * World) := λ w,
  match AudioProcessor.changeSpeed toString ora fuel inputPath outputPath speed w with
  | None => None
  | Some (Resolved _, w') => Some (success outputPath, w')
  | Some (Rejected message, w') => Some (failure message, w')
  end.

Definition audio_trim (inputPath outputPath : string) (startTime duration : Q)
  : World → IpcResult * World :=
  handle (AudioProcessor.trim ora inputPath outputPath startTime duration) outputPath.

Definition audio_concatenate (inputPaths : list string) (outputPath : string)
  : World → IpcResult * World :=
  handle (AudioProcessor.concatenate ora inputPaths outputPath) outputPath.

Definition audio_fadeOut (inputPath outputPath : string) (duration audioDuration : Q)
  : World → IpcResult * World :=
  handle (AudioProcessor.applyFadeOut toString ora inputPath outputPath
            duration audioDuration) outputPath.

Definition audio_applyVolumeEnvelope (dbToLinear : Q → Q) (inputPath outputPath : string)
    (volumePoints : list AudioProcessor.VolumePoint) : World → IpcResult * World :=
  handle (AudioProcessor.applyVolumeEnvelope toString dbToLinear ora inputPath
            outputPath volumePoints) outputPath.

(** [{ success: true, duration }] or [{ success: false, error }] of
    ['audio:getDuration']. *)
Definition audio_getDuration (inputPath : string) : World → (string + Q) * World := λ w,
  match AudioProcessor.getDuration ora inputPath w with
  | (Resolved duration, w') => (inr duration, w')
  | (Rejected message, w') => (inl message, w')
  end.

End Handlers.

End Main.

(* ================================================================== *)
(** * Part V.  The editor's calls ([AdvancedAudioEditor.tsx])           *)
(* ================================================================== *)

Module Editor.
Import Engine Store.

(** What the user gets to see: an [alert], the text of
    [setProcessingMessage], or nothing. *)
Inductive Feedback :=
| Alert (message : string)
| ProcessingMessage (message : string)
| Silent.

(** [s.replace(pat, rep)] for a string pattern: the first occurrence only.
    The replacements used here contain no [$]. *)
Fixpoint replace_first (pat rep s : string) : string :=
  if String.prefix pat s
  then rep +:+ String.substring (String.length pat)
                 (String.length s - String.length pat) s
  else match s with
       | EmptyString => EmptyString
       | String c s' => String c (replace_first pat rep s')
       end.

(** [path.split(/[/\\]/).pop()]: what follows the last separator. *)
Fixpoint last_component (s : string) : string :=
  match s with
  | EmptyString => EmptyString
  | String _ s' => if AudioProcessor.has_sep s then last_component s' else s
  end.

(** [a || b] on strings: the empty string is falsy. *)
Definition or_else (a b : string) : string :=
  match a with
  | EmptyString => b
  | _ => a
  end.

(** [{ ...track.take, id, filePath, fileName }], with a new [duration] where
    the handler gives one. *)
Definition renderedTake (take : Take) (newId path : string) (newDuration : option Q)
  : Take :=
  {| take_id := newId; lineIndex := lineIndex take; takeNumber := takeNumber take;
     fileName := or_else (last_component path) (fileName take);
     filePath := path;
     take_duration := default (take_duration take) newDuration;
     timestamp := timestamp take; isSelected := isSelected take |}.

(** [[...tracks].sort((a, b) => a.offset - b.offset)], the stable sort as
    for the envelope points. *)
Fixpoint insert_by_offset (t : AudioTrack) (l : list AudioTrack) : list AudioTrack :=
  match l with
  | [] => [t]
  | u :: l' => if Qleb (offset t) (offset u) then t :: l else u :: insert_by_offset t l'
  end.

Fixpoint sort_by_offset (l : list AudioTrack) : list AudioTrack :=
  match l with
  | [] => []
  | t :: l' => insert_by_offset t (sort_by_offset l')
  end.

(** [inputPaths] of [handleExport] (lines 567-568). *)
Definition export_inputPaths (tracks : list AudioTrack) : list string :=
  map (fun t => filePath (track_take t)) (sort_by_offset tracks).

(** The bounds the [region-created] and [region-updated] listeners put on a
    dragged region before [setSelection] (lines 182-199). *)
Definition region_selection (track : AudioTrack) (region_start region_end : Q)
    (s : AudioEditorState) : AudioEditorState :=
  let regionStart := Math_max 0 region_start in
  let regionEnd := Math_min (duration track) region_end in
  setSelection (Some (offset track + regionStart)%Q)
               (Some (offset track + regionEnd)%Q) s.

(** ** Edits the component makes straight through [updateTrack] and
    [updateEnvelopePoint], without a call of [saveToHistory] *)

(** [handleToggleMute] (lines 370-375). *)
Definition handleToggleMute (trackId : string) (s : AudioEditorState)
  : AudioEditorState :=
  match find (fun t => String.eqb (id t) trackId) (tracks s) with
  | Some track =>
    updateTrack trackId
      (mkTrackUpdates None None None None (Some (negb (muted track)))
         None None None None None) s
  | None => s
  end.

(** [handleVolumeSlider] (lines 377-379). *)
Definition handleVolumeSlider (trackId : string) (value : Q) (s : AudioEditorState)
  : AudioEditorState :=
  updateTrack trackId
    (mkTrackUpdates None None None None None None (Some value) None None None) s.

(** [handleGainSlider] (lines 381-383). *)
Definition handleGainSlider (trackId : string) (value : Q) (s : AudioEditorState)
  : AudioEditorState :=
  updateTrack trackId
    (mkTrackUpdates None None None None None None None (Some value) None None) s.

(** The [onClick] of the solo button of [track] (line 1206). *)
Definition toggleSolo (track : AudioTrack) (s : AudioEditorState) : AudioEditorState :=
  updateTrack (id track)
    (mkTrackUpdates None None None None None (Some (negb (solo track)))
       None None None None) s.

(** [Math.round]: the nearest integer, a half going up. *)
Definition Math_round (x : Q) : Q := inject_Z (Qfloor (x + (1 # 2))).

(** [handleMouseMove] while the envelope point [point] of [track] is dragged
    (lines 1278-1283): [startVolume] is the point's volume when the drag
    began, [deltaY] how far down the pointer has moved since. *)
Definition dragEnvelopePoint (track : AudioTrack) (point : EnvelopePoint)
    (startVolume deltaY : Q) (s : AudioEditorState) : AudioEditorState :=
  let deltaVolume := (- (deltaY / 2))%Q in
  let newVolume := Math_max (-24) (Math_min 24 (startVolume + deltaVolume)%Q) in
  updateEnvelopePoint (id track) (point_id point)
    (mkPointUpdates None None (Some (Math_round newVolume))) s.

Section Calls.
Context (ora : Oracle).

(** The selection branch of [applyEffect] (lines 417-428), for a selection
    [selectedRegionStart], [selectedRegionEnd] that is not [null]. *)
Definition applyEffect_selection (timestamp : Z) (track : AudioTrack)
    (selectedRegionStart selectedRegionEnd : Q) (outputPath effectFilter : string)
  : World → Main.IpcResult * World :=
  let startTime := (Math_min selectedRegionStart selectedRegionEnd - offset track)%Q in
  let endTime := (Math_max selectedRegionStart selectedRegionEnd - offset track)%Q in
  Main.audio_applyEffectToSelection ora timestamp
    (filePath (track_take track)) outputPath
    (Math_max 0 startTime) (Math_min (duration track) endTime) effectFilter.

(** The sibling [handleTrimToSelection] (lines 611-628) clamps the same way
    and then refuses an empty selection; [Some (start, trimDuration)] are the
    arguments it hands to [trimAudio]. *)
Definition handleTrimToSelection_args (track : AudioTrack)
    (selectedRegionStart selectedRegionEnd : Q) : string + Q * Q :=
  let start :=
    Math_max 0 (Math_min selectedRegionStart selectedRegionEnd - offset track)%Q in
  let end_ :=
    Math_min (duration track)
             (Math_max selectedRegionStart selectedRegionEnd - offset track)%Q in
  let trimDuration := (end_ - start)%Q in
  if Qleb trimDuration 0 then inl "Invalid selection"
  else inr (start, trimDuration).

(** The bounds check of [handleDeleteSelection] (lines 476-485):
    [inr (startTime, endTime)] are the arguments it goes on with. *)
Definition handleDeleteSelection_args (track : AudioTrack)
    (selectedRegionStart selectedRegionEnd : Q) : string + Q * Q :=
  let startTime := (Math_min selectedRegionStart selectedRegionEnd - offset track)%Q in
  let endTime := (Math_max selectedRegionStart selectedRegionEnd - offset track)%Q in
  if Qltb startTime 0 || Qltb (duration track) endTime
  then inl "Selection is out of track bounds"
  else inr (startTime, endTime).

(** [handleDeleteSelection] (lines 469-538) on the store and the outside
    world.  [now] is the component's [Date.now()], [timestamp] the one of
    [AudioProcessor.deleteSelection].  The calls into WaveSurfer are not
    modelled. *)
Definition handleDeleteSelection (now timestamp : Z)
    (s : AudioEditorState) (w : World) : Feedback * AudioEditorState * World :=
  match truthy_id (selectedTrackId s), selectedRegionStart s, selectedRegionEnd s with
  | Some sel, Some a, Some b =>
    match find (fun t => String.eqb (id t) sel) (tracks s) with
    | None => (Silent, s, w)
    | Some track =>
      match handleDeleteSelection_args track a b with
      | inl message => (Alert message, s, w)
      | inr (startTime, endTime) =>
        let s1 := saveToHistory s in
        let outputPath :=
          replace_first ".wav" ("_deleted_" +:+ pretty now +:+ ".wav")
                        (filePath (track_take track)) in
        match Main.audio_deleteSelection ora timestamp (filePath (track_take track))
                outputPath startTime endTime w with
        | (Main.success (String c path' as path), w1) =>
          let '(durationResult, w2) := Main.audio_getDuration ora path w1 in
          let newDuration :=
            match durationResult with
            | inr d => if Qeq_bool d 0 then duration track else d
            | inl _ => duration track
            end in
          let newTake :=
            renderedTake (track_take track)
              (take_id (track_take track) +:+ "_" +:+ pretty now) path
              (Some newDuration) in
          let s2 :=
            updateTrack (id track)
              (mkTrackUpdates None (Some newTake) None (Some newDuration)
                 None None None None None None) s1 in
          (ProcessingMessage "Selection deleted!",
           deleteSelection (clearSelection s2), w2)
        | (Main.success EmptyString, w1) =>
          (ProcessingMessage "Error: Unknown error", s1, w1)
        | (Main.failure error, w1) =>
          (ProcessingMessage ("Error: " +:+ or_else error "Unknown error"), s1, w1)
        end
      end
    end
  | _, _, _ => (Alert "Please select a region first (drag on the waveform)", s, w)
  end.

(** [handleTrimToSelection] (lines 600-658). *)
Definition handleTrimToSelection (now : Z)
    (s : AudioEditorState) (w : World) : Feedback * AudioEditorState * World :=
  match truthy_id (selectedTrackId s), selectedRegionStart s, selectedRegionEnd s with
  | Some sel, Some a, Some b =>
    match find (fun t => String.eqb (id t) sel) (tracks s) with
    | None => (Silent, s, w)
    | Some track =>
      match handleTrimToSelection_args track a b with
      | inl message => (Alert message, s, w)
      | inr (start, trimDuration) =>
        let s1 := saveToHistory s in
        let outputPath :=
          replace_first ".wav" ("_trimmed_" +:+ pretty now +:+ ".wav")
                        (filePath (track_take track)) in
        match Main.audio_trim ora (filePath (track_take track)) outputPath
                start trimDuration w with
        | (Main.success (String c path' as path), w1) =>
          let newTake :=
            renderedTake (track_take track)
              (take_id (track_take track) +:+ "_trimmed_" +:+ pretty now) path
              (Some trimDuration) in
          let s2 :=
            updateTrack (id track)
              (mkTrackUpdates None (Some newTake) None (Some trimDuration)
                 None None None None None None) s1 in
          (ProcessingMessage "Trim successful!", clearSelection s2, w1)
        | (Main.success EmptyString, w1) =>
          (ProcessingMessage "Trim failed: ", s1, w1)
        | (Main.failure error, w1) =>
          (ProcessingMessage ("Trim failed: " +:+ error), s1, w1)
        end
      end
    end
  | _, _, _ => (Alert "Please select a region first (drag on the waveform)", s, w)
  end.

(** [applyEffect] (lines 393-468) up to its last [setProcessingMessage];
    the [clearSelection()] it schedules with [setTimeout] runs later.
    [slug] stands for [effectName.toLowerCase().replace(/\s/g, '_')] and
    [processFn] for the optional whole-track call. *)
Definition applyEffect (now timestamp : Z) (applyToSelection : bool)
    (effectName slug effectFilter : string)
    (processFn : option (string → string → World → Main.IpcResult * World))
    (s : AudioEditorState) (w : World) : Feedback * AudioEditorState * World :=
  match truthy_id (selectedTrackId s) with
  | None => (Alert "Please select a track first", s, w)
  | Some sel =>
    match find (fun t => String.eqb (id t) sel) (tracks s) with
    | None => (Silent, s, w)
    | Some track =>
      let s1 := saveToHistory s in
      let outputPath :=
        replace_first ".wav" ("_" +:+ slug +:+ "_" +:+ pretty now +:+ ".wav")
                      (filePath (track_take track)) in
      let result :=
        match applyToSelection, selectedRegionStart s, selectedRegionEnd s, processFn with
        | true, Some a, Some b, _ =>
          Some (applyEffect_selection timestamp track a b outputPath effectFilter w)
        | _, _, _, Some f => Some (f (filePath (track_take track)) outputPath w)
        | _, _, _, None => None
        end in
      match result with
      | None => (ProcessingMessage "Error: No effect processor provided", s1, w)
      | Some (Main.success (String c path' as path), w1) =>
        let newTake :=
          renderedTake (track_take track)
            (take_id (track_take track) +:+ "_" +:+ pretty now) path None in
        let s2 :=
          updateTrack (id track)
            (mkTrackUpdates None (Some newTake) None None
               None None None None None None) s1 in
        (ProcessingMessage "Effect applied successfully!", s2, w1)
      | Some (Main.success EmptyString, w1) =>
        (ProcessingMessage "Error: Unknown error", s1, w1)
      | Some (Main.failure error, w1) =>
        (ProcessingMessage ("Error: " +:+ or_else error "Unknown error"), s1, w1)
      end
    end
  end.

End Calls.

End Editor.

(* ================================================================== *)
(** * Part VI.  Vocabulary of the properties                            *)
(* ================================================================== *)

Module Props.
Import Engine Store.

(** ** History *)

(** The part of the store a snapshot captures: the timeline model. *)
Definition live (s : AudioEditorState) : HistoryState := snapshot s.

(** A change of the store that leaves [history] and [historyIndex] alone. *)
Definition keeps_history (m : AudioEditorState → AudioEditorState) : Prop :=
  ∀ s, history (m s) = history s ∧ historyIndex (m s) = historyIndex s.

(** [saveToHistory(); m1(); saveToHistory(); m2(); ...] *)
Fixpoint edits (ms : list (AudioEditorState → AudioEditorState))
    (s : AudioEditorState) : AudioEditorState :=
  match ms with
  | [] => s
  | m :: ms' => edits ms' (m (saveToHistory s))
  end.

(** The snapshots those calls of [saveToHistory] take, oldest first. *)
Fixpoint pushed (ms : list (AudioEditorState → AudioEditorState))
    (s : AudioEditorState) : list HistoryState :=
  match ms with
  | [] => []
  | m :: ms' => snapshot s :: pushed ms' (m (saveToHistory s))
  end.

Definition keep_last {A} (n : nat) (l : list A) : list A :=
  drop (length l - n) l.

Definition cursor_ok (s : AudioEditorState) : Prop :=
  history s ≠ [] → 0 ≤ historyIndex s < Z.of_nat (length (history s)).

(** [s'] is what an action made of [s], and the action took its snapshot
    before it changed anything: the history is the one [saveToHistory]
    builds from [s], and the entry under the cursor is [s] itself. *)
Definition saved_before (s s' : AudioEditorState) : Prop :=
  history s' = history (saveToHistory s) ∧
  historyIndex s' = historyIndex (saveToHistory s) ∧
  at_index (history s') (historyIndex s') = Some (snapshot s).

(** ** Envelope points *)

Definition sorted_by_time (l : list EnvelopePoint) : Prop :=
  StronglySorted (λ p q, (time p <= time q)%Q) l.

Definition distinct_times (l : list EnvelopePoint) : Prop :=
  ∀ i j p q, i ≠ j → l !! i = Some p → l !! j = Some q → ¬ (time p == time q)%Q.

Inductive EnvelopeOp :=
| AddPoint (newId trackId : string) (time volume : Q)
| UpdatePoint (trackId pointId : string) (updates : PointUpdates)
| RemovePoint (trackId pointId : string).

Definition apply_op (o : EnvelopeOp) (s : AudioEditorState) : AudioEditorState :=
  match o with
  | AddPoint newId trackId time volume => addEnvelopePoint newId trackId time volume s
  | UpdatePoint trackId pointId updates => updateEnvelopePoint trackId pointId updates s
  | RemovePoint trackId pointId => removeEnvelopePoint trackId pointId s
  end.

Definition run_ops (ops : list EnvelopeOp) (s : AudioEditorState) : AudioEditorState :=
  fold_left (λ s o, apply_op o s) ops s.

Definition all_sorted (s : AudioEditorState) : Prop :=
  Forall (λ t, sorted_by_time (envelopePoints t)) (tracks s).

Definition all_distinct (s : AudioEditorState) : Prop :=
  Forall (λ t, distinct_times (envelopePoints t)) (tracks s).

(** The points of a list that sit at time [τ], in the order they have in the
    list. *)
Definition at_time (τ : Q) (l : list EnvelopePoint) : list EnvelopePoint :=
  List.filter (λ p, Qeq_bool (time p) τ) l.

(** What one operation does to the points [ps] of a track it addresses,
    giving [ps']:
    - adding a point leaves the points up to the new point's time in
      front, in their order, puts the new point behind them (behind the
      points of its own time too) and the later points behind it;
    - updating keeps every point, the addressed ones with the new values:
      [ps'] is a rearrangement of the updated points that keeps the order
      among points of one time;
    - removing leaves the other points, in their order. *)
Definition op_effect (o : EnvelopeOp) (ps ps' : list EnvelopePoint) : Prop :=
  match o with
  | AddPoint newId _ time volume =>
    ps' = List.filter (λ p, Qleb (Store.time p) time) ps
          ++ [mkPoint newId time volume]
          ++ List.filter (λ p, Qltb time (Store.time p)) ps
  | UpdatePoint _ pointId updates =>
    let updated :=
      map (λ p, if String.eqb (point_id p) pointId then merge_point p updates else p)
          ps in
    ps' ≡ₚ updated ∧ ∀ τ, at_time τ ps' = at_time τ updated
  | RemovePoint _ pointId =>
    ps' = filter (λ p, point_id p ≠ pointId) ps
  end.

(** The track an operation addresses. *)
Definition op_track (o : EnvelopeOp) : string :=
  match o with
  | AddPoint _ trackId _ _ => trackId
  | UpdatePoint trackId _ _ => trackId
  | RemovePoint trackId _ => trackId
  end.

(** [t'] is what the operation made of the track [t]: a track it does not
    address is left as it is, and of a track it addresses only the envelope
    points change, as [op_effect] says. *)
Definition track_effect (o : EnvelopeOp) (t t' : AudioTrack) : Prop :=
  if String.eqb (id t) (op_track o)
  then t' = with_envelopePoints t (envelopePoints t') ∧
       op_effect o (envelopePoints t) (envelopePoints t')
  else t' = t.

(** ** Brackets of an expression *)

Definition count_char (c : ascii) (s : string) : Z :=
  Z.of_nat (length (filter (λ x, x = c) (String.list_ascii_of_string s))).

(** Opening minus closing round brackets. *)
Definition excess (s : string) : Z := count_char "(" s - count_char ")" s.

(** The depth after each character never drops below zero and ends at
    zero. *)
Fixpoint scan (depth : Z) (s : string) : bool :=
  match s with
  | EmptyString => depth =? 0
  | String c s' =>
    if Ascii.eqb c "(" then scan (depth + 1) s'
    else if Ascii.eqb c ")" then (0 <? depth) && scan (depth - 1) s'
    else scan depth s'
  end.

Definition balanced (s : string) : Prop := scan 0 s = true.

Definition bracket_free (s : string) : Prop :=
  count_char "(" s = 0 ∧ count_char ")" s = 0.

(** ** Speed stages *)



Definition pow2 (k : nat) : Q := inject_Z (2 ^ Z.of_nat k).

(** [n] is the number of stages that fits the ratio [r]: one stage inside
    [0.5, 2]; above it the [n] with [2^(n-1) < r <= 2^n]; below it the [n]
    with [2^-n <= r < 2^-(n-1)].  Outside [0.5, 2] this is the integer
    [ceil(|log2 r|)]. *)
Definition stage_count (r : Q) (n : nat) : Prop :=
  (n = 1%nat ∧ ((1 # 2) <= r)%Q ∧ (r <= 2)%Q) ∨
  ((1 < n)%nat ∧ (pow2 (n - 1) < r)%Q ∧ (r <= pow2 n)%Q) ∨
  ((1 < n)%nat ∧ (r * pow2 (n - 1) < 1)%Q ∧ (1 <= r * pow2 n)%Q).

(** ** Temporary files *)

(** The paths handed to [fs.unlinkSync], in order. *)
Definition unlinked (cs : list Call) : list string :=
  omap (λ c, match c with Unlink path => Some path | _ => None end) cs.

Definition temporaries (timestamp : Z) (outputPath : string) : list string :=
  let tempDir := AudioProcessor.tempDir_of outputPath in
  [ tempDir +:+ "temp_before_" +:+ pretty timestamp +:+ ".wav";
    tempDir +:+ "temp_selection_" +:+ pretty timestamp +:+ ".wav";
    tempDir +:+ "temp_selection_processed_" +:+ pretty timestamp +:+ ".wav";
    tempDir +:+ "temp_after_" +:+ pretty timestamp +:+ ".wav" ].

(** ** Sessions of store actions *)

(** One call of an action of the store, with its arguments. *)
Inductive Action :=
| AddTrack (newId : string) (take : Take)
| RemoveTrack (trackId : string)
| UpdateTrack (trackId : string) (updates : TrackUpdates)
| SetTracks (ts : list AudioTrack)
| ClearTracks
| SelectTrack (trackId : option string)
| SetSelection (a b : option Q)
| SetCursorPosition (position : Q)
| SetIsPlaying (playing : bool)
| SetCurrentTime (time : Q)
| SetDuration (duration : Q)
| SetZoom (zoom : Q)
| SetScrollLeft (scrollLeft : Q)
| SetToolMode (mode : ToolMode)
| CopySelection
| CutSelection
| PasteAtCursor
| DeleteSelection
| SplitAtCursor (now : Z)
| SelectAll
| ClearSelection
| AddEnvelopePoint (newId trackId : string) (time volume : Q)
| UpdateEnvelopePoint (trackId pointId : string) (updates : PointUpdates)
| RemoveEnvelopePoint (trackId pointId : string)
| SaveToHistory
| Undo
| Redo
| Reset.

Definition run (a : Action) (s : AudioEditorState) : AudioEditorState :=
  match a with
  | AddTrack newId take => addTrack newId take s
  | RemoveTrack trackId => removeTrack trackId s
  | UpdateTrack trackId updates => updateTrack trackId updates s
  | SetTracks ts => setTracks ts s
  | ClearTracks => clearTracks s
  | SelectTrack trackId => selectTrack trackId s
  | SetSelection a b => setSelection a b s
  | SetCursorPosition position => setCursorPosition position s
  | SetIsPlaying playing => setIsPlaying playing s
  | SetCurrentTime time => setCurrentTime time s
  | SetDuration duration => setDuration duration s
  | SetZoom zoom => setZoom zoom s
  | SetScrollLeft scrollLeft => setScrollLeft scrollLeft s
  | SetToolMode mode => setToolMode mode s
  | CopySelection => copySelection s
  | CutSelection => cutSelection s
  | PasteAtCursor => pasteAtCursor s
  | DeleteSelection => deleteSelection s
  | SplitAtCursor now => splitAtCursor now s
  | SelectAll => selectAll s
  | ClearSelection => clearSelection s
  | AddEnvelopePoint newId trackId time volume =>
    addEnvelopePoint newId trackId time volume s
  | UpdateEnvelopePoint trackId pointId updates =>
    updateEnvelopePoint trackId pointId updates s
  | RemoveEnvelopePoint trackId pointId => removeEnvelopePoint trackId pointId s
  | SaveToHistory => saveToHistory s
  | Undo => undo s
  | Redo => redo s
  | Reset => reset s
  end.

Definition run_all (acts : list Action) (s : AudioEditorState) : AudioEditorState :=
  fold_left (λ s a, run a s) acts s.

(** The history is empty with the cursor at -1, or holds at most 50
    snapshots with the cursor on one of them. *)
Definition history_inv (s : AudioEditorState) : Prop :=
  (history s = [] ∧ historyIndex s = -1) ∨
  (0 ≤ historyIndex s < Z.of_nat (length (history s)) ∧
   (length (history s) ≤ 50)%nat).

(** ** Calls made by the pipeline *)

(** The seconds of audio cut out by the [trim] calls of a log. *)
Definition trimmed_seconds (cs : list Call) : Q :=
  fold_right (λ c acc, match c with Trim _ _ _ d => (d + acc)%Q | _ => acc end) 0%Q cs.

(** The [trim] calls of a log that write [outputPath]. *)
Definition trims_into (outputPath : string) (cs : list Call) : list Call :=
  List.filter (λ c, match c with Trim _ o _ _ => String.eqb o outputPath | _ => false end) cs.

Definition is_ffmpeg_run (c : Call) : bool :=
  match c with
  | Trim _ _ _ _ | AudioFilters _ _ _ | Concat _ _ => true
  | _ => false
  end.

Definition is_concat (c : Call) : bool :=
  match c with
  | Concat _ _ => true
  | _ => false
  end.

(** Ascending in [offset], equal offsets allowed. *)
Definition sorted_by_offset (l : list AudioTrack) : Prop :=
  StronglySorted (λ t u, (offset t <= offset u)%Q) l.

(** ** What the store keeps true *)

(** The view inside its limits: between 10 and 500 pixels per second, the
    cursor and the scroll position not left of 0. *)
Definition view_inv (s : AudioEditorState) : Prop :=
  (10 <= zoom s)%Q ∧ (zoom s <= 500)%Q ∧
  (0 <= cursorPosition s)%Q ∧ (0 <= scrollLeft s)%Q.

(** A clipboard, when there is one, runs from an earlier to a later time. *)
Definition clipboard_ordered (s : AudioEditorState) : Prop :=
  match clipboard s with
  | Some c => (startTime c <= endTime c)%Q
  | None => True
  end.


(** ** File paths *)

(** [pat] occurs somewhere in [s]. *)
Fixpoint occurs (pat s : string) : bool :=
  String.prefix pat s ||
  match s with
  | EmptyString => false
  | String _ s' => occurs pat s'
  end.

End Props.

(* ================================================================== *)
(** * Part VII.  Concrete sessions used by the examples                 *)
(* ================================================================== *)

Module Scenarios.
Import Engine Store Props.

Definition take_1 : Take :=
  {| take_id := "take_1"; lineIndex := 0; takeNumber := 1;
     fileName := "line_001_take_1.wav"; filePath := "/rec/line_001_take_1.wav";
     take_duration := 10; timestamp := "2024-05-01T10:00:00.000Z";
     isSelected := true |}.

Definition track_1 : AudioTrack :=
  {| id := "track_1"; track_take := take_1; offset := 0; duration := 10;
     muted := false; solo := false; volume := 1; gain := 0;
     regions := []; envelopePoints := [] |}.

(** A store with one track and nothing recorded in its history yet. *)
Definition one_track : AudioEditorState := set_tracks [track_1] initialState.

(** Two edits through [updateTrack], each after a [saveToHistory()] of the
    caller, the way [applyEffect] of the component does it. *)
Definition raise_gain : AudioEditorState → AudioEditorState :=
  updateTrack "track_1"
    (mkTrackUpdates None None None None None None None (Some 3%Q) None None).

Definition mute : AudioEditorState → AudioEditorState :=
  updateTrack "track_1"
    (mkTrackUpdates None None None None (Some true) None None None None None).

Definition after_A : AudioEditorState := raise_gain (saveToHistory one_track).
Definition after_B : AudioEditorState := mute (saveToHistory after_A).

(** The store after the first take was added to the editor. *)
Definition track_added : AudioEditorState := addTrack "track_1" take_1 initialState.

(** Two clicks of the envelope tool at the same time position. *)
Definition two_clicks : list EnvelopeOp :=
  [ AddPoint "point_1" "track_1" 1 0; AddPoint "point_2" "track_1" 1 (-6) ].

(** The envelope of the specification's example. *)
Definition ramp_down : list AudioProcessor.VolumePoint :=
  [ AudioProcessor.mkVolumePoint 0 0; AudioProcessor.mkVolumePoint 2 (-12) ].

(** The strings JavaScript prints for the numbers of that example, and the
    double [Math.pow(10, -12 / 20)]. *)
Definition sample_dbToLinear (v : Q) : Q :=
  if Qeq_bool v 0 then 1 else 251188643150958 # 1000000000000000.

Definition sample_toString (x : Q) : string :=
  if Qeq_bool x 0 then "0"
  else if Qeq_bool x 1 then "1"
  else if Qeq_bool x 2 then "2"
  else "0.251188643150958".

(** An outside world where every step works, except possibly the
    concatenation. *)
Definition answers (concat : option string) : Oracle :=
  {| ffprobe := λ _, inr 10%Q;
     ffmpeg_trim := λ _ _ _ _, None;
     ffmpeg_filter := λ _ _ _, None;
     ffmpeg_concat := λ _ _, concat;
     fs_copy := λ _ _, None;
     fs_write := λ _, None;
     fs_unlink := λ _, None |}.

Definition disk : World :=
  {| files := {[ "/rec/line_001_take_1.wav" ]}; calls := [] |}.

(** The only track selected, with a selection dragged from 6 s back to
    3 s. *)
Definition selection_6_3 : AudioEditorState :=
  setSelection (Some 6%Q) (Some 3%Q) (selectTrack (Some "track_1") one_track).

(** The only track selected, with the cursor at 4 s. *)
Definition cursor_at_4 : AudioEditorState :=
  setCursorPosition 4 (selectTrack (Some "track_1") one_track).

(** The store after the two clicks. *)
Definition enveloped : AudioEditorState := run_ops two_clicks one_track.

(** An envelope that starts after time 0. *)
Definition late_ramp : list AudioProcessor.VolumePoint :=
  [ AudioProcessor.mkVolumePoint 1 0; AudioProcessor.mkVolumePoint 2 (-12) ].

(** An outside world where the probe fails. *)
Definition probe_fails : Oracle :=
  {| ffprobe := λ _, inl "ffprobe exited with code 1";
     ffmpeg_trim := λ _ _ _ _, None;
     ffmpeg_filter := λ _ _ _, None;
     ffmpeg_concat := λ _ _, None;
     fs_copy := λ _ _, None;
     fs_write := λ _, None;
     fs_unlink := λ _, None |}.

(** A take recorded as FLAC, on a track of its own that is selected. *)
Definition take_flac : Take :=
  {| take_id := "take_1"; lineIndex := 0; takeNumber := 1;
     fileName := "line_001_take_1.flac"; filePath := "/rec/line_001_take_1.flac";
     take_duration := 10; timestamp := "2024-05-01T10:00:00.000Z";
     isSelected := true |}.

Definition track_flac : AudioTrack :=
  {| id := "track_1"; track_take := take_flac; offset := 0; duration := 10;
     muted := false; solo := false; volume := 1; gain := 0;
     regions := []; envelopePoints := [] |}.

Definition flac_selected : AudioEditorState :=
  selectTrack (Some "track_1") (set_tracks [track_flac] initialState).

End Scenarios.

(* ================================================================== *)
(** * Part VIII.  File names ([src/utils/fileNaming.ts])                *)
(* ================================================================== *)

Module FileNaming.

Inductive Format := wav | flac | mp3.

Definition format_string (f : Format) : string :=
  match f with
  | wav => "wav"
  | flac => "flac"
  | mp3 => "mp3"
  end.

Definition is_lower_alnum (c : ascii) : bool :=
  let n := nat_of_ascii c in
  ((97 <=? n) && (n <=? 122) || (48 <=? n) && (n <=? 57))%nat.

(** [toLowerCase] on one ASCII character. *)
Definition lower_char (c : ascii) : ascii :=
  let n := nat_of_ascii c in
  if ((65 <=? n) && (n <=? 90))%nat then ascii_of_nat (n + 32) else c.

Fixpoint map_chars (f : ascii → ascii) (s : string) : string :=
  match s with
  | EmptyString => EmptyString
  | String c s' => String (f c) (map_chars f s')
  end.

(** [.replace(/_+/g, '_')] *)
Fixpoint collapse_underscores (s : string) : string :=
  match s with
  | EmptyString => EmptyString
  | String c s' =>
    if Ascii.eqb c "_" then
      match s' with
      | String d _ => if Ascii.eqb d "_" then collapse_underscores s'
                      else String c (collapse_underscores s')
      | EmptyString => String c EmptyString
      end
    else String c (collapse_underscores s')
  end.

(** [_$]: an underscore in the last position goes. *)
Fixpoint strip_trailing_underscore (s : string) : string :=
  match s with
  | EmptyString => EmptyString
  | String c EmptyString => if Ascii.eqb c "_" then EmptyString else s
  | String c s' => String c (strip_trailing_underscore s')
  end.

(** [.replace(/^_|_$/g, '')]: an underscore in the first position goes, and
    one in the last position of what follows. *)
Definition strip_underscores (s : string) : string :=
  match s with
  | String c s' => if Ascii.eqb c "_" then strip_trailing_underscore s'
                   else strip_trailing_underscore s
  | EmptyString => EmptyString
  end.

(** Lines 54-61, for input made of ASCII characters. *)
Definition sanitizeFileName (input : string) : string :=
  let s := map_chars lower_char input in
  let s := map_chars (λ c, if is_lower_alnum c then c else "_"%char) s in
  let s := collapse_underscores s in
  let s := strip_underscores s in
  String.substring 0 50 s.

(** The last [n] characters of [s] are [suffix]. *)
Definition ends_with (suffix s : string) : bool :=
  let n := String.length suffix in
  (n <=? String.length s)%nat &&
  String.eqb (String.substring (String.length s - n) n s) suffix.

Definition without_last (n : nat) (s : string) : string :=
  String.substring 0 (String.length s - n) s.

(** Lines 23-25: [audioFileName.replace(/\.(wav|flac|mp3)$/, '.json')].  The
    pattern can only match at the end of the name. *)
Definition generateMetadataFileName (audioFileName : string) : string :=
  if ends_with ".wav" audioFileName then without_last 4 audioFileName +:+ ".json"
  else if ends_with ".flac" audioFileName then without_last 5 audioFileName +:+ ".json"
  else if ends_with ".mp3" audioFileName then without_last 4 audioFileName +:+ ".json"
  else audioFileName.

(** What a file name may be made of. *)
Definition is_ascii (c : ascii) : bool := (nat_of_ascii c <? 128)%nat.

Definition safe_char (c : ascii) : bool := is_lower_alnum c || Ascii.eqb c "_".

Fixpoint all_chars (P : ascii → bool) (s : string) : bool :=
  match s with
  | EmptyString => true
  | String c s' => P c && all_chars P s'
  end.

Fixpoint no_double_underscore (s : string) : bool :=
  match s with
  | String c (String d _ as s') =>
    negb (Ascii.eqb c "_" && Ascii.eqb d "_") && no_double_underscore s'
  | _ => true
  end.

Definition starts_with_underscore (s : string) : bool :=
  match s with
  | String c _ => Ascii.eqb c "_"
  | EmptyString => false
  end.

End FileNaming.

(* ================================================================== *)
(** * Part IX.  Facts about comparisons                                 *)
(* ================================================================== *)

Module NumFacts.
Import Store.

Lemma Qleb_le a b : Qleb a b = true ↔ (a <= b)%Q.
Proof.
  unfold Qleb. rewrite Qle_alt. destruct (a ?= b)%Q; split; congruence.
Qed.

Lemma Qleb_gt a b : Qleb a b = false ↔ (b < a)%Q.
Proof.
  unfold Qleb. change (b < a)%Q with (a > b)%Q. rewrite Qgt_alt.
  destruct (a ?= b)%Q; split; congruence.
Qed.

Lemma Qltb_lt a b : Qltb a b = true ↔ (a < b)%Q.
Proof.
  unfold Qltb. rewrite Qlt_alt. destruct (a ?= b)%Q; split; congruence.
Qed.

Lemma Qltb_ge a b : Qltb a b = false ↔ (b <= a)%Q.
Proof.
  split.
  - intros H. apply Qnot_lt_le. intros Hlt. apply Qltb_lt in Hlt. congruence.
  - intros H. destruct (Qltb a b) eqn:E; [|done].
    apply Qltb_lt in E. exfalso. by apply (Qlt_not_le a b).
Qed.

End NumFacts.

(* ================================================================== *)
(** * Part X.  The history                                              *)
(* ================================================================== *)

Module HistoryFacts.
Import Store Props Scenarios.

Lemma slice0_all {A} (l : list A) (e : Z) :
  Z.of_nat (length l) ≤ e → slice0 e l = l.
Proof.
  intros He. unfold slice0.
  destruct (Z.ltb_spec e 0) as [Hneg|_]; [lia|].
  rewrite Z.min_r by lia. rewrite Nat2Z.id. apply firstn_all.
Qed.

(** [saveToHistory] leaves the timeline model as it is. *)
Lemma saveToHistory_live s : live (saveToHistory s) = live s.
Proof. unfold saveToHistory. by repeat case_match. Qed.

(** After [saveToHistory] the newest entry is the state just seen and the
    cursor is on it. *)
Lemma saveToHistory_newest s :
  ∃ h, history (saveToHistory s) = h ++ [snapshot s] ∧
       historyIndex (saveToHistory s) = Z.of_nat (length h).
Proof.
  unfold saveToHistory.
  destruct (Nat.eqb_spec (length (history s)) 0) as [_|_];
    cbn [history historyIndex set_history].
  { by exists []. }
  set (pre := slice0 (historyIndex s + 1) (history s)).
  destruct (Nat.ltb_spec 50 (length (pre ++ [snapshot s]))) as [Hlong|_].
  - destruct pre as [|x pre']; [cbn in Hlong; lia|].
    exists pre'. unfold shift. cbn [app drop]. rewrite drop_0. split; [done|].
    rewrite length_app. cbn [length]. lia.
  - exists pre. split; [done|]. rewrite length_app. cbn [length]. lia.
Qed.

Lemma saveToHistory_cursor_ok s : cursor_ok (saveToHistory s).
Proof.
  destruct (saveToHistory_newest s) as (h & Hh & Hi).
  intros _. rewrite Hh, Hi, length_app. cbn. lia.
Qed.

(** With the cursor on the newest of at most 50 entries, [saveToHistory]
    appends and keeps the newest 50. *)
Lemma saveToHistory_append s :
  (history s = [] ∨ historyIndex s = Z.of_nat (length (history s)) - 1) →
  (length (history s) ≤ 50)%nat →
  history (saveToHistory s) = keep_last 50 (history s ++ [snapshot s]).
Proof.
  intros Hend Hlen. unfold saveToHistory, keep_last.
  destruct (Nat.eqb_spec (length (history s)) 0) as [Hz|Hnz];
    cbn [history historyIndex set_history].
  { apply length_zero_iff_nil in Hz. by rewrite Hz. }
  destruct Hend as [Hnil|Hidx]; [by rewrite Hnil in Hnz|].
  rewrite slice0_all by lia.
  rewrite length_app. cbn [length].
  destruct (Nat.ltb_spec 50 (length (history s) + 1)) as [Hlong|Hshort].
  - unfold shift. f_equal. lia.
  - replace (length (history s) + 1 - 50)%nat with 0%nat by lia. done.
Qed.

Lemma keep_last_length {A} (n : nat) (l : list A) :
  length (keep_last n l) = Nat.min n (length l).
Proof. unfold keep_last. rewrite length_drop. lia. Qed.

Lemma keep_last_app {A} (n : nat) (a b : list A) :
  keep_last n (keep_last n a ++ b) = keep_last n (a ++ b).
Proof.
  unfold keep_last.
  destruct (Nat.le_gt_cases (length a) n) as [Hle|Hgt].
  { replace (length a - n)%nat with 0%nat by lia. by rewrite drop_0. }
  rewrite !length_app, length_drop.
  replace (length a - (length a - n) + length b - n)%nat with (length b) by lia.
  replace (length a + length b - n)%nat with ((length a - n) + length b)%nat by lia.
  rewrite <- drop_drop. f_equal.
  rewrite drop_app_le by lia. done.
Qed.

Lemma edits_history ms : ∀ s,
  Forall keeps_history ms →
  (history s = [] ∨ historyIndex s = Z.of_nat (length (history s)) - 1) →
  (length (history s) ≤ 50)%nat →
  history (edits ms s) = keep_last 50 (history s ++ pushed ms s) ∧
  (history (edits ms s) = [] ∨
   historyIndex (edits ms s) = Z.of_nat (length (history (edits ms s))) - 1).
Proof.
  induction ms as [|m ms IH]; intros s Hms Hend Hlen; cbn.
  - rewrite app_nil_r. unfold keep_last.
    replace (length (history s) - 50)%nat with 0%nat by lia. by rewrite drop_0.
  - inversion Hms as [|? ? Hm Hms']; subst.
    destruct (Hm (saveToHistory s)) as [Hh Hi].
    destruct (saveToHistory_newest s) as (h & Hnew & Hcur).
    pose proof (saveToHistory_append s Hend Hlen) as Happ.
    destruct (IH (m (saveToHistory s)) Hms') as [IH1 IH2].
    + right. rewrite Hh, Hi, Hcur, Hnew, length_app. cbn. lia.
    + rewrite Hh, Happ, keep_last_length. lia.
    + split; [|done].
      rewrite IH1, Hh, Happ, keep_last_app, <- app_assoc. done.
Qed.

Lemma edits_cursor_ok ms : ∀ s,
  Forall keeps_history ms → cursor_ok s → cursor_ok (edits ms s).
Proof.
  induction ms as [|m ms IH]; intros s Hms Hs; cbn; [done|].
  inversion Hms as [|? ? Hm Hms']; subst.
  apply IH; [done|].
  destruct (Hm (saveToHistory s)) as [Hh Hi].
  unfold cursor_ok. rewrite Hh, Hi. apply saveToHistory_cursor_ok.
Qed.

Lemma pushed_length ms : ∀ s, length (pushed ms s) = length ms.
Proof. induction ms as [|m ms IH]; intros s; cbn; [done|]. by rewrite IH. Qed.

(** C6.  Sixty times [saveToHistory(); mutate()] from an empty history
    (the mutations are arbitrary, as long as they leave the history alone)
    leave exactly 50 entries, namely the pushed snapshots without the oldest
    ten; the cursor is 49 and the entry under it is the newest snapshot.
    After any number [k] of these steps the cursor is within the history
    whenever the history is not empty. *)
Theorem history_cap_after_60_pushes ms s :
  Forall keeps_history ms →
  length ms = 60%nat →
  history s = [] →
  let s' := edits ms s in
  history s' = drop 10 (pushed ms s) ∧
  length (history s') = 50%nat ∧
  historyIndex s' = 49 ∧
  at_index (history s') (historyIndex s') = last (pushed ms s) ∧
  ∀ k, cursor_ok (edits (take k ms) s).
Proof.
  intros Hms Hlen Hnil s'.
  destruct (edits_history ms s Hms) as [Hh Hi]; [by left|rewrite Hnil; cbn; lia|].
  fold s' in Hh, Hi. rewrite Hnil in Hh. cbn in Hh.
  unfold keep_last in Hh. rewrite pushed_length, Hlen in Hh. cbn in Hh.
  assert (Hl : length (history s') = 50%nat).
  { rewrite Hh, length_drop, pushed_length. lia. }
  assert (Hc : historyIndex s' = 49).
  { destruct Hi as [Hi|Hi]; [rewrite Hi in Hl; done|lia]. }
  split; [done|]. split; [done|]. split; [done|]. split.
  - rewrite Hc. unfold at_index. cbn -[drop].
    rewrite Hh. rewrite lookup_drop. rewrite last_lookup.
    rewrite pushed_length, Hlen. done.
  - intros k. apply edits_cursor_ok.
    + by apply Forall_take.
    + intros Hne. by rewrite Hnil in Hne.
Qed.


(** ** Undo after two edits *)

Lemma at_index_app_r {A} (h : list A) (x : A) (l : list A) :
  at_index (h ++ x :: l) (Z.of_nat (length h)) = Some x.
Proof.
  unfold at_index. destruct (Z.ltb_spec (Z.of_nat (length h)) 0); [lia|].
  rewrite Nat2Z.id. by rewrite list_lookup_middle.
Qed.

(** Two snapshots in a row end the history, with the cursor on the second. *)
Lemma saveToHistory_twice m s :
  keeps_history m →
  let s1 := m (saveToHistory s) in
  ∃ h, history (saveToHistory s1) = h ++ [snapshot s; snapshot s1] ∧
       historyIndex (saveToHistory s1) = Z.of_nat (length h) + 1.
Proof.
  intros Hm s1.
  destruct (saveToHistory_newest s) as (h & Hh & Hi).
  destruct (Hm (saveToHistory s)) as [Hh1 Hi1]. fold s1 in Hh1, Hi1.
  rewrite Hh in Hh1. rewrite Hi in Hi1.
  unfold saveToHistory. rewrite Hh1, Hi1.
  destruct (Nat.eqb_spec (length (h ++ [snapshot s])) 0) as [Hz|_].
  { rewrite length_app in Hz. cbn in Hz. lia. }
  cbn [history historyIndex set_history].
  rewrite slice0_all by (rewrite length_app; cbn [length]; lia).
  rewrite <- app_assoc. cbn [app].
  destruct (Nat.ltb_spec 50 (length (h ++ [snapshot s; snapshot s1]))) as [Hlong|_].
  - destruct h as [|x h']; [cbn in Hlong; lia|].
    exists h'. unfold shift. cbn [app drop]. rewrite drop_0. split; [done|].
    rewrite length_app. cbn [length]. lia.
  - exists h. split; [done|]. rewrite length_app. cbn [length]. lia.
Qed.

(** What [undo] and [redo] do after
    [saveToHistory(); mA(); saveToHistory(); mB()], from any state of the
    store: [undo] brings back the state from before [mA], and [redo] then
    shows the state from before [mB]. *)
Lemma undo_after_two_edits mA mB s :
  keeps_history mA → keeps_history mB →
  let sA := mA (saveToHistory s) in
  let sB := mB (saveToHistory sA) in
  live (undo sB) = live s ∧ live (redo (undo sB)) = live sA.
Proof.
  intros HA HB sA sB.
  destruct (saveToHistory_twice mA s HA) as (h & Hh & Hi). fold sA in Hh, Hi.
  destruct (HB (saveToHistory sA)) as [HhB HiB]. fold sB in HhB, HiB.
  rewrite Hh in HhB. rewrite Hi in HiB.
  assert (Hundo : undo sB = restore (snapshot s) (Z.of_nat (length h)) sB).
  { unfold undo. rewrite HhB, HiB.
    destruct (Nat.eqb_spec (length (h ++ [snapshot s; snapshot sA])) 0) as [Hz|_].
    { rewrite length_app in Hz. cbn in Hz. lia. }
    destruct (Z.leb_spec (Z.of_nat (length h) + 1) 0) as [?|_]; [lia|].
    cbn [orb].
    replace (Z.of_nat (length h) + 1 - 1) with (Z.of_nat (length h)) by lia.
    by rewrite at_index_app_r. }
  split.
  - rewrite Hundo. by destruct s.
  - unfold redo. rewrite Hundo. cbn [history historyIndex restore]. rewrite HhB.
    rewrite length_app. cbn [length].
    destruct (Z.ltb_spec (Z.of_nat (length h)) (Z.of_nat (length h + 2) - 1)) as [_|?];
      [|lia].
    replace (h ++ [snapshot s; snapshot sA]) with ((h ++ [snapshot s]) ++ [snapshot sA])
      by (by rewrite <- app_assoc).
    replace (Z.of_nat (length h) + 1) with (Z.of_nat (length (h ++ [snapshot s])))
      by (rewrite length_app; cbn [length]; lia).
    rewrite at_index_app_r. by destruct sA.
Qed.

(** With an empty history to start from, the first edit cannot be undone:
    [undo] finds the cursor at 0 and does nothing. *)
Lemma first_edit_is_not_undone m s :
  keeps_history m → history s = [] →
  undo (m (saveToHistory s)) = m (saveToHistory s).
Proof.
  intros Hm Hnil. destruct (Hm (saveToHistory s)) as [Hh Hi].
  unfold undo. rewrite Hi. unfold saveToHistory. rewrite Hnil. cbn.
  by rewrite orb_true_r.
Qed.

Lemma undo_cursor_ok s : cursor_ok s → cursor_ok (undo s).
Proof.
  intros Hs. unfold undo.
  destruct (Nat.eqb_spec (length (history s)) 0) as [|Hn]; [done|].
  destruct (Z.leb_spec (historyIndex s) 0) as [|Hpos]; [done|]. cbn [orb].
  destruct (at_index _ _); [|done].
  intros Hne. cbn [history historyIndex restore] in *. specialize (Hs Hne). lia.
Qed.

Lemma redo_cursor_ok s : cursor_ok s → cursor_ok (redo s).
Proof.
  intros Hs. unfold redo.
  destruct (Z.ltb_spec (historyIndex s) (Z.of_nat (length (history s)) - 1)); [|done].
  destruct (at_index _ _); [|done].
  intros Hne. cbn [history historyIndex restore] in *. specialize (Hs Hne). lia.
Qed.


(** ** Which actions take a snapshot *)

Lemma saveToHistory_saved_before s : saved_before s (saveToHistory s).
Proof.
  split; [done|]. split; [done|].
  destruct (saveToHistory_newest s) as (h & Hh & Hi).
  rewrite Hh, Hi. apply at_index_app_r.
Qed.

Lemma saved_before_keeps s s1 s' :
  saved_before s s1 →
  history s' = history s1 → historyIndex s' = historyIndex s1 →
  saved_before s s'.
Proof. intros (H1 & H2 & H3) Hh Hi. unfold saved_before. by rewrite Hh, Hi. Qed.

Ltac snapshot_first :=
  eapply saved_before_keeps;
  [apply saveToHistory_saved_before | reflexivity | reflexivity].

(** What the sibling actions do: [addTrack], [removeTrack], [setTracks],
    [clearTracks], [addEnvelopePoint] and [removeEnvelopePoint] take their
    snapshot before they change anything: afterwards the entry under the
    cursor is the state from before the action.  [deleteSelection] and
    [splitAtCursor] do the same whenever they do anything at all.
    [updateTrack] and [updateEnvelopePoint] leave the history alone. *)
Lemma saving_actions_snapshot_first s :
  (∀ newId take, saved_before s (addTrack newId take s)) ∧
  (∀ trackId, saved_before s (removeTrack trackId s)) ∧
  (∀ ts, saved_before s (setTracks ts s)) ∧
  saved_before s (clearTracks s) ∧
  (∀ newId trackId time volume,
     saved_before s (addEnvelopePoint newId trackId time volume s)) ∧
  (∀ trackId pointId, saved_before s (removeEnvelopePoint trackId pointId s)) ∧
  (deleteSelection s = s ∨ saved_before s (deleteSelection s)) ∧
  (∀ now, splitAtCursor now s = s ∨ saved_before s (splitAtCursor now s)) ∧
  (∀ trackId updates,
     history (updateTrack trackId updates s) = history s ∧
     historyIndex (updateTrack trackId updates s) = historyIndex s) ∧
  (∀ trackId pointId updates,
     history (updateEnvelopePoint trackId pointId updates s) = history s ∧
     historyIndex (updateEnvelopePoint trackId pointId updates s) = historyIndex s).
Proof.
  repeat split; intros; try snapshot_first.
  - unfold deleteSelection. repeat case_match; (by left) || (right; snapshot_first).
  - unfold splitAtCursor. repeat case_match; (by left) || (right; snapshot_first).
Qed.

(** [updateTrack] changes the tracks of the one-track store and records
    nothing. *)
Lemma updateTrack_takes_no_snapshot :
  tracks (mute one_track) ≠ tracks one_track ∧
  history (mute one_track) = [] ∧
  ¬ saved_before one_track (mute one_track).
Proof.
  split; [|split].
  - vm_compute. discriminate.
  - reflexivity.
  - intros (Hh & _). vm_compute in Hh. discriminate.
Qed.

(** C1.  On the one-track store: [saveToHistory(); raise_gain();
    saveToHistory(); mute(); undo()] shows the store from before
    [raise_gain], not the one after it, and [redo()] then shows the store
    after [raise_gain], not the one after [mute]. *)
Theorem undo_reverts_both_edits :
  live (undo after_B) = live one_track ∧
  live (undo after_B) ≠ live after_A ∧
  live (redo (undo after_B)) = live after_A ∧
  live (redo (undo after_B)) ≠ live after_B.
Proof.
  split; [|split; [|split]].
  - reflexivity.
  - vm_compute. discriminate.
  - reflexivity.
  - vm_compute. discriminate.
Qed.

(** C4.  [updateTrack] and [updateEnvelopePoint] never touch the history,
    and neither do the five places of the component that edit a track
    through them with no [saveToHistory()] of their own: the mute button,
    the volume and the gain slider, the solo button and the drag of an
    envelope point.  On the store with one track just added, a click on the
    mute button changes the track, records nothing and cannot be undone,
    where the sibling action [removeTrack] on the same store takes its
    snapshot first. *)
Theorem slider_edits_are_never_recorded :
  (∀ trackId updates, keeps_history (updateTrack trackId updates)) ∧
  (∀ trackId pointId updates,
     keeps_history (updateEnvelopePoint trackId pointId updates)) ∧
  (∀ trackId, keeps_history (Editor.handleToggleMute trackId)) ∧
  (∀ trackId value, keeps_history (Editor.handleVolumeSlider trackId value)) ∧
  (∀ trackId value, keeps_history (Editor.handleGainSlider trackId value)) ∧
  (∀ track, keeps_history (Editor.toggleSolo track)) ∧
  (∀ track point startVolume deltaY,
     keeps_history (Editor.dragEnvelopePoint track point startVolume deltaY)) ∧
  tracks (Editor.handleToggleMute "track_1" track_added) ≠ tracks track_added ∧
  history (Editor.handleToggleMute "track_1" track_added) = history track_added ∧
  ¬ saved_before track_added (Editor.handleToggleMute "track_1" track_added) ∧
  undo (Editor.handleToggleMute "track_1" track_added)
    = Editor.handleToggleMute "track_1" track_added ∧
  saved_before track_added (removeTrack "track_1" track_added).
Proof.
  repeat split; try done.
  all: try (unfold Editor.handleToggleMute; by destruct (find _ _)).
  intros (Hh & _). vm_compute in Hh. discriminate.
Qed.

Lemma updateTrack_keeps_history trackId updates :
  keeps_history (updateTrack trackId updates).
Proof. intros s. by split. Qed.

Lemma history_cap_after_60_pushes_witness :
  Forall keeps_history (replicate 60 mute) ∧
  length (replicate 60 mute) = 60%nat ∧
  history one_track = [] ∧
  length (history (edits (replicate 60 mute) one_track)) = 50%nat ∧
  historyIndex (edits (replicate 60 mute) one_track) = 49.
Proof.
  assert (Hk : Forall keeps_history (replicate 60 mute)).
  { apply Forall_replicate. apply updateTrack_keeps_history. }
  split; [exact Hk|]. split; [reflexivity|]. split; [reflexivity|].
  pose proof (history_cap_after_60_pushes (replicate 60 mute) one_track Hk
                eq_refl eq_refl) as (_ & Hlen & Hidx & _).
  split; [exact Hlen | exact Hidx].
Defined.

End HistoryFacts.

(* ================================================================== *)
(** * Part XI.  Envelope points of the store                           *)
(* ================================================================== *)

Module EnvelopeFacts.
Import Store Props Scenarios NumFacts.

Lemma insert_by_time_elem p l x :
  x ∈ insert_by_time p l → x = p ∨ x ∈ l.
Proof.
  induction l as [|q l IH]; cbn.
  - rewrite list_elem_of_singleton. by left.
  - destruct (Qleb (time p) (time q)).
    + rewrite elem_of_cons. tauto.
    + rewrite !elem_of_cons. intros [->|Hx]; [tauto|].
      destruct (IH Hx); tauto.
Qed.

Lemma insert_by_time_sorted p l :
  sorted_by_time l → sorted_by_time (insert_by_time p l).
Proof.
  unfold sorted_by_time.
  induction 1 as [|q l Hl IH Hq]; cbn.
  - repeat constructor.
  - destruct (Qleb (time p) (time q)) eqn:E.
    + apply Qleb_le in E. constructor; [by constructor|].
      constructor; [done|].
      eapply Forall_impl; [exact Hq|]. cbn. intros x Hx. by eapply Qle_trans.
    + apply Qleb_gt in E. constructor; [done|].
      apply Forall_forall. intros x Hx.
      apply insert_by_time_elem in Hx as [->|Hx].
      * by apply Qlt_le_weak.
      * rewrite Forall_forall in Hq. by apply Hq.
Qed.

Lemma sort_by_time_sorted l : sorted_by_time (sort_by_time l).
Proof.
  induction l as [|p l IH]; cbn; [constructor|]. by apply insert_by_time_sorted.
Qed.

Lemma filter_sorted (P : EnvelopePoint → Prop) `{∀ x, Decision (P x)} l :
  sorted_by_time l → sorted_by_time (filter P l).
Proof.
  unfold sorted_by_time. induction 1 as [|q l Hl IH Hq]; [constructor|].
  rewrite filter_cons. case_decide; [|done].
  constructor; [done|].
  apply Forall_forall. intros x Hx. apply list_elem_of_filter in Hx as [_ Hx].
  rewrite Forall_forall in Hq. by apply Hq.
Qed.

Lemma apply_op_all_sorted o s : all_sorted s → all_sorted (apply_op o s).
Proof.
  unfold all_sorted. intros Hs.
  assert (Hsave : tracks (saveToHistory s) = tracks s).
  { unfold saveToHistory. by repeat case_match. }
  destruct o as [newId trackId t v|trackId pointId updates|trackId pointId];
    cbn [apply_op addEnvelopePoint updateEnvelopePoint removeEnvelopePoint
         tracks set_tracks];
    rewrite ?Hsave; apply Forall_fmap; (eapply Forall_impl; [exact Hs|]);
    intros tr Htr; cbn; destruct (String.eqb (id tr) trackId); cbn; try done.
  - apply sort_by_time_sorted.
  - apply sort_by_time_sorted.
  - by apply filter_sorted.
Qed.

(** The stable sort drops nothing: the sorted list has the length of the
    unsorted one. *)
Lemma insert_by_time_length p l : length (insert_by_time p l) = S (length l).
Proof.
  induction l as [|q l IH]; cbn; [done|].
  destruct (Qleb (time p) (time q)); cbn; [done|]. by rewrite IH.
Qed.

Lemma sort_by_time_length l : length (sort_by_time l) = length l.
Proof.
  induction l as [|p l IH]; cbn; [done|]. by rewrite insert_by_time_length, IH.
Qed.

Lemma insert_by_time_perm p l : insert_by_time p l ≡ₚ p :: l.
Proof.
  induction l as [|q l IH]; cbn; [done|].
  destruct (Qleb (time p) (time q)); [done|].
  rewrite IH. apply Permutation_swap.
Qed.

Lemma sort_by_time_perm l : sort_by_time l ≡ₚ l.
Proof.
  induction l as [|p l IH]; cbn; [done|]. by rewrite insert_by_time_perm, IH.
Qed.

(** Sorting a list that is in order already changes nothing. *)
Lemma sort_by_time_sorted_id l : sorted_by_time l → sort_by_time l = l.
Proof.
  unfold sorted_by_time. induction 1 as [|p l Hl IH Hp]; cbn; [done|].
  rewrite IH. destruct l as [|q l']; [done|]. cbn.
  apply Forall_inv in Hp. apply Qleb_le in Hp. by rewrite Hp.
Qed.

Lemma run_ops_all_sorted ops : ∀ s, all_sorted s → all_sorted (run_ops ops s).
Proof.
  induction ops as [|o ops IH]; intros s Hs; cbn; [done|].
  apply IH. by apply apply_op_all_sorted.
Qed.

(** The stable sort keeps the order among the points of one time. *)
Lemma at_time_insert_by_time τ p l :
  at_time τ (insert_by_time p l) = at_time τ (p :: l).
Proof.
  induction l as [|q l IH]; [done|]. cbn [insert_by_time].
  destruct (Qleb (time p) (time q)) eqn:E; [done|]. apply Qleb_gt in E.
  unfold at_time in *. cbn [List.filter] in *. rewrite IH.
  destruct (Qeq_bool (time q) τ) eqn:Eq, (Qeq_bool (time p) τ) eqn:Ep; try done.
  apply Qeq_bool_iff in Eq, Ep. rewrite Eq, Ep in E. by apply Qlt_irrefl in E.
Qed.

Lemma at_time_sort_by_time τ l : at_time τ (sort_by_time l) = at_time τ l.
Proof.
  induction l as [|p l IH]; [done|]. cbn [sort_by_time].
  rewrite at_time_insert_by_time. unfold at_time in *. cbn [List.filter].
  by rewrite IH.
Qed.

(** A point appended to a list in order goes behind the points up to its
    own time and in front of the later ones. *)
Lemma sort_by_time_snoc p l :
  sorted_by_time l →
  sort_by_time (l ++ [p])
  = List.filter (λ q, Qleb (time q) (time p)) l ++ [p]
    ++ List.filter (λ q, Qltb (time p) (time q)) l.
Proof.
  unfold sorted_by_time. induction 1 as [|q l Hl IH Hq]; [done|].
  cbn [app sort_by_time List.filter]. rewrite IH.
  destruct (Qleb (time q) (time p)) eqn:E.
  - assert (Hlt : Qltb (time p) (time q) = false) by (apply Qltb_ge; by apply Qleb_le).
    rewrite Hlt. cbn [app].
    destruct (List.filter _ l) as [|x xs] eqn:Ef; cbn [app insert_by_time].
    + by rewrite E.
    + assert (Hx : In x l).
      { eapply (proj1 (filter_In _ x l)). rewrite Ef. by left. }
      rewrite Forall_forall in Hq. specialize (Hq x ltac:(by apply list_elem_of_In)).
      apply Qleb_le in Hq. by rewrite Hq.
  - apply Qleb_gt in E.
    assert (Hlt : Qltb (time p) (time q) = true) by (by apply Qltb_lt).
    rewrite Hlt.
    assert (Hnone : List.filter (λ q0, Qleb (time q0) (time p)) l = []).
    { clear IH. induction l as [|x l IHl]; [done|]. cbn [List.filter].
      apply Forall_cons in Hq as [Hx Hq]. apply StronglySorted_inv in Hl as [Hl _].
      rewrite (IHl Hl Hq).
      assert (Hxp : Qleb (time x) (time p) = false) by (apply Qleb_gt; lra).
      by rewrite Hxp. }
    assert (Hall : List.filter (λ q0, Qltb (time p) (time q0)) l = l).
    { clear IH Hnone. induction l as [|x l IHl]; [done|]. cbn [List.filter].
      apply Forall_cons in Hq as [Hx Hq]. apply StronglySorted_inv in Hl as [Hl _].
      rewrite (IHl Hl Hq).
      assert (Hxp : Qltb (time p) (time x) = true) by (apply Qltb_lt; lra).
      by rewrite Hxp. }
    rewrite Hnone, Hall. cbn [app insert_by_time].
    assert (Hqp : Qleb (time q) (time p) = false) by (by apply Qleb_gt).
    rewrite Hqp. f_equal.
    destruct l as [|x l']; [done|]. cbn [insert_by_time].
    apply Forall_inv in Hq. apply Qleb_le in Hq. by rewrite Hq.
Qed.

Lemma apply_op_track_effect o s :
  all_sorted s → Forall2 (track_effect o) (tracks s) (tracks (apply_op o s)).
Proof.
  unfold all_sorted. intros Hs.
  assert (Hsave : tracks (saveToHistory s) = tracks s).
  { unfold saveToHistory. by repeat case_match. }
  destruct o as [newId trackId t v|trackId pointId updates|trackId pointId];
    cbn [apply_op addEnvelopePoint updateEnvelopePoint removeEnvelopePoint
         tracks set_tracks];
    rewrite ?Hsave; apply Forall2_fmap_r, Forall_Forall2_diag;
    (eapply Forall_impl; [exact Hs|]); intros tr Htr; unfold compose, track_effect;
    cbn [op_track]; destruct (String.eqb (id tr) trackId); try done;
    (split; [done|]); cbn [op_effect envelopePoints with_envelopePoints].
  - by apply (sort_by_time_snoc (mkPoint newId t v)).
  - split; [apply sort_by_time_perm|]. intros τ. apply at_time_sort_by_time.
Qed.

(** C5, amended.  Whatever sequence of [addEnvelopePoint],
    [updateEnvelopePoint] and [removeEnvelopePoint] runs on a store whose
    tracks all have their envelope points in ascending order of time, the
    points of every track are again in ascending order of time (equal times
    allowed); and whatever operation comes next, it leaves the tracks it
    does not address as they are and does to the points of a track it
    addresses what [op_effect] says: a point is added behind the points up
    to its own time, those of its own time included; an update keeps every
    point and the order among points of one time; only a removal drops
    points, the ones with the given identifier. *)
Theorem envelope_points_stay_sorted ops s :
  all_sorted s →
  all_sorted (run_ops ops s) ∧
  ∀ o, Forall2 (track_effect o)
         (tracks (run_ops ops s)) (tracks (run_ops (ops ++ [o]) s)).
Proof.
  intros Hs. pose proof (run_ops_all_sorted ops s Hs) as Hsorted.
  split; [done|]. intros o. unfold run_ops at 2. rewrite fold_left_app.
  by apply apply_op_track_effect.
Qed.

Lemma envelope_points_stay_sorted_witness :
  all_sorted one_track ∧ all_sorted (run_ops two_clicks one_track) ∧
  Forall2 (track_effect (RemovePoint "track_1" "point_1"))
    (tracks (run_ops two_clicks one_track))
    (tracks (run_ops (two_clicks ++ [RemovePoint "track_1" "point_1"]) one_track)).
Proof.
  assert (Hs : all_sorted one_track) by (repeat constructor).
  destruct (envelope_points_stay_sorted two_clicks one_track Hs) as [H1 H2].
  split; [exact Hs|]. split; [exact H1|exact (H2 _)].
Defined.

(** C5 as stated fails: two points added at the same time are both kept, the
    first one in front. *)
Lemma equal_times_are_kept :
  all_distinct one_track ∧
  map (λ t, map point_id (envelopePoints t)) (tracks (run_ops two_clicks one_track))
    = [["point_1"; "point_2"]] ∧
  ¬ all_distinct (run_ops two_clicks one_track).
Proof.
  split; [|split].
  - constructor; [|constructor]. intros i j p q _ Hp. by destruct i.
  - reflexivity.
  - intros Hd. apply Forall_inv in Hd.
    apply (Hd 0%nat 1%nat (mkPoint "point_1" 1 0) (mkPoint "point_2" 1 (-6)));
      [lia|reflexivity|reflexivity|reflexivity].
Qed.

End EnvelopeFacts.

(* ================================================================== *)
(** * Part XII.  Strings and brackets                                   *)
(* ================================================================== *)

Module StringFacts.

Lemma append_cons x a b : String x a +:+ b = String x (a +:+ b).
Proof. reflexivity. Qed.

Lemma append_assoc a b c : (a +:+ b) +:+ c = a +:+ b +:+ c.
Proof.
  induction a as [|x a IH]; [done|].
  rewrite !append_cons. by rewrite IH.
Qed.

Lemma list_ascii_app a b :
  String.list_ascii_of_string (a +:+ b) =
  String.list_ascii_of_string a ++ String.list_ascii_of_string b.
Proof.
  induction a as [|x a IH]; [done|].
  rewrite append_cons. cbn [String.list_ascii_of_string]. by rewrite IH.
Qed.

End StringFacts.

(* ================================================================== *)
(** * Part XIII.  The volume-envelope expression                        *)
(* ================================================================== *)

Module ExprFacts.
Import Store Props AudioProcessor Scenarios NumFacts StringFacts.

Lemma count_char_cons c x s :
  count_char c (String x s) = (if Ascii.eqb x c then 1 else 0) + count_char c s.
Proof.
  unfold count_char. cbn [String.list_ascii_of_string]. rewrite filter_cons.
  destruct (Ascii.eqb_spec x c) as [->|Hne]; case_decide; try done.
  cbn [length]. lia.
Qed.

Lemma count_char_app c a b :
  count_char c (a +:+ b) = count_char c a + count_char c b.
Proof.
  induction a as [|x a IH]; [done|].
  rewrite append_cons, !count_char_cons, IH. lia.
Qed.

Lemma excess_app a b : excess (a +:+ b) = excess a + excess b.
Proof. unfold excess. rewrite !count_char_app. lia. Qed.

Lemma scan_excess s : ∀ d, scan d s = true → d + excess s = 0.
Proof.
  unfold excess.
  induction s as [|x s IH]; intros d; cbn [scan].
  - intros Hd%Z.eqb_eq. change (count_char "(" "") with 0.
    change (count_char ")" "") with 0. lia.
  - rewrite !count_char_cons.
    destruct (Ascii.eqb_spec x "(") as [->|Hopen].
    + intros Hs%IH. change (Ascii.eqb "(" ")") with false. lia.
    + destruct (Ascii.eqb_spec x ")") as [->|Hclose].
      * intros [_ Hs%IH]%andb_prop. lia.
      * intros Hs%IH. lia.
Qed.

Lemma balanced_excess s : balanced s → excess s = 0.
Proof. intros Hs%scan_excess. lia. Qed.

Lemma scan_bracket_free s r : ∀ d,
  bracket_free s → scan d (s +:+ r) = scan d r.
Proof.
  unfold bracket_free.
  induction s as [|x s IH]; intros d [Ho Hc]; [done|].
  rewrite !count_char_cons in Ho, Hc. rewrite append_cons. cbn [scan].
  assert (0 ≤ count_char "(" s) by (unfold count_char; lia).
  assert (0 ≤ count_char ")" s) by (unfold count_char; lia).
  destruct (Ascii.eqb x "("); [lia|]. destruct (Ascii.eqb x ")"); [lia|].
  apply IH. split; lia.
Qed.

Lemma excess_closing n : excess (closing n) = - Z.of_nat n.
Proof.
  induction n as [|n IH]; [done|].
  cbn [closing]. rewrite excess_app, IH. change (excess ")") with (-1). lia.
Qed.

Lemma scan_closing n : ∀ d, scan d (closing n) = (d =? Z.of_nat n).
Proof.
  induction n as [|n IH]; intros d; [done|].
  cbn [closing]. rewrite append_cons. cbn [scan].
  change (Ascii.eqb ")" "(") with false. change (Ascii.eqb ")" ")") with true.
  cbn match. rewrite IH.
  destruct (Z.ltb_spec 0 d), (Z.eqb_spec (d - 1) (Z.of_nat n)),
    (Z.eqb_spec d (Z.of_nat (S n))); cbn; lia.
Qed.

Lemma scan_open_if d r : scan d ("if(lt(t," +:+ r) = scan (d + 1 + 1) r.
Proof. reflexivity. Qed.

Lemma scan_close_comma d r : 0 < d → scan d (")," +:+ r) = scan (d - 1) r.
Proof.
  intros Hd. change (scan d (")," +:+ r)) with ((0 <? d) && scan (d - 1) r).
  destruct (Z.ltb_spec 0 d); [done|lia].
Qed.

Section Expr.
Context (toString : Q → string) (dbToLinear : Q → Q).
Context (toString_free : ∀ q, bracket_free (toString q)).


Lemma excess_toString q : excess (toString q) = 0.
Proof. destruct (toString_free q) as [Ho Hc]. unfold excess. lia. Qed.

(** Opening minus closing brackets of what the first loop writes: one per
    [if(] it opens. *)
Lemma excess_terms pts : ∀ p first,
  excess (envelope_terms toString dbToLinear first (p :: pts)) =
    (if first && Qltb 0 (vp_time p) then 1 else 0) + Z.of_nat (length pts).
Proof.
  induction pts as [|q pts IH]; intros p first.
  - cbn [envelope_terms length]. rewrite !excess_app, excess_toString.
    destruct (first && Qltb 0 (vp_time p)); [|done].
    rewrite !excess_app, !excess_toString. done.
  - change (envelope_terms toString dbToLinear first (p :: q :: pts)) with
      ((if first && Qltb 0 (vp_time p)
        then "if(lt(t," +:+ toString (vp_time p) +:+ ")," +:+
             toString (dbToLinear (vp_volume p)) +:+ ","
        else "") +:+
       ("if(lt(t," +:+ toString (vp_time q) +:+ ")," +:+
        toString (dbToLinear (vp_volume p)) +:+ "+(" +:+
        toString (dbToLinear (vp_volume q)) +:+ "-" +:+
        toString (dbToLinear (vp_volume p)) +:+ ")*(t-" +:+
        toString (vp_time p) +:+ ")/" +:+
        toString (vp_time q - vp_time p)%Q +:+ ",") +:+
       envelope_terms toString dbToLinear false (q :: pts)).
    rewrite !excess_app, IH, !excess_toString. cbn [andb length].
    change (excess "if(lt(t,") with 2. change (excess "),") with (-1).
    change (excess "+(") with 1. change (excess "-") with 0.
    change (excess ")*(t-") with 0. change (excess ")/") with (-1).
    change (excess ",") with 0.
    destruct (first && Qltb 0 (vp_time p)); [|change (excess "") with 0; lia].
    rewrite !excess_app, !excess_toString.
    change (excess "if(lt(t,") with 2. change (excess "),") with (-1).
    change (excess ",") with 0. lia.
Qed.

Lemma excess_volumeExpr p pts :
  excess (volumeExpr toString dbToLinear (p :: pts)) =
    if Qltb 0 (vp_time p) then 0 else -1.
Proof.
  unfold volumeExpr. rewrite excess_app, excess_closing, excess_terms.
  cbn [andb length]. destruct (Qltb 0 (vp_time p)); lia.
Qed.

(** A first point at (or before) time 0 leaves one closing bracket too
    many. *)
Lemma volumeExpr_unbalanced p pts :
  (vp_time p <= 0)%Q → ¬ balanced (volumeExpr toString dbToLinear (p :: pts)).
Proof.
  intros Hp Hbal%balanced_excess. rewrite excess_volumeExpr in Hbal.
  apply Qltb_ge in Hp. rewrite Hp in Hbal. done.
Qed.

(** Reading one interpolation segment, and one hold-the-first-value
    prefix, raises the depth by one: the [if(] each leaves open. *)
Lemma scan_interpolation d a b c e f g r :
  0 ≤ d →
  scan d ("if(lt(t," +:+ toString a +:+ ")," +:+ toString b +:+ "+(" +:+
          toString c +:+ "-" +:+ toString e +:+ ")*(t-" +:+ toString f +:+
          ")/" +:+ toString g +:+ "," +:+ r)
  = scan (d + 1) r.
Proof.
  intros Hd. rewrite scan_open_if, scan_bracket_free by done.
  rewrite scan_close_comma by lia. rewrite scan_bracket_free by done.
  change (scan (d + 1 + 1 - 1) ("+(" +:+ ?x)) with (scan (d + 1 + 1 - 1 + 1) x).
  rewrite scan_bracket_free by done.
  change (scan ?n ("-" +:+ ?x)) with (scan n x).
  rewrite scan_bracket_free by done.
  change (scan ?n (")*(t-" +:+ ?x)) with ((0 <? n) && scan (n - 1 + 1) x).
  rewrite scan_bracket_free by done.
  change (scan ?n (")/" +:+ ?x)) with ((0 <? n) && scan (n - 1) x).
  rewrite scan_bracket_free by done.
  change (scan ?n ("," +:+ ?x)) with (scan n x).
  destruct (Z.ltb_spec 0 (d + 1 + 1 - 1 + 1)); [|lia].
  destruct (Z.ltb_spec 0 (d + 1 + 1 - 1 + 1 - 1 + 1)); [|lia].
  cbn [andb]. f_equal. lia.
Qed.

Lemma scan_hold_first d a b r :
  0 ≤ d →
  scan d ("if(lt(t," +:+ toString a +:+ ")," +:+ toString b +:+ "," +:+ r)
  = scan (d + 1) r.
Proof.
  intros Hd. rewrite scan_open_if, scan_bracket_free by done.
  rewrite scan_close_comma by lia. rewrite scan_bracket_free by done.
  change (scan ?n ("," +:+ ?x)) with (scan n x). f_equal. lia.
Qed.

Lemma scan_terms pts : ∀ p first d r,
  0 ≤ d →
  scan d (envelope_terms toString dbToLinear first (p :: pts) +:+ r) =
  scan (d + (if first && Qltb 0 (vp_time p) then 1 else 0) + Z.of_nat (length pts)) r.
Proof.
  induction pts as [|q pts IH]; intros p first d r Hd.
  - cbn [envelope_terms length].
    destruct (first && Qltb 0 (vp_time p)).
    + rewrite !append_assoc, scan_hold_first, scan_bracket_free by done.
      change ("" +:+ r) with r. f_equal. lia.
    + change ("" +:+ ?x) with x. rewrite !append_assoc, scan_bracket_free by done.
      change ("" +:+ r) with r. f_equal. lia.
  - change (envelope_terms toString dbToLinear first (p :: q :: pts)) with
      ((if first && Qltb 0 (vp_time p)
        then "if(lt(t," +:+ toString (vp_time p) +:+ ")," +:+
             toString (dbToLinear (vp_volume p)) +:+ ","
        else "") +:+
       ("if(lt(t," +:+ toString (vp_time q) +:+ ")," +:+
        toString (dbToLinear (vp_volume p)) +:+ "+(" +:+
        toString (dbToLinear (vp_volume q)) +:+ "-" +:+
        toString (dbToLinear (vp_volume p)) +:+ ")*(t-" +:+
        toString (vp_time p) +:+ ")/" +:+
        toString (vp_time q - vp_time p)%Q +:+ ",") +:+
       envelope_terms toString dbToLinear false (q :: pts)).
    destruct (first && Qltb 0 (vp_time p)).
    + rewrite !append_assoc, scan_hold_first, scan_interpolation, IH by lia.
      cbn [andb length]. f_equal. lia.
    + change ("" +:+ ?x) with x.
      rewrite !append_assoc, scan_interpolation, IH by lia.
      cbn [andb length]. f_equal. lia.
Qed.

(** The expression is correctly bracketed exactly when the first point lies
    after time 0. *)
Lemma volumeExpr_balanced_iff p pts :
  balanced (volumeExpr toString dbToLinear (p :: pts)) ↔ (0 < vp_time p)%Q.
Proof.
  unfold balanced, volumeExpr. rewrite scan_terms by lia.
  rewrite scan_closing. cbn [andb length].
  rewrite <- Qltb_lt. destruct (Qltb 0 (vp_time p)).
  - rewrite Z.eqb_eq. split; [done|lia].
  - split; [|done]. rewrite Z.eqb_eq. lia.
Qed.

End Expr.

(** Started after time 0, the expression at least has as many closing as
    opening brackets. *)
Lemma volumeExpr_even_after_zero toString dbToLinear p pts :
  (∀ q, bracket_free (toString q)) →
  (0 < vp_time p)%Q →
  excess (volumeExpr toString dbToLinear (p :: pts)) = 0.
Proof.
  intros Hfree Hp. rewrite excess_volumeExpr by done.
  apply Qltb_lt in Hp. by rewrite Hp.
Qed.

(** C2.  For the points [(0, 0 dB), (2, -12 dB)] the compiled expression is
    not correctly bracketed, however numbers are printed (as long as their
    print has no round bracket): the closing loop writes one [)] per point,
    but a first point at time 0 opens no [if(] of its own. *)
Theorem volumeExpr_at_time_zero_unbalanced toString dbToLinear :
  (∀ q, bracket_free (toString q)) →
  ¬ balanced (volumeExpr toString dbToLinear ramp_down) ∧
  excess (volumeExpr toString dbToLinear ramp_down) = -1.
Proof.
  intros Hfree. split.
  - apply volumeExpr_unbalanced; [done|]. cbn. lra.
  - unfold ramp_down. by rewrite excess_volumeExpr.
Qed.

Lemma sample_toString_bracket_free q : bracket_free (sample_toString q).
Proof. unfold sample_toString. by repeat case_match. Qed.

Lemma volumeExpr_at_time_zero_unbalanced_witness :
  (∀ q, bracket_free (sample_toString q)) ∧
  volumeExpr sample_toString sample_dbToLinear ramp_down
    = "if(lt(t,2),1+(0.251188643150958-1)*(t-0)/2,0.251188643150958))" ∧
  ¬ balanced (volumeExpr sample_toString sample_dbToLinear ramp_down).
Proof.
  split; [exact sample_toString_bracket_free|]. split; [reflexivity|].
  exact (proj1 (volumeExpr_at_time_zero_unbalanced sample_toString sample_dbToLinear
                  sample_toString_bracket_free)).
Defined.

End ExprFacts.

(* ================================================================== *)
(** * Part XIV.  The speed decomposition                                *)
(* ================================================================== *)

Module SpeedFacts.
Import Engine Store Props AudioProcessor Scenarios NumFacts.

Lemma pow2_S k : (pow2 (S k) == 2 * pow2 k)%Q.
Proof.
  unfold pow2. rewrite Nat2Z.inj_succ, Z.pow_succ_r by lia.
  by rewrite inject_Z_mult.
Qed.

Lemma pow2_pos k : (0 < pow2 k)%Q.
Proof.
  unfold pow2. change 0%Q with (inject_Z 0). rewrite <- Zlt_Qlt.
  apply Z.pow_pos_nonneg; lia.
Qed.

Lemma half x : (x / 2 == x * (1 # 2))%Q.
Proof. reflexivity. Qed.

(** Every number is below some power of two ... *)
Lemma below_pow2 (c : Q) : ∃ n, (c <= pow2 (S n))%Q.
Proof.
  exists (Z.to_nat (Qnum c)). destruct c as [a b]. unfold pow2, Qle. cbn [Qnum Qden inject_Z].
  destruct (Z.le_gt_cases a 0) as [Hneg|Hpos].
  - assert (0 < 2 ^ Z.of_nat (S (Z.to_nat a))) by (apply Z.pow_pos_nonneg; lia). nia.
  - assert (a < 2 ^ a) by (apply Z.pow_gt_lin_r; lia).
    rewrite Nat2Z.inj_succ, Z2Nat.id, Z.pow_succ_r by lia. nia.
Qed.

(** ... and every positive number times some power of two is at least 1. *)
Lemma above_pow2 (c : Q) : (0 < c)%Q → ∃ n, (1 <= c * pow2 (S n))%Q.
Proof.
  intros Hc. exists (Pos.to_nat (Qden c)). destruct c as [a b].
  unfold Qlt in Hc. cbn in Hc.
  unfold pow2, Qle, Qmult. cbn [Qnum Qden inject_Z].
  assert (Z.pos b < 2 ^ Z.pos b) by (apply Z.pow_gt_lin_r; lia).
  rewrite Nat2Z.inj_succ, positive_nat_Z, Z.pow_succ_r by lia.
  rewrite Pos.mul_1_r. nia.
Qed.

Lemma halving_loop_spec n : ∀ filters c,
  (c <= pow2 (S n))%Q →
  ∃ k c', (k ≤ n)%nat ∧
    (∀ fuel, (n < fuel)%nat →
       halving_loop fuel filters c = Some (filters ++ replicate k atempo_2, c')) ∧
    (c' * pow2 k == c)%Q ∧ (c' <= 2)%Q ∧ ((0 < k)%nat → (1 < c')%Q).
Proof.
  assert (Hstop : ∀ filters c m, (c <= 2)%Q →
    ∃ k c', (k ≤ m)%nat ∧
    (∀ fuel, (m < fuel)%nat →
       halving_loop fuel filters c = Some (filters ++ replicate k atempo_2, c')) ∧
    (c' * pow2 k == c)%Q ∧ (c' <= 2)%Q ∧ ((0 < k)%nat → (1 < c')%Q)).
  { intros filters c m Hc. exists 0%nat, c. split; [lia|]. split; [|split; [|split]].
    - intros [|fuel] Hf; [lia|]. cbn [halving_loop].
      apply Qltb_ge in Hc. rewrite Hc. by rewrite app_nil_r.
    - change (pow2 0) with 1%Q. lra.
    - done.
    - lia. }
  induction n as [|n IH]; intros filters c Hc.
  - apply Hstop. by change (pow2 1) with 2%Q in Hc.
  - destruct (Qlt_le_dec 2 c) as [Hgt|Hle]; [|by apply Hstop].
    destruct (IH (filters ++ [atempo_2]) (c / 2)%Q) as (k & c' & Hk & Hrun & Heq & Hle & Hlt).
    { rewrite pow2_S in Hc. rewrite half. lra. }
    exists (S k), c'. split; [lia|]. split; [|split; [|split]].
    + intros [|fuel] Hf; [lia|]. cbn [halving_loop].
      apply Qltb_lt in Hgt. rewrite Hgt.
      rewrite Hrun by lia. by rewrite <- app_assoc.
    + rewrite pow2_S. rewrite half in Heq. lra.
    + done.
    + intros _. destruct k as [|k]; [|apply Hlt; lia].
      change (pow2 0) with 1%Q in Heq. rewrite half in Heq. lra.
Qed.

Lemma doubling_loop_spec n : ∀ filters c,
  (1 <= c * pow2 (S n))%Q →
  ∃ k c', (k ≤ n)%nat ∧
    (∀ fuel, (n < fuel)%nat →
       doubling_loop fuel filters c = Some (filters ++ replicate k atempo_half, c')) ∧
    (c' == c * pow2 k)%Q ∧ ((1 # 2) <= c')%Q ∧ ((0 < k)%nat → (c' < 1)%Q).
Proof.
  assert (Hstop : ∀ filters c m, ((1 # 2) <= c)%Q →
    ∃ k c', (k ≤ m)%nat ∧
    (∀ fuel, (m < fuel)%nat →
       doubling_loop fuel filters c = Some (filters ++ replicate k atempo_half, c')) ∧
    (c' == c * pow2 k)%Q ∧ ((1 # 2) <= c')%Q ∧ ((0 < k)%nat → (c' < 1)%Q)).
  { intros filters c m Hc. exists 0%nat, c. split; [lia|]. split; [|split; [|split]].
    - intros [|fuel] Hf; [lia|]. cbn [doubling_loop].
      apply Qltb_ge in Hc. rewrite Hc. by rewrite app_nil_r.
    - change (pow2 0) with 1%Q. lra.
    - done.
    - lia. }
  induction n as [|n IH]; intros filters c Hc.
  - apply Hstop. change (pow2 1) with 2%Q in Hc. lra.
  - destruct (Qlt_le_dec c (1 # 2)) as [Hlt|Hge]; [|by apply Hstop].
    destruct (IH (filters ++ [atempo_half]) (c * 2)%Q) as (k & c' & Hk & Hrun & Heq & Hge & Hone).
    { rewrite pow2_S in Hc. lra. }
    exists (S k), c'. split; [lia|]. split; [|split; [|split]].
    + intros [|fuel] Hf; [lia|]. cbn [doubling_loop].
      apply Qltb_lt in Hlt. rewrite Hlt.
      rewrite Hrun by lia. by rewrite <- app_assoc.
    + rewrite pow2_S. lra.
    + done.
    + intros _. destruct k as [|k]; [|apply Hone; lia].
      change (pow2 0) with 1%Q in Heq. lra.
Qed.


Lemma changeSpeed_filters_spec r :
  (0 < r)%Q →
  ∃ k j c, (k = 0 ∨ j = 0)%nat ∧
    (∃ N, ∀ fuel, (N ≤ fuel)%nat →
       changeSpeed_filters fuel r =
         Some (replicate k atempo_2 ++ replicate j atempo_half ++ [atempo c])) ∧
    (c * pow2 k == r * pow2 j)%Q ∧
    ((1 # 2) <= c)%Q ∧ (c <= 2)%Q ∧
    ((0 < k)%nat → (1 < c)%Q) ∧ ((0 < j)%nat → (c < 1)%Q).
Proof.
  intros Hr.
  destruct (below_pow2 r) as [n1 Hn1].
  destruct (halving_loop_spec n1 [] r Hn1) as (k & c1 & _ & Hrun1 & Heq1 & Hle1 & Hgt1).
  assert (Hc1 : (0 < c1)%Q).
  { pose proof (pow2_pos k) as Hp.
    destruct (Qlt_le_dec 0 c1) as [|Hneg]; [done|]. exfalso.
    assert (c1 * pow2 k <= 0)%Q by nra. lra. }
  destruct (above_pow2 c1 Hc1) as [n2 Hn2].
  destruct (doubling_loop_spec n2 (replicate k atempo_2) c1 Hn2)
    as (j & c & _ & Hrun2 & Heq2 & Hge2 & Hlt2).
  assert (Hkj : (k = 0 ∨ j = 0)%nat).
  { destruct k as [|k]; [by left|]. right.
    destruct j as [|j]; [done|]. exfalso.
    assert (1 < c1)%Q by (apply Hgt1; lia).
    destruct (doubling_loop_spec 0 (replicate (S k) atempo_2) c1)
      as (j' & c' & Hj' & Hrun' & _).
    { change (pow2 1) with 2%Q. lra. }
    specialize (Hrun' (S (n2 `max` 0)) ltac:(lia)).
    specialize (Hrun2 (S (n2 `max` 0)) ltac:(lia)).
    rewrite Hrun2 in Hrun'. injection Hrun' as Hl _.
    apply app_inv_head in Hl. apply (f_equal length) in Hl.
    cbn [length] in Hl. rewrite !length_replicate in Hl. lia. }
  exists k, j, c. split; [done|]. split; [|split; [|split; [|split; [|split]]]].
  - exists (S (n1 `max` n2)). intros fuel Hf. unfold changeSpeed_filters.
    rewrite Hrun1 by lia. cbn [mbind option_bind app].
    rewrite Hrun2 by lia. cbn [mbind option_bind]. by rewrite <- app_assoc.
  - rewrite Heq2, <- Heq1. ring.
  - done.
  - destruct Hkj as [->| ->].
    + destruct j as [|j].
      * change (pow2 0) with 1%Q in Heq1, Heq2. lra.
      * assert (c < 1)%Q by (apply Hlt2; lia). lra.
    + change (pow2 0) with 1%Q in Heq2. lra.
  - intros Hk. destruct Hkj as [->| ->]; [lia|].
    change (pow2 0) with 1%Q in Heq2. specialize (Hgt1 Hk). lra.
  - done.
Qed.








Lemma stage_count_spec r k j c :
  (k = 0 ∨ j = 0)%nat →
  (c * pow2 k == r * pow2 j)%Q →
  ((1 # 2) <= c)%Q → (c <= 2)%Q →
  ((0 < k)%nat → (1 < c)%Q) → ((0 < j)%nat → (c < 1)%Q) →
  stage_count r (k + (j + 1)).
Proof.
  intros Hkj Heq Hge Hle Hk Hj. unfold stage_count.
  destruct Hkj as [->| ->].
  - destruct j as [|j].
    + left. change (pow2 0) with 1%Q in Heq. split; [done|]. split; lra.
    + right. right. specialize (Hj ltac:(lia)).
      change (pow2 0) with 1%Q in Heq.
      replace (0 + (S j + 1) - 1)%nat with (S j) by lia.
      replace (0 + (S j + 1))%nat with (S (S j)) by lia.
      rewrite (pow2_S (S j)). split; [lia|]. split; lra.
  - destruct k as [|k].
    + left. change (pow2 0) with 1%Q in Heq. split; [done|]. split; lra.
    + right. left. specialize (Hk ltac:(lia)).
      change (pow2 0) with 1%Q in Heq.
      replace (S k + (0 + 1) - 1)%nat with (S k) by lia.
      replace (S k + (0 + 1))%nat with (S (S k)) by lia.
      rewrite (pow2_S (S k)). pose proof (pow2_pos (S k)).
      split; [lia|]. split; nra.
Qed.

(** ** The loops on the array *)

Lemma halving_loop_length fuel : ∀ filters c fs c',
  halving_loop fuel filters c = Some (fs, c') → (length filters ≤ length fs)%nat.
Proof.
  induction fuel as [|fuel IH]; intros filters c fs c'; [done|]. cbn [halving_loop].
  destruct (Qltb 2 c).
  - intros H%IH. rewrite length_app in H. cbn [length] in H. lia.
  - by intros [= <- <-].
Qed.

Lemma doubling_loop_length fuel : ∀ filters c fs c',
  doubling_loop fuel filters c = Some (fs, c') → (length filters ≤ length fs)%nat.
Proof.
  induction fuel as [|fuel IH]; intros filters c fs c'; [done|]. cbn [doubling_loop].
  destruct (Qltb c (1 # 2)).
  - intros H%IH. rewrite length_app in H. cbn [length] in H. lia.
  - by intros [= <- <-].
Qed.

Lemma push_spec filters stage :
  push filters stage
  = if (N.of_nat (length (filters ++ [stage])) <=? max_array_length)%N
    then inr (filters ++ [stage]) else inl "Invalid array length".
Proof.
  unfold push. rewrite length_app. cbn [length].
  destruct (N.ltb_spec (N.of_nat (length filters)) max_array_length),
           (N.leb_spec (N.of_nat (length filters + 1)) max_array_length);
    done || lia.
Qed.

(** As long as the stages fit into an array, the loops on the array do what
    the loops above do; otherwise they are left by the exception of a
    [push]. *)
Lemma halving_loop_array_spec fuel : ∀ filters c fs c',
  (N.of_nat (length filters) <= max_array_length)%N →
  halving_loop fuel filters c = Some (fs, c') →
  halving_loop_array fuel filters c
  = Some (if (N.of_nat (length fs) <=? max_array_length)%N
          then inr (fs, c') else inl "Invalid array length").
Proof.
  induction fuel as [|fuel IH]; intros filters c fs c' Hlen; [done|].
  cbn [halving_loop halving_loop_array]. destruct (Qltb 2 c).
  - intros Hrun. rewrite push_spec.
    destruct (N.leb_spec (N.of_nat (length (filters ++ [atempo_2]))) max_array_length)
      as [Hfit|Hfull].
    + by apply IH.
    + apply halving_loop_length in Hrun.
      destruct (N.leb_spec (N.of_nat (length fs)) max_array_length); [lia|done].
  - intros [= <- <-].
    destruct (N.leb_spec (N.of_nat (length filters)) max_array_length); [done|lia].
Qed.

Lemma doubling_loop_array_spec fuel : ∀ filters c fs c',
  (N.of_nat (length filters) <= max_array_length)%N →
  doubling_loop fuel filters c = Some (fs, c') →
  doubling_loop_array fuel filters c
  = Some (if (N.of_nat (length fs) <=? max_array_length)%N
          then inr (fs, c') else inl "Invalid array length").
Proof.
  induction fuel as [|fuel IH]; intros filters c fs c' Hlen; [done|].
  cbn [doubling_loop doubling_loop_array]. destruct (Qltb c (1 # 2)).
  - intros Hrun. rewrite push_spec.
    destruct (N.leb_spec (N.of_nat (length (filters ++ [atempo_half]))) max_array_length)
      as [Hfit|Hfull].
    + by apply IH.
    + apply doubling_loop_length in Hrun.
      destruct (N.leb_spec (N.of_nat (length fs)) max_array_length); [lia|done].
  - intros [= <- <-].
    destruct (N.leb_spec (N.of_nat (length filters)) max_array_length); [done|lia].
Qed.

Lemma changeSpeed_array_spec fuel speed stages :
  changeSpeed_filters fuel speed = Some stages →
  changeSpeed_array fuel speed
  = Some (if (N.of_nat (length stages) <=? max_array_length)%N
          then inr stages else inl "Invalid array length").
Proof.
  unfold changeSpeed_filters, changeSpeed_array.
  destruct (halving_loop fuel [] speed) as [[fs1 c1]|] eqn:H1; [|done].
  cbn [mbind option_bind].
  destruct (doubling_loop fuel fs1 c1) as [[fs2 c2]|] eqn:H2; [|done].
  cbn [mbind option_bind]. intros [= <-].
  pose proof (doubling_loop_length _ _ _ _ _ H2) as Hle.
  assert (H0 : (N.of_nat (length (@nil Stage)) <= max_array_length)%N)
    by (cbn [length]; lia).
  rewrite (halving_loop_array_spec _ _ _ _ _ H0 H1).
  rewrite length_app. cbn [length].
  destruct (N.leb_spec (N.of_nat (length fs1)) max_array_length) as [Hfit1|Hfull1].
  - rewrite (doubling_loop_array_spec _ _ _ _ _ Hfit1 H2).
    destruct (N.leb_spec (N.of_nat (length fs2)) max_array_length) as [Hfit2|Hfull2].
    + rewrite push_spec, length_app. done.
    + destruct (N.leb_spec (N.of_nat (length fs2 + 1)) max_array_length); [lia|done].
  - destruct (N.leb_spec (N.of_nat (length fs2 + 1)) max_array_length); [lia|done].
Qed.

(** A speed that is not positive stays below 0.5 however often it is
    doubled: the loop goes on until the array is full. *)
Lemma doubling_loop_array_full n : ∀ fuel filters c,
  (c <= 0)%Q →
  (N.of_nat (length filters) + N.of_nat n = max_array_length)%N →
  (n < fuel)%nat →
  doubling_loop_array fuel filters c = Some (inl "Invalid array length").
Proof.
  induction n as [|n IH]; intros [|fuel] filters c Hc Hlen Hfuel; try lia;
    cbn [doubling_loop_array];
    (assert (Hlt : Qltb c (1 # 2) = true) by (apply Qltb_lt; lra)); rewrite Hlt;
    unfold push.
  - destruct (N.ltb_spec (N.of_nat (length filters)) max_array_length); [lia|done].
  - destruct (N.ltb_spec (N.of_nat (length filters)) max_array_length); [|lia].
    apply IH; [lra| |lia]. rewrite length_app. cbn [length]. lia.
Qed.

Lemma changeSpeed_array_not_positive r :
  (r <= 0)%Q →
  ∃ N, ∀ fuel, (N ≤ fuel)%nat →
    changeSpeed_array fuel r = Some (inl "Invalid array length").
Proof.
  intros Hr. set (n := N.to_nat max_array_length).
  assert (Hn : (N.of_nat (length (@nil Stage)) + N.of_nat n = max_array_length)%N).
  { unfold n. rewrite N2Nat.id. done. }
  clearbody n. exists (S n). intros [|fuel] Hfuel; [lia|].
  unfold changeSpeed_array. cbn [halving_loop_array].
  assert (Hge : Qltb 2 r = false) by (apply Qltb_ge; lra). rewrite Hge.
  rewrite (doubling_loop_array_full n (S fuel) [] r Hr Hn); [done|lia].
Qed.

(** C10, amended.  The loops of [changeSpeed] end for every ratio.  For
    [r > 0] they end by themselves and leave [stage_count r] stages,
    whenever that many fit into an array.  For [r <= 0] the condition of
    the doubling loop never turns false: the loop is left when [push]
    throws on the full array, the promise is rejected before ffmpeg is
    reached, and the IPC handler, which hands the ratio on unchecked,
    answers with the failure ['Invalid array length']. *)
Theorem changeSpeed_ends_for_every_speed :
  (∀ r, (0 < r)%Q →
     ∃ stages N,
       stage_count r (length stages) ∧
       ∀ fuel, (N ≤ fuel)%nat →
         changeSpeed_array fuel r
         = Some (if (N.of_nat (length stages) <=? max_array_length)%N
                 then inr stages else inl "Invalid array length")) ∧
  (∀ r, (r <= 0)%Q →
     ∃ N, ∀ fuel, (N ≤ fuel)%nat →
       changeSpeed_array fuel r = Some (inl "Invalid array length") ∧
       ∀ toString ora inputPath outputPath w,
         Main.audio_changeSpeed toString ora fuel inputPath outputPath r w
         = Some (Main.failure "Invalid array length", w)).
Proof.
  split.
  - intros r Hr.
    destruct (changeSpeed_filters_spec r Hr)
      as (k & j & c & Hkj & [N Hrun] & Heq & Hge & Hle & Hk & Hj).
    exists (replicate k atempo_2 ++ replicate j atempo_half ++ [atempo c]), N.
    split.
    + rewrite !length_app, !length_replicate. cbn [length].
      by apply (stage_count_spec r k j c).
    + intros fuel Hfuel. apply changeSpeed_array_spec. by apply Hrun.
  - intros r Hr. destruct (changeSpeed_array_not_positive r Hr) as [N Hrun].
    exists N. intros fuel Hfuel. specialize (Hrun fuel Hfuel).
    split; [done|]. intros toString ora inputPath outputPath w.
    unfold Main.audio_changeSpeed, changeSpeed. by rewrite Hrun.
Qed.

Lemma changeSpeed_ends_for_every_speed_witness :
  ((0 < 4)%Q ∧
   ∃ stages N,
     stage_count 4 (length stages) ∧
     ∀ fuel, (N ≤ fuel)%nat →
       changeSpeed_array fuel 4
       = Some (if (N.of_nat (length stages) <=? max_array_length)%N
               then inr stages else inl "Invalid array length")) ∧
  ((0 <= 0)%Q ∧
   ∃ N, ∀ fuel, (N ≤ fuel)%nat →
     changeSpeed_array fuel 0 = Some (inl "Invalid array length")).
Proof.
  assert (H4 : (0 < 4)%Q) by reflexivity.
  assert (H0 : (0 <= 0)%Q) by (vm_compute; discriminate).
  split.
  - split; [exact H4|]. exact (proj1 changeSpeed_ends_for_every_speed 4%Q H4).
  - split; [exact H0|].
    destruct (proj2 changeSpeed_ends_for_every_speed 0%Q H0) as [N HN].
    exists N. intros fuel Hfuel. exact (proj1 (HN fuel Hfuel)).
Defined.

(** C10 as stated fails: with the ratio 0 the doubling loop does exit, by
    the exception of [push], and the handler answers. *)
Lemma changeSpeed_at_zero_is_rejected :
  ∃ fuel,
    Main.audio_changeSpeed sample_toString (answers None) fuel
      "/rec/line_001_take_1.wav" "/rec/out.wav" 0 disk
    = Some (Main.failure "Invalid array length", disk).
Proof.
  assert (H0 : (0 <= 0)%Q) by (vm_compute; discriminate).
  destruct (changeSpeed_array_not_positive 0%Q H0) as [N Hrun].
  exists N. unfold Main.audio_changeSpeed, changeSpeed. by rewrite Hrun.
Qed.

End SpeedFacts.

(* ================================================================== *)
(** * Part XV.  The selection pipeline                                  *)
(* ================================================================== *)

Module PipelineFacts.
Import Engine Store Props AudioProcessor Scenarios NumFacts StringFacts.

(** C8.  When the probed duration is [audioDuration], a deletion with
    [startTime <= 0] and [endTime >= audioDuration] makes the handler answer
    [{ success: false, error: 'Cannot delete entire audio' }]; the only call
    made is the probe, and no file is created. *)
Theorem delete_whole_track_is_rejected ora timestamp inputPath outputPath
    startTime endTime audioDuration w :
  ffprobe ora inputPath = inr audioDuration →
  (startTime <= 0)%Q → (audioDuration <= endTime)%Q →
  ∃ w', Main.audio_deleteSelection ora timestamp inputPath outputPath startTime endTime w
        = (Main.failure "Cannot delete entire audio", w') ∧
        files w' = files w ∧
        calls w' = calls w ++ [Probe inputPath].
Proof.
  intros Hprobe Hs%Qleb_le He%Qleb_le.
  exists (record (Probe inputPath) w).
  unfold Main.audio_deleteSelection, Main.handle, deleteSelection.
  unfold mbind, Promise_bind, getDuration. rewrite Hprobe, Hs, He. done.
Qed.


(** A [.wav] temporary is never the [.txt] list file of [concatenate]. *)
Lemma wav_is_not_txt a b : a +:+ ".wav" ≠ b +:+ ".txt".
Proof.
  intros Heq. apply (f_equal String.list_ascii_of_string) in Heq.
  rewrite !list_ascii_app in Heq. apply (f_equal last) in Heq.
  change (String.list_ascii_of_string ".wav")
    with (["."; "w"; "a"] ++ ["v"] : list ascii)%char in Heq.
  change (String.list_ascii_of_string ".txt")
    with (["."; "t"; "x"] ++ ["t"] : list ascii)%char in Heq.
  rewrite !app_assoc, !last_snoc in Heq. discriminate.
Qed.

Lemma temp_is_not_list dir name (timestamp : Z) outputPath :
  dir +:+ name +:+ pretty timestamp +:+ ".wav" ≠ outputPath +:+ ".txt".
Proof.
  replace (dir +:+ name +:+ pretty timestamp +:+ ".wav")
    with ((dir +:+ name +:+ pretty timestamp) +:+ ".wav").
  - apply wav_is_not_txt.
  - by rewrite !append_assoc.
Qed.

(** When the concatenation fails, [applyEffectToSelection] rejects before
    it reaches its clean-up lines: the four temporaries stay on disk. *)
Lemma applyEffectToSelection_leaks ora timestamp inputPath outputPath
    startTime endTime effectFilter audioDuration e w :
  ffprobe ora inputPath = inr audioDuration →
  (0 < startTime)%Q → (endTime < audioDuration)%Q →
  (∀ o s d, ffmpeg_trim ora inputPath o s d = None) →
  (∀ i o, ffmpeg_filter ora i effectFilter o = None) →
  (∀ l, ffmpeg_concat ora l outputPath = Some e) →
  ∃ e' w', Main.audio_applyEffectToSelection ora timestamp inputPath outputPath
             startTime endTime effectFilter w = (Main.failure e', w') ∧
           Forall (λ p, p ∈ files w') (temporaries timestamp outputPath).
Proof.
  intros Hprobe Hs%Qltb_lt He%Qltb_lt Htrim Hfilter Hconcat.
  unfold Main.audio_applyEffectToSelection, Main.handle, applyEffectToSelection.
  unfold mbind, Promise_bind, getDuration, trim, audioFilters, run_ffmpeg, mret,
    Promise_ret.
  rewrite Hprobe, Hs, He, !Htrim, Hfilter. cbn [app length Nat.eqb].
  unfold concatenate, mbind, Promise_bind, writeFile, unlink, throw.
  rewrite Hconcat.
  pose proof (temp_is_not_list (tempDir_of outputPath) "temp_before_" timestamp outputPath).
  pose proof (temp_is_not_list (tempDir_of outputPath) "temp_selection_" timestamp outputPath).
  pose proof (temp_is_not_list (tempDir_of outputPath) "temp_selection_processed_"
                timestamp outputPath).
  pose proof (temp_is_not_list (tempDir_of outputPath) "temp_after_" timestamp outputPath).
  destruct (fs_write ora _); [|destruct (fs_unlink ora _)];
    (eexists _, _; split; [reflexivity|]);
    unfold temporaries; cbn [files create record remove];
    rewrite !Forall_cons; (repeat split; [set_solver..|constructor]).
Qed.

(** The same for the middle branch of [deleteSelection]. *)
Lemma deleteSelection_leaks ora timestamp inputPath outputPath
    startTime endTime audioDuration e w :
  ffprobe ora inputPath = inr audioDuration →
  (0 < startTime)%Q → (endTime < audioDuration)%Q →
  (∀ o s d, ffmpeg_trim ora inputPath o s d = None) →
  (∀ l, ffmpeg_concat ora l outputPath = Some e) →
  ∃ e' w', Main.audio_deleteSelection ora timestamp inputPath outputPath
             startTime endTime w = (Main.failure e', w') ∧
           tempDir_of outputPath +:+ "temp_before_" +:+ pretty timestamp +:+ ".wav"
             ∈ files w' ∧
           tempDir_of outputPath +:+ "temp_after_" +:+ pretty timestamp +:+ ".wav"
             ∈ files w'.
Proof.
  intros Hprobe Hs%Qleb_gt He%Qleb_gt Htrim Hconcat.
  unfold Main.audio_deleteSelection, Main.handle, deleteSelection.
  unfold mbind, Promise_bind, getDuration, trim, run_ffmpeg, mret, Promise_ret.
  rewrite Hprobe, Hs, He, !Htrim. cbn [andb].
  unfold concatenate, mbind, Promise_bind, writeFile, unlink, throw.
  rewrite Hconcat.
  pose proof (temp_is_not_list (tempDir_of outputPath) "temp_before_" timestamp outputPath).
  pose proof (temp_is_not_list (tempDir_of outputPath) "temp_after_" timestamp outputPath).
  destruct (fs_write ora _); [|destruct (fs_unlink ora _)];
    (eexists _, _; split; [reflexivity|]);
    cbn [files create record remove]; split; set_solver.
Qed.


Lemma delete_whole_track_is_rejected_witness :
  ffprobe (answers None) "/rec/line_001_take_1.wav" = inr 10%Q ∧
  (0 <= 0)%Q ∧ (10 <= 10)%Q ∧
  ∃ w', Main.audio_deleteSelection (answers None) 17 "/rec/line_001_take_1.wav"
          "/rec/line_001_take_1_deleted_17.wav" 0 10 disk
        = (Main.failure "Cannot delete entire audio", w') ∧
        files w' = files disk ∧
        calls w' = calls disk ++ [Probe "/rec/line_001_take_1.wav"].
Proof.
  assert (H0 : (0 <= 0)%Q) by (vm_compute; discriminate).
  assert (H10 : (10 <= 10)%Q) by (vm_compute; discriminate).
  split; [reflexivity|]. split; [exact H0|]. split; [exact H10|].
  exact (delete_whole_track_is_rejected (answers None) 17 "/rec/line_001_take_1.wav"
           "/rec/line_001_take_1_deleted_17.wav" 0%Q 10%Q 10%Q disk eq_refl H0 H10).
Defined.

(** C3.  A 10 s file, the selection 3 s to 6 s, and a concatenation that
    fails: both operations answer with the failure and leave on disk the
    temporaries they had written; the only [unlink] either made is the one
    of [concatenate] for its own list file. *)
Theorem concat_failure_leaves_temporaries :
  let ora := answers (Some "ffmpeg exited with code 1") in
  let input := "/rec/line_001_take_1.wav" in
  let '(r1, w1) :=
    Main.audio_applyEffectToSelection ora 17 input "/rec/out_17.wav" 3 6
      "volume=6dB" disk in
  let '(r2, w2) := Main.audio_deleteSelection ora 17 input "/rec/out_17.wav" 3 6 disk in
  r1 = Main.failure "ffmpeg exited with code 1" ∧
  Forall (λ p, p ∈ files w1) (temporaries 17 "/rec/out_17.wav") ∧
  unlinked (calls w1) = ["/rec/out_17.wav.txt"] ∧
  r2 = Main.failure "ffmpeg exited with code 1" ∧
  "/rec/temp_before_17.wav" ∈ files w2 ∧ "/rec/temp_after_17.wav" ∈ files w2 ∧
  unlinked (calls w2) = ["/rec/out_17.wav.txt"].
Proof.
  vm_compute. repeat split; repeat constructor.
Qed.

(** C9.  A track of 10 s at offset 0 and the empty selection from 4 s to
    4 s: [applyEffect] hands it to the pipeline, which trims a piece of
    length 0, filters it and reports success.  The sibling
    [handleTrimToSelection] refuses the same selection.  A selection past
    the end of the track, 12 s to 15 s, reaches the pipeline as 12 s to
    10 s and is processed as well. *)
Theorem empty_selection_is_processed :
  let fx := Editor.applyEffect_selection (answers None) 17 track_1 in
  let input := "/rec/line_001_take_1.wav" in
  (fx 4%Q 4%Q "/rec/out_17.wav" "volume=6dB" disk).1 = Main.success "/rec/out_17.wav" ∧
  Trim input "/rec/temp_selection_17.wav" 4 0
    ∈ calls (fx 4%Q 4%Q "/rec/out_17.wav" "volume=6dB" disk).2 ∧
  AudioFilters "/rec/temp_selection_17.wav" "volume=6dB"
      "/rec/temp_selection_processed_17.wav"
    ∈ calls (fx 4%Q 4%Q "/rec/out_17.wav" "volume=6dB" disk).2 ∧
  Editor.handleTrimToSelection_args track_1 4 4 = inl "Invalid selection" ∧
  (fx 12%Q 15%Q "/rec/out_17.wav" "volume=6dB" disk).1 = Main.success "/rec/out_17.wav" ∧
  Trim input "/rec/temp_selection_17.wav" 12 (-2)
    ∈ calls (fx 12%Q 15%Q "/rec/out_17.wav" "volume=6dB" disk).2.
Proof.
  vm_compute. repeat split; repeat constructor.
Qed.

End PipelineFacts.

(* ================================================================== *)
(** * Part XVI.  Sessions of store actions                              *)
(* ================================================================== *)

Module StoreSessions.
Import Store Props Scenarios NumFacts HistoryFacts.

Lemma saveToHistory_set_view cp cb ip ct z sl tm s :
  history (saveToHistory (set_view cp cb ip ct z sl tm s)) = history (saveToHistory s) ∧
  historyIndex (saveToHistory (set_view cp cb ip ct z sl tm s))
    = historyIndex (saveToHistory s).
Proof.
  unfold saveToHistory, snapshot, set_view, set_history.
  cbn [history historyIndex tracks selectedTrackId selectedRegionStart selectedRegionEnd].
  split; by repeat case_match.
Qed.

(** Every action leaves the history alone, or handles it the way
    [saveToHistory] does, or is [undo], [redo] or [reset]. *)
Lemma run_history_cases a s :
  (history (run a s) = history s ∧ historyIndex (run a s) = historyIndex s) ∨
  (history (run a s) = history (saveToHistory s) ∧
   historyIndex (run a s) = historyIndex (saveToHistory s)) ∨
  run a s = undo s ∨ run a s = redo s ∨ run a s = initialState.
Proof.
  destruct a; cbn [run];
    try (left; split; reflexivity);
    try (right; left; split; reflexivity);
    try (right; right; left; reflexivity);
    try (right; right; right; left; reflexivity);
    try (right; right; right; right; reflexivity).
  - unfold copySelection. repeat case_match; left; split; reflexivity.
  - unfold cutSelection, deleteSelection, copySelection.
    repeat case_match; simplify_eq/=;
      (left; split; reflexivity) || (right; left; split; reflexivity)
      || (right; left; apply saveToHistory_set_view).
  - unfold deleteSelection.
    repeat case_match; (left; split; reflexivity) || (right; left; split; reflexivity).
  - unfold splitAtCursor.
    repeat case_match; (left; split; reflexivity) || (right; left; split; reflexivity).
  - unfold selectAll. repeat case_match; left; split; reflexivity.
Qed.

Lemma slice0_length {A} (e : Z) (l : list A) : (length (slice0 e l) ≤ length l)%nat.
Proof. unfold slice0. rewrite length_take. lia. Qed.

Lemma saveToHistory_history_inv s :
  history_inv s → history_inv (saveToHistory s).
Proof.
  intros Hs. right.
  destruct (saveToHistory_newest s) as (h & Hh & Hi).
  assert (Hlen : (length (history (saveToHistory s)) ≤ 50)%nat).
  { unfold saveToHistory.
    destruct (Nat.eqb_spec (length (history s)) 0) as [_|Hne];
      cbn [history set_history]; [cbn; lia|].
    pose proof (slice0_length (historyIndex s + 1) (history s)) as Hsl.
    destruct (Nat.ltb_spec 50 (length (slice0 (historyIndex s + 1) (history s)
                                         ++ [snapshot s]))) as [Hlong|Hshort].
    - unfold shift. rewrite length_drop, length_app. cbn [length].
      destruct Hs as [[Hnil _]|[_ Hle]]; [by rewrite Hnil in Hne|lia].
    - lia. }
  split; [|done]. rewrite Hi, Hh, length_app. cbn [length]. lia.
Qed.

Lemma undo_history_inv s : history_inv s → history_inv (undo s).
Proof.
  intros Hs. unfold undo.
  destruct (Nat.eqb_spec (length (history s)) 0) as [|Hn]; [done|].
  destruct (Z.leb_spec (historyIndex s) 0) as [|Hpos]; [done|]. cbn [orb].
  destruct (at_index _ _); [|done].
  destruct Hs as [[Hnil _]|[Hr Hle]]; [by rewrite Hnil in Hn|].
  right. cbn [history historyIndex restore]. lia.
Qed.

Lemma redo_history_inv s : history_inv s → history_inv (redo s).
Proof.
  intros Hs. unfold redo.
  destruct (Z.ltb_spec (historyIndex s) (Z.of_nat (length (history s)) - 1)); [|done].
  destruct (at_index _ _); [|done].
  destruct Hs as [[Hnil Hi]|[Hr Hle]].
  - rewrite Hnil, Hi in *. cbn in *. lia.
  - right. cbn [history historyIndex restore]. lia.
Qed.

Lemma run_history_inv a s : history_inv s → history_inv (run a s).
Proof.
  intros Hs.
  destruct (run_history_cases a s) as [[Hh Hi]|[[Hh Hi]|[->|[->| ->]]]].
  - unfold history_inv. by rewrite Hh, Hi.
  - pose proof (saveToHistory_history_inv s Hs) as Hsave.
    unfold history_inv. by rewrite Hh, Hi.
  - by apply undo_history_inv.
  - by apply redo_history_inv.
  - by left.
Qed.

(** X1.  Whatever actions are called on a fresh store, in whatever order,
    the history is empty with the cursor at -1, or it holds at most 50
    snapshots and the cursor is on one of them. *)
Theorem history_stays_bounded acts :
  history_inv (run_all acts initialState).
Proof.
  unfold run_all.
  assert (H : ∀ s, history_inv s → history_inv (fold_left (λ s a, run a s) acts s)).
  { induction acts as [|a acts IH]; intros s Hs; cbn; [done|].
    apply IH. by apply run_history_inv. }
  apply H. by left.
Qed.

(** A property of the fresh store that every action keeps holds after
    every session. *)
Lemma reachable_ind (P : AudioEditorState → Prop) :
  P initialState → (∀ a s, P s → P (run a s)) →
  ∀ acts, P (run_all acts initialState).
Proof.
  intros H0 Hstep acts. unfold run_all.
  assert (H : ∀ s, P s → P (fold_left (λ s a, run a s) acts s)).
  { induction acts as [|a acts IH]; intros s Hs; cbn; [done|]. apply IH, Hstep, Hs. }
  by apply H.
Qed.

Ltac unfold_actions :=
  unfold addTrack, removeTrack, updateTrack, setTracks, clearTracks, selectTrack,
    setSelection, setCursorPosition, setIsPlaying, setCurrentTime, setDuration,
    setZoom, setScrollLeft, setToolMode, copySelection, cutSelection, pasteAtCursor,
    deleteSelection, splitAtCursor, selectAll, clearSelection, addEnvelopePoint,
    updateEnvelopePoint, removeEnvelopePoint, undo, redo, reset, saveToHistory in *.

Lemma run_view_inv a s : view_inv s → view_inv (run a s).
Proof.
  intros (Hz1 & Hz2 & Hc & Hs). unfold view_inv.
  destruct a; cbn [run]; unfold_actions; unfold copySelection;
    repeat case_match;
    cbn [zoom cursorPosition scrollLeft set_view set_tracks set_selectedTrackId
         set_region set_duration set_history restore initialState];
    unfold Math_max, Math_min;
    repeat split; try done;
    try apply Q.le_max_l; try (apply Q.max_lub; [done|apply Q.le_min_l]).
Qed.

(** X2.  Whatever actions are called on a fresh store, the zoom stays
    between 10 and 500, and the cursor and the scroll position never go
    below 0: the setters clamp, and nothing else writes these keys. *)
Theorem view_stays_clamped acts :
  view_inv (run_all acts initialState).
Proof.
  apply reachable_ind; [|apply run_view_inv].
  repeat split; cbn; lra.
Qed.

Lemma run_clipboard_ordered a s : clipboard_ordered s → clipboard_ordered (run a s).
Proof.
  unfold clipboard_ordered. intros Hc.
  destruct a; cbn [run]; unfold_actions; unfold copySelection;
    repeat case_match; simplify_eq/=; try done;
    unfold Math_max, Math_min; apply Q.min_le_iff; left; apply Q.le_max_l.
Qed.

(** X3.  Whatever actions are called on a fresh store, a clipboard that
    is there starts no later than it ends, also when the selection it was
    copied from was dragged from right to left. *)
Theorem clipboard_range_is_ordered acts :
  clipboard_ordered (run_all acts initialState).
Proof. apply reachable_ind; [done|apply run_clipboard_ordered]. Qed.

End StoreSessions.

(* ================================================================== *)
(** * Part XVII.  Undo and redo                                         *)
(* ================================================================== *)

Module UndoRedo.
Import Store Props Scenarios NumFacts HistoryFacts StoreSessions.

Lemma at_index_in_range {A} (l : list A) (i : Z) :
  0 ≤ i < Z.of_nat (length l) → ∃ x, at_index l i = Some x.
Proof.
  intros Hi. unfold at_index. destruct (Z.ltb_spec i 0); [lia|].
  apply lookup_lt_is_Some. lia.
Qed.

Lemma undo_step s :
  history_inv s → canUndo s = true →
  ∃ h, at_index (history s) (historyIndex s - 1) = Some h ∧
       undo s = restore h (historyIndex s - 1) s.
Proof.
  intros Hs Hcan. unfold canUndo in Hcan. apply Z.ltb_lt in Hcan.
  destruct Hs as [[_ Hi]|[Hr _]]; [lia|].
  destruct (at_index_in_range (history s) (historyIndex s - 1)) as [h Hh]; [lia|].
  exists h. split; [done|]. unfold undo. rewrite Hh.
  destruct (Nat.eqb_spec (length (history s)) 0) as [Hz|_]; [lia|].
  destruct (Z.leb_spec (historyIndex s) 0); [lia|]. done.
Qed.

Lemma redo_step s :
  history_inv s → canRedo s = true →
  ∃ h, at_index (history s) (historyIndex s + 1) = Some h ∧
       redo s = restore h (historyIndex s + 1) s.
Proof.
  intros Hs Hcan. unfold canRedo in Hcan. pose proof Hcan as Hlt. apply Z.ltb_lt in Hlt.
  assert (Hr : 0 ≤ historyIndex s + 1 < Z.of_nat (length (history s))).
  { destruct Hs as [[Hnil Hi]|[Hr _]]; [rewrite Hnil in Hlt; cbn in Hlt|]; lia. }
  destruct (at_index_in_range (history s) (historyIndex s + 1) Hr) as [h Hh].
  exists h. split; [done|]. unfold redo. by rewrite Hcan, Hh.
Qed.

(** X4.  On a store whose history is well formed, [canUndo] and [canRedo]
    tell what [undo] and [redo] do: when they answer false the action
    changes nothing; when they answer true the action keeps the list of
    snapshots, moves the cursor by one and shows the snapshot at the new
    cursor. *)
Theorem canUndo_canRedo_are_accurate s :
  history_inv s →
  (canUndo s = false → undo s = s) ∧
  (canRedo s = false → redo s = s) ∧
  (canUndo s = true →
     history (undo s) = history s ∧ historyIndex (undo s) = historyIndex s - 1 ∧
     at_index (history s) (historyIndex s - 1) = Some (live (undo s))) ∧
  (canRedo s = true →
     history (redo s) = history s ∧ historyIndex (redo s) = historyIndex s + 1 ∧
     at_index (history s) (historyIndex s + 1) = Some (live (redo s))).
Proof.
  intros Hs. split; [|split; [|split]].
  - unfold canUndo, undo. intros Hcan. apply Z.ltb_ge in Hcan.
    destruct (Z.leb_spec (historyIndex s) 0); [|lia]. by rewrite orb_true_r.
  - unfold canRedo, redo. by intros ->.
  - intros Hcan. destruct (undo_step s Hs Hcan) as (h & Hh & ->).
    rewrite Hh. by destruct h.
  - intros Hcan. destruct (redo_step s Hs Hcan) as (h & Hh & ->).
    rewrite Hh. by destruct h.
Qed.

Lemma after_B_history_inv : history_inv after_B.
Proof.
  right. split; [split; [discriminate|reflexivity]|].
  apply Nat.leb_le. reflexivity.
Defined.

Lemma canUndo_canRedo_are_accurate_witness :
  history_inv after_B ∧ canUndo after_B = true ∧ canRedo after_B = false ∧
  historyIndex (undo after_B) = 0 ∧ redo after_B = after_B.
Proof.
  destruct (canUndo_canRedo_are_accurate after_B after_B_history_inv)
    as (_ & Hr & Hu & _).
  split; [exact after_B_history_inv|]. split; [reflexivity|]. split; [reflexivity|].
  split; [exact (proj1 (proj2 (Hu eq_refl)))|exact (Hr eq_refl)].
Defined.

(** X5.  On a store whose history is well formed, [redo] after a possible
    [undo] brings the cursor back and shows the snapshot stored under it
    (not the state that was on screen before, which was never stored), and
    one more [undo] gives the same state as the first; likewise [undo]
    after a possible [redo]. *)
Theorem undo_redo_round_trip s :
  history_inv s →
  (canUndo s = true →
     historyIndex (redo (undo s)) = historyIndex s ∧
     at_index (history s) (historyIndex s) = Some (live (redo (undo s))) ∧
     undo (redo (undo s)) = undo s) ∧
  (canRedo s = true →
     historyIndex (undo (redo s)) = historyIndex s ∧
     at_index (history s) (historyIndex s) = Some (live (undo (redo s))) ∧
     redo (undo (redo s)) = redo s).
Proof.
  intros Hs. split; intros Hcan.
  - destruct (undo_step s Hs Hcan) as (h & Hh & Hu).
    pose proof (undo_history_inv s Hs) as Hs1.
    assert (Hcan1 : canRedo (undo s) = true).
    { rewrite Hu. unfold canRedo. cbn [history historyIndex restore].
      apply Z.ltb_lt. unfold canUndo in Hcan. apply Z.ltb_lt in Hcan.
      destruct Hs as [[_ Hi]|[Hr _]]; lia. }
    destruct (redo_step (undo s) Hs1 Hcan1) as (h1 & Hh1 & Hr).
    rewrite Hu in Hh1. cbn [history historyIndex restore] in Hh1.
    replace (historyIndex s - 1 + 1) with (historyIndex s) in Hh1 by lia.
    assert (Hidx : historyIndex (redo (undo s)) = historyIndex s).
    { rewrite Hr, Hu. cbn [historyIndex restore]. lia. }
    split; [done|]. split.
    + rewrite Hh1, Hr. by destruct h1.
    + pose proof (redo_history_inv _ Hs1) as Hs2.
      assert (Hcan2 : canUndo (redo (undo s)) = true).
      { unfold canUndo. rewrite Hidx. exact Hcan. }
      destruct (undo_step _ Hs2 Hcan2) as (h2 & Hh2 & Hu2).
      rewrite Hu2. rewrite Hidx in *.
      assert (Hhist : history (redo (undo s)) = history s) by (by rewrite Hr, Hu).
      rewrite Hhist, Hh in Hh2. injection Hh2 as <-.
      rewrite Hr, Hu. reflexivity.
  - destruct (redo_step s Hs Hcan) as (h & Hh & Hr).
    pose proof (redo_history_inv s Hs) as Hs1.
    assert (Hcan1 : canUndo (redo s) = true).
    { rewrite Hr. unfold canUndo. cbn [history historyIndex restore].
      apply Z.ltb_lt. unfold canRedo in Hcan. apply Z.ltb_lt in Hcan.
      destruct Hs as [[Hnil Hi]|[Hr' _]]; [rewrite Hnil in Hcan; cbn in Hcan|]; lia. }
    destruct (undo_step (redo s) Hs1 Hcan1) as (h1 & Hh1 & Hu).
    rewrite Hr in Hh1. cbn [history historyIndex restore] in Hh1.
    replace (historyIndex s + 1 - 1) with (historyIndex s) in Hh1 by lia.
    assert (Hidx : historyIndex (undo (redo s)) = historyIndex s).
    { rewrite Hu, Hr. cbn [historyIndex restore]. lia. }
    split; [done|]. split.
    + rewrite Hh1, Hu. by destruct h1.
    + pose proof (undo_history_inv _ Hs1) as Hs2.
      assert (Hcan2 : canRedo (undo (redo s)) = true).
      { unfold canRedo. rewrite Hidx.
        assert (Hhist : history (undo (redo s)) = history s) by (by rewrite Hu, Hr).
        rewrite Hhist. exact Hcan. }
      destruct (redo_step _ Hs2 Hcan2) as (h2 & Hh2 & Hr2).
      rewrite Hr2. rewrite Hidx in *.
      assert (Hhist : history (undo (redo s)) = history s) by (by rewrite Hu, Hr).
      rewrite Hhist, Hh in Hh2. injection Hh2 as <-.
      rewrite Hu, Hr. reflexivity.
Qed.

Lemma undo_redo_round_trip_witness :
  history_inv after_B ∧ canUndo after_B = true ∧
  undo (redo (undo after_B)) = undo after_B.
Proof.
  split; [exact after_B_history_inv|]. split; [reflexivity|].
  exact (proj2 (proj2 (proj1 (undo_redo_round_trip after_B after_B_history_inv)
                         eq_refl))).
Defined.

(** X6.  On a store whose history is well formed, [saveToHistory] makes
    its snapshot the newest one: nothing can be redone afterwards, and
    below the cap the new history is the old one up to the cursor followed
    by the snapshot, the entries after the cursor being dropped. *)
Theorem saveToHistory_discards_redo s :
  history_inv s →
  canRedo (saveToHistory s) = false ∧
  redo (saveToHistory s) = saveToHistory s ∧
  (history s ≠ [] → historyIndex s + 1 < 50 →
     history (saveToHistory s)
       = take (Z.to_nat (historyIndex s + 1)) (history s) ++ [snapshot s]).
Proof.
  intros Hs.
  destruct (saveToHistory_newest s) as (h & Hh & Hi).
  assert (Hcan : canRedo (saveToHistory s) = false).
  { unfold canRedo. rewrite Hh, Hi, length_app. cbn [length]. apply Z.ltb_ge. lia. }
  split; [done|]. split.
  - unfold redo. unfold canRedo in Hcan. by rewrite Hcan.
  - intros Hne Hsmall. destruct Hs as [[Hnil _]|[Hr Hle]]; [done|].
    unfold saveToHistory.
    destruct (Nat.eqb_spec (length (history s)) 0) as [Hz|_].
    { apply length_zero_iff_nil in Hz. done. }
    cbn [history set_history]. unfold slice0.
    destruct (Z.ltb_spec (historyIndex s + 1) 0); [lia|].
    rewrite Z.min_l by lia.
    destruct (Nat.ltb_spec 50 (length (take (Z.to_nat (historyIndex s + 1)) (history s)
                                         ++ [snapshot s]))) as [Hlong|_]; [|done].
    rewrite length_app, length_take in Hlong. cbn [length] in Hlong. lia.
Qed.

Lemma saveToHistory_discards_redo_witness :
  history_inv (undo after_B) ∧ canRedo (undo after_B) = true ∧
  canRedo (saveToHistory (undo after_B)) = false.
Proof.
  assert (H : history_inv (undo after_B)).
  { right. split; [split; [discriminate|reflexivity]|].
    apply Nat.leb_le. reflexivity. }
  split; [exact H|]. split; [reflexivity|].
  exact (proj1 (saveToHistory_discards_redo (undo after_B) H)).
Defined.

End UndoRedo.

(* ================================================================== *)
(** * Part XVIII.  Tracks of the timeline                               *)
(* ================================================================== *)

Module TrackFacts.
Import Store Props Scenarios NumFacts HistoryFacts.

Lemma saveToHistory_tracks s : tracks (saveToHistory s) = tracks s.
Proof. unfold saveToHistory. by repeat case_match. Qed.

Lemma saveToHistory_timelineDuration s :
  timelineDuration (saveToHistory s) = timelineDuration s.
Proof. unfold saveToHistory. by repeat case_match. Qed.

Lemma saveToHistory_selectedTrackId s :
  selectedTrackId (saveToHistory s) = selectedTrackId s.
Proof. unfold saveToHistory. by repeat case_match. Qed.

(** The running maximum of [reduce] is above its start value and above the
    end of every track it has seen. *)
Lemma fold_max_bounds ts : ∀ init,
  let m := fold_left (λ max track, Math_max max (offset track + duration track)%Q) ts init in
  (init <= m)%Q ∧ ∀ t, t ∈ ts → (offset t + duration t <= m)%Q.
Proof.
  induction ts as [|u ts IH]; intros init; cbn.
  - split; [apply Qle_refl|]. intros t Ht. by apply not_elem_of_nil in Ht.
  - destruct (IH (Math_max init (offset u + duration u)%Q)) as [Hinit Hall].
    split.
    + eapply Qle_trans; [|exact Hinit]. apply Q.le_max_l.
    + intros t [->|Ht]%elem_of_cons; [|by apply Hall].
      eapply Qle_trans; [|exact Hinit]. apply Q.le_max_r.
Qed.

(** ... and it is that start value or the end of one of the tracks. *)
Lemma fold_max_attained ts : ∀ init,
  let m := fold_left (λ max track, Math_max max (offset track + duration track)%Q) ts init in
  (m == init)%Q ∨ ∃ t, t ∈ ts ∧ (m == offset t + duration t)%Q.
Proof.
  induction ts as [|u ts IH]; intros init; cbn.
  - by left.
  - destruct (IH (Math_max init (offset u + duration u)%Q)) as [Hm|(t & Ht & Hm)].
    + unfold Math_max in Hm.
      destruct (Q.max_spec init (offset u + duration u)%Q) as [[_ Hmax]|[_ Hmax]].
      * right. exists u. split; [apply list_elem_of_here|]. by rewrite Hm, Hmax.
      * left. by rewrite Hm, Hmax.
    + right. exists t. split; [by apply list_elem_of_further|done].
Qed.

(** X7.  [addTrack] appends one track and changes no other: it carries
    the take and the take's duration, has no regions and no envelope
    points, starts at or after the end of every track that was there, and
    the timeline afterwards is long enough to hold it and never shorter
    than before. *)
Theorem addTrack_appends_after_all newId take s :
  ∃ newTrack,
    tracks (addTrack newId take s) = tracks s ++ [newTrack] ∧
    id newTrack = newId ∧ track_take newTrack = take ∧
    duration newTrack = take_duration take ∧
    regions newTrack = [] ∧ envelopePoints newTrack = [] ∧
    (0 <= offset newTrack)%Q ∧
    (∀ t, t ∈ tracks s → (offset t + duration t <= offset newTrack)%Q) ∧
    (offset newTrack + duration newTrack <= timelineDuration (addTrack newId take s))%Q ∧
    (timelineDuration s <= timelineDuration (addTrack newId take s))%Q.
Proof.
  eexists. split.
  { unfold addTrack. cbn [tracks set_duration set_tracks]. by rewrite saveToHistory_tracks. }
  cbn [id track_take duration regions envelopePoints offset].
  destruct (fold_max_bounds (tracks s) 0%Q) as [H0 Hall].
  repeat split; try done.
  - unfold addTrack. cbn [timelineDuration set_duration]. apply Q.le_max_r.
  - unfold addTrack. cbn [timelineDuration set_duration].
    rewrite saveToHistory_timelineDuration. apply Q.le_max_l.
Qed.

(** X8.  After [setTracks] the timeline duration covers the end of every
    given track and is the end of one of them, or 0 (when there is none, or
    none ends after time 0). *)
Theorem setTracks_recomputes_duration ts s :
  tracks (setTracks ts s) = ts ∧
  (∀ t, t ∈ ts → (offset t + duration t <= timelineDuration (setTracks ts s))%Q) ∧
  ((timelineDuration (setTracks ts s) == 0)%Q ∨
   ∃ t, t ∈ ts ∧ (timelineDuration (setTracks ts s) == offset t + duration t)%Q).
Proof.
  split; [done|]. unfold setTracks. cbn [timelineDuration set_duration].
  split.
  - apply (fold_max_bounds ts 0%Q).
  - apply (fold_max_attained ts 0%Q).
Qed.

(** X9.  [removeTrack] keeps exactly the tracks with another identifier,
    in their order; the removed track is no longer the selected one, any
    other selected track stays selected, and the timeline duration is left
    as it was, not recomputed. *)
Theorem removeTrack_removes_only_that_track trackId s :
  let s' := removeTrack trackId s in
  (∀ t, t ∈ tracks s' ↔ t ∈ tracks s ∧ id t ≠ trackId) ∧
  tracks s' `sublist_of` tracks s ∧
  selectedTrackId s' ≠ Some trackId ∧
  (selectedTrackId s ≠ Some trackId → selectedTrackId s' = selectedTrackId s) ∧
  timelineDuration s' = timelineDuration s.
Proof.
  cbn zeta. unfold removeTrack.
  cbn [tracks selectedTrackId timelineDuration set_selectedTrackId set_tracks].
  rewrite saveToHistory_tracks, saveToHistory_selectedTrackId,
    saveToHistory_timelineDuration.
  split; [|split; [|split; [|split]]].
  - intros t. rewrite list_elem_of_filter. tauto.
  - apply sublist_filter.
  - destruct (selectedTrackId s) as [sel|]; [|done].
    destruct (String.eqb_spec sel trackId); congruence.
  - destruct (selectedTrackId s) as [sel|]; [|done].
    destruct (String.eqb_spec sel trackId); congruence.
  - done.
Qed.

End TrackFacts.

(* ================================================================== *)
(** * Part XIX.  Selection, clipboard and split markers                 *)
(* ================================================================== *)

Module SelectionFacts.
Import Store Props Scenarios NumFacts HistoryFacts TrackFacts.

Lemma map_unknown_id {f : AudioTrack → AudioTrack} trackId (ts : list AudioTrack) :
  (∀ t, t ∈ ts → id t ≠ trackId) →
  map (λ t, if String.eqb (id t) trackId then f t else t) ts = ts.
Proof.
  induction ts as [|t ts IH]; intros Hall; cbn; [done|].
  rewrite IH by (intros u Hu; apply Hall; by apply list_elem_of_further).
  destruct (String.eqb_spec (id t) trackId) as [Heq|_]; [|done].
  exfalso. by apply (Hall t); [apply list_elem_of_here|].
Qed.

(** X10.  An identifier that no track carries: [updateTrack] and
    [updateEnvelopePoint] leave the whole store as it is; [addEnvelopePoint],
    [removeEnvelopePoint] and [removeTrack] leave every track as it is (they
    still take their snapshot). *)
Theorem unknown_track_id_changes_no_track trackId s :
  (∀ t, t ∈ tracks s → id t ≠ trackId) →
  (∀ updates, updateTrack trackId updates s = s) ∧
  (∀ pointId updates, updateEnvelopePoint trackId pointId updates s = s) ∧
  (∀ newId time volume,
     tracks (addEnvelopePoint newId trackId time volume s) = tracks s) ∧
  (∀ pointId, tracks (removeEnvelopePoint trackId pointId s) = tracks s) ∧
  tracks (removeTrack trackId s) = tracks s.
Proof.
  intros Hall. split; [|split; [|split; [|split]]].
  - intros updates. unfold updateTrack. rewrite map_unknown_id by done. by destruct s.
  - intros pointId updates. unfold updateEnvelopePoint.
    rewrite map_unknown_id by done. by destruct s.
  - intros newId time volume. unfold addEnvelopePoint. cbn [tracks set_tracks].
    rewrite saveToHistory_tracks. by apply map_unknown_id.
  - intros pointId. unfold removeEnvelopePoint. cbn [tracks set_tracks].
    rewrite saveToHistory_tracks. by apply map_unknown_id.
  - unfold removeTrack. cbn [tracks set_tracks set_selectedTrackId].
    rewrite saveToHistory_tracks.
    induction (tracks s) as [|t ts IH]; [done|].
    rewrite filter_cons. rewrite decide_True.
    + f_equal. apply IH. intros u Hu. apply Hall. by apply list_elem_of_further.
    + apply Hall. apply list_elem_of_here.
Qed.

Lemma unknown_track_id_changes_no_track_witness :
  (∀ t, t ∈ tracks one_track → id t ≠ "track_2") ∧
  updateTrack "track_2" noTrackUpdates one_track = one_track ∧
  tracks (removeTrack "track_2" one_track) = tracks one_track.
Proof.
  assert (H : ∀ t, t ∈ tracks one_track → id t ≠ "track_2").
  { intros t Ht. apply list_elem_of_singleton in Ht. rewrite Ht. discriminate. }
  destruct (unknown_track_id_changes_no_track "track_2" one_track H)
    as (Hu & _ & _ & _ & Hr).
  split; [exact H|]. split; [exact (Hu noTrackUpdates)|exact Hr].
Defined.

(** X11.  With a track selected and a selection made, [cutSelection] puts
    the selection on the clipboard, from its earlier to its later end, with
    the track's identifier and file; it clears the selection, keeps the
    track selected, takes a snapshot of the state from before, and cuts
    nothing out of any track. *)
Theorem cutSelection_copies_then_clears sel a b track s :
  truthy_id (selectedTrackId s) = Some sel →
  selectedRegionStart s = Some a → selectedRegionEnd s = Some b →
  find (λ t, String.eqb (id t) sel) (tracks s) = Some track →
  let s' := cutSelection s in
  clipboard s' = Some {| startTime := Math_min a b; endTime := Math_max a b;
                         clip_trackId := id track;
                         clip_filePath := filePath (track_take track) |} ∧
  selectedRegionStart s' = None ∧ selectedRegionEnd s' = None ∧
  selectedTrackId s' = selectedTrackId s ∧
  tracks s' = tracks s ∧
  saved_before s s'.
Proof.
  intros Hsel Ha Hb Hfind. cbn zeta.
  unfold cutSelection, copySelection. rewrite Hsel, Ha, Hb, Hfind.
  unfold deleteSelection.
  cbn [selectedTrackId selectedRegionStart selectedRegionEnd set_view].
  rewrite Hsel, Ha, Hb.
  set (s1 := set_view _ _ _ _ _ _ _ s).
  assert (Hsnap : snapshot s1 = snapshot s) by done.
  assert (Hsave : history (saveToHistory s1) = history (saveToHistory s) ∧
                  historyIndex (saveToHistory s1) = historyIndex (saveToHistory s)).
  { unfold saveToHistory, s1, snapshot, set_view, set_history.
    cbn [history historyIndex tracks selectedTrackId selectedRegionStart
         selectedRegionEnd].
    split; by repeat case_match. }
  split; [|split; [|split; [|split; [|split]]]].
  - unfold saveToHistory. by repeat case_match.
  - done.
  - done.
  - unfold saveToHistory. by repeat case_match.
  - cbn [tracks set_region]. by rewrite saveToHistory_tracks.
  - destruct Hsave as [Hh Hi].
    eapply saved_before_keeps; [apply (saveToHistory_saved_before s)|..].
    + cbn [history set_region]. exact Hh.
    + cbn [historyIndex set_region]. exact Hi.
Qed.

Lemma cutSelection_copies_then_clears_witness :
  truthy_id (selectedTrackId selection_6_3) = Some "track_1" ∧
  clipboard (cutSelection selection_6_3)
    = Some {| startTime := Math_min 6 3; endTime := Math_max 6 3;
              clip_trackId := "track_1";
              clip_filePath := "/rec/line_001_take_1.wav" |} ∧
  selectedRegionStart (cutSelection selection_6_3) = None ∧
  tracks (cutSelection selection_6_3) = tracks selection_6_3.
Proof.
  pose proof (cutSelection_copies_then_clears "track_1" 6%Q 3%Q track_1 selection_6_3
                eq_refl eq_refl eq_refl eq_refl) as (Hc & Hs & _ & _ & Ht & _).
  split; [reflexivity|]. split; [exact Hc|]. split; [exact Hs|exact Ht].
Defined.

(** [selectAll] selects the selected track from its start to its end. *)
Lemma selectAll_spans_the_track sel track s :
  truthy_id (selectedTrackId s) = Some sel →
  find (λ t, String.eqb (id t) sel) (tracks s) = Some track →
  selectedRegionStart (selectAll s) = Some (offset track) ∧
  selectedRegionEnd (selectAll s) = Some (offset track + duration track)%Q ∧
  id track = sel ∧ track ∈ tracks s.
Proof.
  intros Hsel Hfind. unfold selectAll. rewrite Hsel, Hfind.
  split; [done|]. split; [done|].
  apply find_some in Hfind as [Hin Heq]. apply String.eqb_eq in Heq.
  split; [done|]. by apply list_elem_of_In.
Qed.

(** X12.  With a track selected, [splitAtCursor] does nothing at all when
    the cursor is outside the track; with the cursor inside, it takes a
    snapshot and appends one split marker to every track that carries the
    selected identifier, changing nothing else: the marker starts at the
    cursor's position measured from the track's start, never before it,
    and ends 0.01 s later. *)
Theorem splitAtCursor_marks_inside_the_track now sel track s :
  truthy_id (selectedTrackId s) = Some sel →
  find (λ t, String.eqb (id t) sel) (tracks s) = Some track →
  ((cursorPosition s < offset track)%Q ∨
   (offset track + duration track < cursorPosition s)%Q →
     splitAtCursor now s = s) ∧
  ((offset track <= cursorPosition s)%Q →
   (cursorPosition s <= offset track + duration track)%Q →
     ∃ marker,
       tracks (splitAtCursor now s) =
         map (λ t, if bool_decide (Some (id t) = selectedTrackId s)
                   then with_regions t (regions t ++ [marker]) else t) (tracks s) ∧
       region_start marker = (cursorPosition s - offset track)%Q ∧
       (0 <= region_start marker)%Q ∧
       region_end marker = (region_start marker + (1 # 100))%Q ∧
       saved_before s (splitAtCursor now s)).
Proof.
  intros Hsel Hfind. unfold splitAtCursor. rewrite Hsel, Hfind. split.
  - intros Hout.
    assert (Hc : Qleb (offset track) (cursorPosition s) &&
                 Qleb (cursorPosition s) (offset track + duration track)%Q = false).
    { destruct Hout as [H|H]; apply Qleb_gt in H; rewrite H; [done|].
      by rewrite andb_false_r. }
    by rewrite Hc.
  - intros Hlo Hhi. pose proof Hlo as Hlo'. pose proof Hhi as Hhi'.
    apply Qleb_le in Hlo', Hhi'. rewrite Hlo', Hhi'. cbn [andb negb].
    eexists. split.
    { cbn [tracks set_tracks].
      rewrite saveToHistory_tracks.
      replace (selectedTrackId (saveToHistory s)) with (selectedTrackId s)
        by (unfold saveToHistory; by repeat case_match).
      reflexivity. }
    cbn [region_start region_end]. split; [reflexivity|]. split; [lra|].
    split; [reflexivity|].
    eapply saved_before_keeps; [apply saveToHistory_saved_before|done|done].
Qed.

Lemma splitAtCursor_marks_inside_the_track_witness :
  truthy_id (selectedTrackId cursor_at_4) = Some "track_1" ∧
  find (λ t, String.eqb (id t) "track_1") (tracks cursor_at_4) = Some track_1 ∧
  ∃ marker,
    (0 <= region_start marker)%Q ∧
    saved_before cursor_at_4 (splitAtCursor 99 cursor_at_4).
Proof.
  assert (Hlo : (offset track_1 <= cursorPosition cursor_at_4)%Q)
    by (vm_compute; discriminate).
  assert (Hhi : (cursorPosition cursor_at_4 <= offset track_1 + duration track_1)%Q)
    by (vm_compute; discriminate).
  destruct (proj2 (splitAtCursor_marks_inside_the_track 99 "track_1" track_1
                     cursor_at_4 eq_refl eq_refl) Hlo Hhi)
    as (marker & _ & _ & H1 & _ & H2).
  split; [reflexivity|]. split; [reflexivity|].
  exists marker. split; [exact H1|exact H2].
Defined.

End SelectionFacts.

(* ================================================================== *)
(** * Part XX.  Edits of envelope points                                *)
(* ================================================================== *)

Module EnvelopeEdits.
Import Store Props Scenarios NumFacts HistoryFacts EnvelopeFacts TrackFacts.

(** X13.  [addEnvelopePoint] loses and duplicates nothing: in every track
    with the given identifier the points afterwards are the points from
    before and the new one, rearranged; nothing else of that track changes,
    and every other track is left as it is. *)
Theorem addEnvelopePoint_keeps_every_point newId trackId time volume s :
  let newPoint := {| point_id := newId; time := time; point_volume := volume |} in
  Forall2 (λ t t',
             if String.eqb (id t) trackId
             then envelopePoints t' ≡ₚ envelopePoints t ++ [newPoint] ∧
                  t' = with_envelopePoints t (envelopePoints t')
             else t' = t)
          (tracks s) (tracks (addEnvelopePoint newId trackId time volume s)).
Proof.
  cbn zeta. unfold addEnvelopePoint. cbn [tracks set_tracks].
  rewrite saveToHistory_tracks.
  apply Forall2_fmap_r, Forall_Forall2_diag, Forall_forall. intros t _. unfold compose.
  destruct (String.eqb (id t) trackId); [|done].
  split; [apply sort_by_time_perm|done].
Qed.

Lemma map_keeps_sorted (f : EnvelopePoint → EnvelopePoint) l :
  (∀ p, Store.time (f p) = Store.time p) → sorted_by_time l → sorted_by_time (map f l).
Proof.
  intros Hf. unfold sorted_by_time. induction 1 as [|p l Hl IH Hp]; cbn; [constructor|].
  constructor; [done|]. apply Forall_fmap. eapply Forall_impl; [exact Hp|].
  intros q Hq. cbn. by rewrite !Hf.
Qed.

(** X14.  When the points of every track are in order of time, moving a
    point up or down ([updateEnvelopePoint] with only a volume) changes
    the volume of the points with that identifier in place: the re-sort
    moves no point. *)
Theorem volume_update_keeps_the_order trackId pointId newVolume s :
  all_sorted s →
  tracks (updateEnvelopePoint trackId pointId
            (mkPointUpdates None None (Some newVolume)) s)
  = map (λ t,
           if String.eqb (id t) trackId
           then with_envelopePoints t
                  (map (λ p, if String.eqb (point_id p) pointId
                             then mkPoint (point_id p) (Store.time p) newVolume else p)
                       (envelopePoints t))
           else t)
        (tracks s).
Proof.
  intros Hs. unfold updateEnvelopePoint. cbn [tracks set_tracks].
  apply map_ext_in. intros t Ht.
  destruct (String.eqb (id t) trackId); [|done]. f_equal.
  unfold all_sorted in Hs. rewrite Forall_forall in Hs.
  specialize (Hs t ltac:(by apply list_elem_of_In)).
  rewrite sort_by_time_sorted_id.
  - apply map_ext. intros p. by destruct (String.eqb (point_id p) pointId).
  - apply map_keeps_sorted; [|done].
    intros p. by destruct (String.eqb (point_id p) pointId).
Qed.

Lemma volume_update_keeps_the_order_witness :
  all_sorted enveloped ∧
  tracks (updateEnvelopePoint "track_1" "point_2"
            (mkPointUpdates None None (Some (-3)%Q)) enveloped)
  = map (λ t,
           if String.eqb (id t) "track_1"
           then with_envelopePoints t
                  (map (λ p, if String.eqb (point_id p) "point_2"
                             then mkPoint (point_id p) (Store.time p) (-3) else p)
                       (envelopePoints t))
           else t)
        (tracks enveloped).
Proof.
  assert (Hs : all_sorted enveloped)
    by (repeat (constructor || (vm_compute; discriminate))).
  split; [exact Hs|].
  exact (volume_update_keeps_the_order "track_1" "point_2" (-3)%Q enveloped Hs).
Defined.

(** X15.  [removeEnvelopePoint] removes from the tracks with the given
    identifier exactly the points with the given point identifier, keeping
    the others in their order; nothing else of those tracks changes, and
    every other track is left as it is. *)
Theorem removeEnvelopePoint_removes_exactly trackId pointId s :
  Forall2 (λ t t',
             if String.eqb (id t) trackId
             then (∀ p, p ∈ envelopePoints t' ↔ p ∈ envelopePoints t ∧ point_id p ≠ pointId) ∧
                  envelopePoints t' `sublist_of` envelopePoints t ∧
                  t' = with_envelopePoints t (envelopePoints t')
             else t' = t)
          (tracks s) (tracks (removeEnvelopePoint trackId pointId s)).
Proof.
  unfold removeEnvelopePoint. cbn [tracks set_tracks].
  rewrite saveToHistory_tracks.
  apply Forall2_fmap_r, Forall_Forall2_diag, Forall_forall. intros t _. unfold compose.
  destruct (String.eqb (id t) trackId); [|done].
  cbn [envelopePoints with_envelopePoints].
  split; [|split; [apply sublist_filter|done]].
  intros p. rewrite list_elem_of_filter. tauto.
Qed.

End EnvelopeEdits.

(* ================================================================== *)
(** * Part XXI.  Runs of the pipeline that succeed, and edge cases      *)
(* ================================================================== *)

Module PipelineRuns.
Import Engine Store Props AudioProcessor Scenarios NumFacts StringFacts PipelineFacts.

Local Set Warnings "-clear-no-such-hyp".

Ltac step_promises :=
  unfold mbind, Promise_bind, mret, Promise_ret, trim, audioFilters, run_ffmpeg,
    getDuration, concatenate, copyFile, writeFile, unlink, throw in *.

Lemma append_longer a b : b ≠ "" → a +:+ b ≠ a.
Proof.
  intros Hb. induction a as [|x a IH]; [done|].
  rewrite append_cons. intros Heq. injection Heq as Heq. by apply IH.
Qed.

(** X16.  [concatenate] with no input is rejected with
    ['No input files provided'] and touches nothing.  With one input it runs
    no ffmpeg: it copies the file to the output path, which succeeds with
    the output path when the input exists and the copy does not fail, and
    is rejected, creating nothing, when the input does not exist. *)
Theorem concatenate_edge_cases ora outputPath w :
  concatenate ora [] outputPath w = (Rejected "No input files provided", w) ∧
  ∀ p, ∃ w',
    calls w' = calls w ++ [CopyFile p outputPath] ∧
    (p ∈ files w → fs_copy ora p outputPath = None →
       concatenate ora [p] outputPath w = (Resolved outputPath, w') ∧
       files w' = {[outputPath]} ∪ files w) ∧
    (p ∉ files w →
       ∃ e, concatenate ora [p] outputPath w = (Rejected e, w') ∧ files w' = files w).
Proof.
  split; [done|]. intros p. unfold concatenate. step_promises.
  cbn [files record].
  destruct (bool_decide (p ∈ files w)) eqn:Hin.
  - apply bool_decide_eq_true in Hin.
    destruct (fs_copy ora p outputPath) as [e|] eqn:Hcopy.
    + exists (record (CopyFile p outputPath) w).
      split; [done|]. split; [by intros _ ?|done].
    + exists (create outputPath (record (CopyFile p outputPath) w)).
      split; [done|]. split; [done|done].
  - apply bool_decide_eq_false in Hin.
    exists (record (CopyFile p outputPath) w).
    split; [done|]. split; [done|]. intros _. by eexists.
Qed.

(** X17.  [concatenate] with two inputs or more first writes its list file
    [outputPath + '.txt']: when that fails it rejects with the error of the
    write, and ffmpeg is not run.  Otherwise it runs ffmpeg once and then
    tries once to remove the list file, whether ffmpeg ended well or not;
    it resolves with the output path exactly when ffmpeg ended without
    error, whatever became of the removal.  The list file is gone when the
    removal worked and is still there when it failed.  Only the output and
    the list file can be new, and no other file is removed. *)
Theorem concatenate_tidies_its_list_file ora a b rest outputPath w :
  let inputPaths := a :: b :: rest in
  let listPath := outputPath +:+ ".txt" in
  let r := (concatenate ora inputPaths outputPath w).1 in
  let w' := (concatenate ora inputPaths outputPath w).2 in
  (∀ e, fs_write ora listPath = Some e →
     r = Rejected e ∧ files w' = files w ∧
     calls w' = calls w ++ [WriteFile listPath]) ∧
  (fs_write ora listPath = None →
     (r = Resolved outputPath ↔ ffmpeg_concat ora inputPaths outputPath = None) ∧
     calls w' = calls w ++ [WriteFile listPath; Concat inputPaths outputPath;
                            Unlink listPath] ∧
     (fs_unlink ora listPath = None → listPath ∉ files w') ∧
     (fs_unlink ora listPath ≠ None → listPath ∈ files w') ∧
     (r = Resolved outputPath → outputPath ∈ files w')) ∧
  files w' ⊆ {[outputPath; listPath]} ∪ files w ∧
  files w ∖ {[listPath]} ⊆ files w'.
Proof.
  cbn zeta. unfold concatenate. step_promises.
  pose proof (append_longer outputPath ".txt" ltac:(done)) as Hne.
  destruct (fs_write ora _) as [e1|];
    [|destruct (ffmpeg_concat ora (a :: b :: rest) outputPath) as [e2|],
               (fs_unlink ora _) as [e3|]];
    cbn [fst snd files calls create record remove];
    rewrite <- ?app_assoc; cbn [app].
  all: split; [intros e [= <-] || (intros e [=]); try done|].
  all: split; [(intros [=]) || (intros _; repeat split; try done; try set_solver)|].
  all: try (split; set_solver).
Qed.

(** X18.  Both selection operations start with the probe of the input's
    duration: when it fails, the handler answers with the probe's error,
    the probe is the only call made and no file is written or removed. *)
Theorem failed_probe_stops_the_pipeline ora timestamp inputPath outputPath
    startTime endTime effectFilter e w :
  ffprobe ora inputPath = inl e →
  Main.audio_deleteSelection ora timestamp inputPath outputPath startTime endTime w
    = (Main.failure e, record (Probe inputPath) w) ∧
  Main.audio_applyEffectToSelection ora timestamp inputPath outputPath
      startTime endTime effectFilter w
    = (Main.failure e, record (Probe inputPath) w).
Proof.
  intros Hprobe.
  unfold Main.audio_deleteSelection, Main.audio_applyEffectToSelection, Main.handle,
    deleteSelection, applyEffectToSelection.
  step_promises. by rewrite Hprobe.
Qed.

Lemma failed_probe_stops_the_pipeline_witness :
  ffprobe probe_fails "/rec/line_001_take_1.wav" = inl "ffprobe exited with code 1" ∧
  Main.audio_deleteSelection probe_fails 17 "/rec/line_001_take_1.wav"
      "/rec/out_17.wav" 3 6 disk
    = (Main.failure "ffprobe exited with code 1",
       record (Probe "/rec/line_001_take_1.wav") disk).
Proof.
  split; [reflexivity|].
  exact (proj1 (failed_probe_stops_the_pipeline probe_fails 17
                  "/rec/line_001_take_1.wav" "/rec/out_17.wav" 3%Q 6%Q "volume=6dB"
                  "ffprobe exited with code 1" disk eq_refl)).
Defined.

(** An [unlink] resolves whatever happens; it removes at most its file, and
    removes it when the removal works. *)
Lemma unlink_spec ora p w :
  ∃ F, unlink ora p w
       = (Resolved (), {| files := F; calls := calls w ++ [Unlink p] |}) ∧
       F ⊆ files w ∧ files w ∖ {[p]} ⊆ F ∧ (fs_unlink ora p = None → p ∉ F).
Proof.
  unfold unlink. destruct (fs_unlink ora p); eexists; (split; [reflexivity|]);
    cbn [files record remove]; set_solver.
Qed.

Tactic Notation "step_unlink" ident(F) ident(Hsub) ident(Hkeep) ident(Hgone) :=
  lazymatch goal with
  | |- context [unlink ?o ?p ?w0] =>
    destruct (unlink_spec o p w0) as (F & -> & Hsub & Hkeep & Hgone)
  end.

(** Membership along a chain of [unlink]s. *)
Ltac kept :=
  repeat (match goal with
          | Hk : ?A ∖ {[?t]} ⊆ ?F |- ?x ∈ ?F =>
            apply Hk, elem_of_difference; split; [|set_solver]
          end);
  set_solver.

Ltac back_along p :=
  repeat match goal with
         | Hs : ?F ⊆ ?G, H : p ∈ ?F |- _ =>
           lazymatch goal with
           | _ : p ∈ G |- _ => fail
           | _ => pose proof (Hs _ H)
           end
         end.

Ltac gone :=
  let Hn := fresh "Hn" in let Hin := fresh "Hin" in
  intros Hn Hin;
  match goal with
  | Hg : fs_unlink ?o ?t = None → ?t ∉ ?F |- _ =>
    apply Hg in Hn; back_along t; done
  end.

Ltac new_files :=
  let p := fresh "p" in let Hp := fresh "Hp" in
  intros p Hp; back_along p;
  match goal with
  | H : p ∈ _ ∪ _ |- _ =>
    set_unfold in H;
    repeat (destruct H as [->|H]);
    first [ by left
          | by (right; left)
          | right; right; (split; [set_solver|]);
            let Hn := fresh "Hn" in
            intros Hn;
            match goal with
            | Hg : fs_unlink ?o ?t = None → ?t ∉ ?F, Hn' : fs_unlink ?o ?t = None |- _ =>
              by apply Hg in Hn'
            end ]
  end.



(** X20.  When [applyEffectToSelection] resolves, it resolves with the
    output path, and the output exists (unless it has the name of a
    temporary).  Each of its four temporaries whose removal works is gone;
    a file that is there afterwards is the output, a file that was there
    before, or a temporary or the list file of [concatenate] whose removal
    failed: the failure of a removal is swallowed and does not keep the
    method from resolving.  With the selection strictly inside the audio,
    the three pieces cut by the [trim] calls add up to the probed duration;
    with a selection that covers the audio, no ffmpeg concatenation is run
    and the only piece cut has the length of the selection. *)
Theorem applyEffectToSelection_success ora timestamp inputPath outputPath
    startTime endTime effectFilter path w w' :
  applyEffectToSelection ora timestamp inputPath outputPath startTime endTime
    effectFilter w = (Resolved path, w') →
  path = outputPath ∧
  Forall (λ p, fs_unlink ora p = None → p ∉ files w')
         (temporaries timestamp outputPath) ∧
  (outputPath ∉ temporaries timestamp outputPath → outputPath ∈ files w') ∧
  (∀ p, p ∈ files w' →
     p = outputPath ∨ p ∈ files w ∨
     (p ∈ (outputPath +:+ ".txt") :: temporaries timestamp outputPath ∧
      fs_unlink ora p ≠ None)) ∧
  ∃ audioDuration new,
    ffprobe ora inputPath = inr audioDuration ∧
    calls w' = calls w ++ new ∧
    ((0 < startTime)%Q → (endTime < audioDuration)%Q →
       (trimmed_seconds new == audioDuration)%Q) ∧
    ((startTime <= 0)%Q → (audioDuration <= endTime)%Q →
       List.filter is_concat new = [] ∧
       (trimmed_seconds new == endTime - startTime)%Q).
Proof.
  unfold applyEffectToSelection, temporaries.
  cbv [mbind Promise_bind mret Promise_ret trim audioFilters run_ffmpeg getDuration
       concatenate copyFile writeFile throw].
  pose proof (append_longer outputPath ".txt" ltac:(done)) as Hne.
  rewrite !Forall_cons, !not_elem_of_cons.
  destruct (ffprobe ora inputPath) as [e|d] eqn:Hprobe; [done|].
  destruct (Qltb 0 startTime) eqn:Hs, (Qltb endTime d) eqn:He.
  - destruct (ffmpeg_trim ora inputPath _ 0 startTime); [done|].
    destruct (ffmpeg_trim ora inputPath _ startTime (endTime - startTime)); [done|].
    destruct (ffmpeg_filter ora _ effectFilter _); [done|].
    destruct (ffmpeg_trim ora inputPath _ endTime (d - endTime)); [done|].
    cbn [app length Nat.eqb]. destruct (fs_write ora _); [done|].
    destruct (ffmpeg_concat ora _ outputPath); [by step_unlink F0 Hs0 Hk0 Hg0|].
    step_unlink F0 Hs0 Hk0 Hg0. step_unlink Fa Hsa Hka Hga.
    step_unlink Fb Hsb Hkb Hgb. step_unlink Fc Hsc Hkc Hgc.
    step_unlink Fe Hse Hke Hge.
    intros [= <- <-]. cbn [files calls create record] in *.
    split; [done|]. split; [repeat split; first [gone | constructor]|]. split; [intros; kept|].
    split; [new_files|].
    eexists d, _. split; [done|]. split.
    { rewrite <- !app_assoc. cbn [app]. reflexivity. }
    apply Qltb_lt in Hs. apply Qltb_lt in He. split; intros; [cbn; lra|lra].
  - destruct (ffmpeg_trim ora inputPath _ 0 startTime); [done|].
    destruct (ffmpeg_trim ora inputPath _ startTime (endTime - startTime)); [done|].
    destruct (ffmpeg_filter ora _ effectFilter _); [done|].
    cbn [app length Nat.eqb]. destruct (fs_write ora _); [done|].
    destruct (ffmpeg_concat ora _ outputPath); [by step_unlink F0 Hs0 Hk0 Hg0|].
    step_unlink F0 Hs0 Hk0 Hg0. step_unlink Fa Hsa Hka Hga.
    step_unlink Fb Hsb Hkb Hgb. step_unlink Fc Hsc Hkc Hgc.
    step_unlink Fe Hse Hke Hge.
    intros [= <- <-]. cbn [files calls create record] in *.
    split; [done|]. split; [repeat split; first [gone | constructor]|]. split; [intros; kept|].
    split; [new_files|].
    eexists d, _. split; [done|]. split.
    { rewrite <- !app_assoc. cbn [app]. reflexivity. }
    apply Qltb_lt in Hs. apply Qltb_ge in He. split; intros; lra.
  - destruct (ffmpeg_trim ora inputPath _ startTime (endTime - startTime)); [done|].
    destruct (ffmpeg_filter ora _ effectFilter _); [done|].
    destruct (ffmpeg_trim ora inputPath _ endTime (d - endTime)); [done|].
    cbn [app length Nat.eqb]. destruct (fs_write ora _); [done|].
    destruct (ffmpeg_concat ora _ outputPath); [by step_unlink F0 Hs0 Hk0 Hg0|].
    step_unlink F0 Hs0 Hk0 Hg0. step_unlink Fa Hsa Hka Hga.
    step_unlink Fb Hsb Hkb Hgb. step_unlink Fc Hsc Hkc Hgc.
    step_unlink Fe Hse Hke Hge.
    intros [= <- <-]. cbn [files calls create record] in *.
    split; [done|]. split; [repeat split; first [gone | constructor]|]. split; [intros; kept|].
    split; [new_files|].
    eexists d, _. split; [done|]. split.
    { rewrite <- !app_assoc. cbn [app]. reflexivity. }
    apply Qltb_ge in Hs. apply Qltb_lt in He. split; intros; lra.
  - destruct (ffmpeg_trim ora inputPath _ startTime (endTime - startTime)); [done|].
    destruct (ffmpeg_filter ora _ effectFilter _); [done|].
    cbn [app length Nat.eqb files create record].
    rewrite bool_decide_eq_true_2 by set_solver.
    destruct (fs_copy ora _ outputPath); [done|].
    step_unlink Fa Hsa Hka Hga.
    step_unlink Fb Hsb Hkb Hgb. step_unlink Fc Hsc Hkc Hgc.
    step_unlink Fe Hse Hke Hge.
    intros [= <- <-]. cbn [files calls create record] in *.
    split; [done|]. split; [repeat split; first [gone | constructor]|]. split; [intros; kept|].
    split; [new_files|].
    eexists d, _. split; [done|]. split.
    { rewrite <- !app_assoc. cbn [app]. reflexivity. }
    apply Qltb_ge in Hs. apply Qltb_ge in He.
    split; [intros; lra|]. intros _ _. split; [reflexivity|]. cbn. lra.
Qed.

Lemma applyEffectToSelection_success_witness :
  applyEffectToSelection (answers None) 17 "/rec/line_001_take_1.wav"
      "/rec/out_17.wav" 3 6 "volume=6dB" disk
    = (Resolved "/rec/out_17.wav",
       (applyEffectToSelection (answers None) 17 "/rec/line_001_take_1.wav"
          "/rec/out_17.wav" 3 6 "volume=6dB" disk).2) ∧
  Forall (λ p, fs_unlink (answers None) p = None →
               p ∉ files (applyEffectToSelection (answers None) 17
                            "/rec/line_001_take_1.wav" "/rec/out_17.wav" 3 6
                            "volume=6dB" disk).2)
         (temporaries 17 "/rec/out_17.wav").
Proof.
  assert (H : applyEffectToSelection (answers None) 17 "/rec/line_001_take_1.wav"
                "/rec/out_17.wav" 3 6 "volume=6dB" disk
              = (Resolved "/rec/out_17.wav",
                 (applyEffectToSelection (answers None) 17 "/rec/line_001_take_1.wav"
                    "/rec/out_17.wav" 3 6 "volume=6dB" disk).2))
    by (vm_compute; reflexivity).
  split; [exact H|].
  exact (proj1 (proj2 (applyEffectToSelection_success _ _ _ _ _ _ _ _ _ _ H))).
Defined.

End PipelineRuns.

(* ================================================================== *)
(** * Part XXII.  Filter strings: envelope brackets and speed stages    *)
(* ================================================================== *)

Module FilterFacts.
Import Engine Store Props AudioProcessor Scenarios NumFacts StringFacts SpeedFacts
  ExprFacts.

(** X21.  With numbers printed without round brackets, the expression
    built for a volume envelope is correctly bracketed exactly when its
    first point lies after time 0; with a first point at time 0 or before,
    it has exactly one closing bracket more than opening ones, however many
    points follow. *)
Theorem envelope_expression_brackets toString dbToLinear p pts :
  (∀ q, bracket_free (toString q)) →
  (balanced (volumeExpr toString dbToLinear (p :: pts)) ↔ (0 < vp_time p)%Q) ∧
  ((vp_time p <= 0)%Q → excess (volumeExpr toString dbToLinear (p :: pts)) = -1).
Proof.
  intros Hfree. split.
  - by apply volumeExpr_balanced_iff.
  - intros Hp. rewrite excess_volumeExpr by done.
    apply Qltb_ge in Hp. by rewrite Hp.
Qed.

Lemma envelope_expression_brackets_witness :
  (∀ q, bracket_free (sample_toString q)) ∧
  balanced (volumeExpr sample_toString sample_dbToLinear late_ramp).
Proof.
  split; [exact sample_toString_bracket_free|].
  apply (proj1 (envelope_expression_brackets sample_toString sample_dbToLinear
                  (mkVolumePoint 1 0) [mkVolumePoint 2 (-12)]
                  sample_toString_bracket_free)).
  reflexivity.
Defined.



End FilterFacts.

(* ================================================================== *)
(** * Part XXIII.  The editor's handlers                                *)
(* ================================================================== *)

Module EditorFacts.
Import Engine Store Props AudioProcessor Scenarios NumFacts StringFacts HistoryFacts
  TrackFacts.
Import Editor.

(** X23.  The times the two handlers hand to the pipeline, when they hand
    any, lie inside the track.  [handleTrimToSelection] passes a start at
    or after 0 and a positive length, the distance from that start to an
    end inside the track; both lie inside the selection.
    [handleDeleteSelection] passes the two ends of the selection, measured
    from the track's start and not clamped: they are in order and between
    0 and the track's duration. *)
Theorem selection_arguments_stay_inside track a b :
  (∀ start trimDuration,
     handleTrimToSelection_args track a b = inr (start, trimDuration) →
     (0 <= start)%Q ∧ (0 < trimDuration)%Q ∧
     ∃ end_, trimDuration = (end_ - start)%Q ∧ (end_ <= duration track)%Q ∧
             (Qmin a b - offset track <= start)%Q ∧
             (end_ <= Qmax a b - offset track)%Q) ∧
  (∀ startTime endTime,
     handleDeleteSelection_args track a b = inr (startTime, endTime) →
     startTime = (Qmin a b - offset track)%Q ∧
     endTime = (Qmax a b - offset track)%Q ∧
     (0 <= startTime)%Q ∧ (startTime <= endTime)%Q ∧ (endTime <= duration track)%Q).
Proof.
  split.
  - intros start trimDuration. unfold handleTrimToSelection_args, Math_max, Math_min.
    destruct (Qleb _ 0) eqn:Hd; [done|]. intros [= <- <-]. apply Qleb_gt in Hd.
    split; [apply Q.le_max_l|]. split; [done|].
    eexists. split; [reflexivity|].
    split; [apply Q.le_min_l|]. split; [apply Q.le_max_r|apply Q.le_min_r].
  - intros startTime endTime. unfold handleDeleteSelection_args, Math_max, Math_min.
    destruct (Qltb _ 0) eqn:Hs; [done|].
    destruct (Qltb (duration track) _) eqn:He; [done|]. intros [= <- <-].
    apply Qltb_ge in Hs, He.
    pose proof (Q.le_min_l a b). pose proof (Q.le_max_l a b).
    repeat split; lra.
Qed.

(** X24.  Select all, then delete, on a track that starts at time 0 and
    whose file is no longer than the track says: the handler passes its
    bounds check and takes a snapshot, the pipeline refuses after its
    probe, and the user is shown ['Error: Cannot delete entire audio']; no
    track changes and the selection stays. *)
Theorem select_all_then_delete_is_rejected ora now timestamp sel track probed s w :
  truthy_id (selectedTrackId s) = Some sel →
  find (λ t, String.eqb (id t) sel) (tracks s) = Some track →
  (offset track == 0)%Q →
  (0 <= duration track)%Q →
  ffprobe ora (filePath (track_take track)) = inr probed →
  (probed <= duration track)%Q →
  handleDeleteSelection ora now timestamp (selectAll s) w
  = (ProcessingMessage "Error: Cannot delete entire audio",
     saveToHistory (selectAll s),
     record (Probe (filePath (track_take track))) w).
Proof.
  intros Hsel Hfind Hoff Hdur Hprobe Hprobed.
  unfold selectAll. rewrite Hsel, Hfind.
  unfold handleDeleteSelection.
  cbn [selectedTrackId selectedRegionStart selectedRegionEnd tracks set_region].
  rewrite Hsel, Hfind.
  unfold handleDeleteSelection_args, Math_min, Math_max.
  set (o := offset track) in *. set (d := duration track) in *.
  assert (Hmin : (Qmin o (o + d) == o)%Q) by (apply Q.min_l; lra).
  assert (Hmax : (Qmax o (o + d) == o + d)%Q) by (apply Q.max_r; lra).
  assert (Hs : Qltb (Qmin o (o + d) - o) 0 = false) by (apply Qltb_ge; lra).
  assert (He : Qltb d (Qmax o (o + d) - o) = false) by (apply Qltb_ge; lra).
  rewrite Hs, He. cbn [orb].
  unfold Main.audio_deleteSelection, Main.handle, deleteSelection.
  cbv [mbind Promise_bind getDuration throw]. rewrite Hprobe.
  assert (Hs' : Qleb (Qmin o (o + d) - o) 0 = true) by (apply Qleb_le; lra).
  assert (He' : Qleb probed (Qmax o (o + d) - o) = true) by (apply Qleb_le; lra).
  rewrite Hs', He'. reflexivity.
Qed.

Lemma select_all_then_delete_is_rejected_witness :
  ffprobe (answers None) (filePath (track_take track_1)) = inr 10%Q ∧
  (handleDeleteSelection (answers None) 99 17
     (selectAll (selectTrack (Some "track_1") one_track)) disk).1.1
  = ProcessingMessage "Error: Cannot delete entire audio".
Proof.
  assert (H0 : (0 <= duration track_1)%Q) by (vm_compute; discriminate).
  assert (H1 : (10 <= duration track_1)%Q) by (vm_compute; discriminate).
  split; [reflexivity|].
  exact (f_equal (λ r, r.1.1)
           (select_all_then_delete_is_rejected (answers None) 99 17 "track_1" track_1
              10%Q (selectTrack (Some "track_1") one_track) disk
              eq_refl eq_refl (Qeq_refl 0) H0 eq_refl H1)).
Defined.







(** X26.  Whenever one of the three handlers ends with anything but its
    success message (an alert, an error message, or silently), the tracks,
    the selected track and the selection are the ones from before. *)
Theorem failed_edit_changes_no_track ora now timestamp s w :
  (∀ fb s' w',
     handleDeleteSelection ora now timestamp s w = (fb, s', w') →
     fb ≠ ProcessingMessage "Selection deleted!" → live s' = live s) ∧
  (∀ fb s' w',
     handleTrimToSelection ora now s w = (fb, s', w') →
     fb ≠ ProcessingMessage "Trim successful!" → live s' = live s) ∧
  (∀ applyToSelection effectName slug effectFilter processFn fb s' w',
     applyEffect ora now timestamp applyToSelection effectName slug effectFilter
       processFn s w = (fb, s', w') →
     fb ≠ ProcessingMessage "Effect applied successfully!" → live s' = live s).
Proof.
  split; [|split].
  - intros fb s' w'. unfold handleDeleteSelection.
    repeat case_match; intros [= <- <- <-] Hfb; try done;
      apply saveToHistory_live.
  - intros fb s' w'. unfold handleTrimToSelection.
    repeat case_match; intros [= <- <- <-] Hfb; try done;
      apply saveToHistory_live.
  - intros applyToSelection effectName slug effectFilter processFn fb s' w'.
    unfold applyEffect.
    repeat case_match; intros [= <- <- <-] Hfb; try done;
      apply saveToHistory_live.
Qed.

Lemma insert_by_offset_perm t l : insert_by_offset t l ≡ₚ t :: l.
Proof.
  induction l as [|u l IH]; cbn; [done|].
  destruct (Qleb (offset t) (offset u)); [done|].
  rewrite IH. apply Permutation_swap.
Qed.

Lemma sort_by_offset_perm l : sort_by_offset l ≡ₚ l.
Proof.
  induction l as [|t l IH]; cbn; [done|]. by rewrite insert_by_offset_perm, IH.
Qed.

Lemma insert_by_offset_sorted t l :
  sorted_by_offset l → sorted_by_offset (insert_by_offset t l).
Proof.
  unfold sorted_by_offset.
  induction 1 as [|u l Hl IH Hu]; cbn.
  - repeat constructor.
  - destruct (Qleb (offset t) (offset u)) eqn:E.
    + apply Qleb_le in E. constructor; [by constructor|].
      constructor; [done|].
      eapply Forall_impl; [exact Hu|]. cbn. intros x Hx. by eapply Qle_trans.
    + apply Qleb_gt in E. constructor; [done|].
      rewrite insert_by_offset_perm. constructor; [by apply Qlt_le_weak|done].
Qed.

Lemma sort_by_offset_sorted l : sorted_by_offset (sort_by_offset l).
Proof.
  induction l as [|t l IH]; cbn; [constructor|]. by apply insert_by_offset_sorted.
Qed.

Lemma sort_by_offset_sorted_id l : sorted_by_offset l → sort_by_offset l = l.
Proof.
  unfold sorted_by_offset. induction 1 as [|t l Hl IH Ht]; cbn; [done|].
  rewrite IH. destruct l as [|u l']; [done|]. cbn.
  apply Forall_inv in Ht. apply Qleb_le in Ht. by rewrite Ht.
Qed.

(** X27.  The files [handleExport] hands to the concatenation are the
    files of all tracks, each once per track, in order of the tracks'
    offsets; tracks that are in that order already are exported in the
    order they have, tracks with equal offsets included. *)
Theorem export_follows_the_timeline ts :
  (∃ sorted, export_inputPaths ts = map (λ t, filePath (track_take t)) sorted ∧
             sorted ≡ₚ ts ∧ sorted_by_offset sorted) ∧
  (sorted_by_offset ts →
     export_inputPaths ts = map (λ t, filePath (track_take t)) ts).
Proof.
  split.
  - exists (sort_by_offset ts). split; [done|].
    split; [apply sort_by_offset_perm|apply sort_by_offset_sorted].
  - intros Hs. unfold export_inputPaths. by rewrite sort_by_offset_sorted_id.
Qed.

(** Where the pattern does not occur, [replace] returns the string as it
    is. *)
Lemma replace_first_absent pat rep s :
  occurs pat s = false → replace_first pat rep s = s.
Proof.
  induction s as [|c s IH]; cbn [occurs replace_first];
    intros [Hp Hs]%orb_false_elim; rewrite Hp; [done|].
  by rewrite IH.
Qed.

(** X28.  A take whose file path has no ['.wav'] in it is edited in
    place: the output path the handlers derive is the input path itself, so
    [handleTrimToSelection] asks for a trim that reads and writes the same
    file, and [applyEffect] on the whole track hands that one path to the
    effect as input and as output. *)
Theorem take_without_wav_is_edited_in_place ora now timestamp sel track s w :
  truthy_id (selectedTrackId s) = Some sel →
  find (λ t, String.eqb (id t) sel) (tracks s) = Some track →
  occurs ".wav" (filePath (track_take track)) = false →
  (∀ a b start trimDuration,
     selectedRegionStart s = Some a → selectedRegionEnd s = Some b →
     handleTrimToSelection_args track a b = inr (start, trimDuration) →
     calls (handleTrimToSelection ora now s w).2
     = calls w ++ [Trim (filePath (track_take track)) (filePath (track_take track))
                     start trimDuration]) ∧
  (∀ effectName slug effectFilter f,
     (applyEffect ora now timestamp false effectName slug effectFilter (Some f) s w).2
     = (f (filePath (track_take track)) (filePath (track_take track)) w).2).
Proof.
  intros Hsel Hfind Hwav. split.
  - intros a b start trimDuration Ha Hb Hargs.
    unfold handleTrimToSelection. rewrite Hsel, Ha, Hb, Hfind, Hargs.
    rewrite replace_first_absent by done.
    unfold Main.audio_trim, Main.handle, trim.
    cbv [mbind Promise_bind mret Promise_ret run_ffmpeg].
    destruct (ffmpeg_trim ora _ _ start trimDuration) as [e|]; [done|].
    by destruct (filePath (track_take track)).
  - intros effectName slug effectFilter f.
    unfold applyEffect. rewrite Hsel, Hfind.
    rewrite replace_first_absent by done.
    destruct (f _ _ w) as [[[|c path]|e] w1]; done.
Qed.

Lemma take_without_wav_is_edited_in_place_witness :
  occurs ".wav" "/rec/line_001_take_1.flac" = false ∧
  calls (applyEffect (answers None) 99 17 false "Fade In" "fade_in" ""
           (Some (λ i o, Main.audio_trim (answers None) i o 0 1)) flac_selected disk).2
  = [Trim "/rec/line_001_take_1.flac" "/rec/line_001_take_1.flac" 0 1].
Proof.
  split; [reflexivity|].
  exact (f_equal calls
           (proj2 (take_without_wav_is_edited_in_place (answers None) 99 17 "track_1"
                     track_flac flac_selected disk eq_refl eq_refl eq_refl)
                  "Fade In" "fade_in" ""
                  (λ i o, Main.audio_trim (answers None) i o 0 1))).
Defined.

End EditorFacts.

(* ================================================================== *)
(** * Part XXIV.  File names                                            *)
(* ================================================================== *)

Module FileNamingFacts.
Import FileNaming StringFacts.

Lemma all_chars_replaced s :
  all_chars safe_char
    (map_chars (λ c, if is_lower_alnum c then c else "_"%char) s) = true.
Proof.
  induction s as [|c s IH]; [done|]. cbn [map_chars all_chars]. rewrite IH.
  unfold safe_char. destruct (is_lower_alnum c) eqn:E; [by rewrite E|done].
Qed.

Lemma collapse_all_chars P s :
  all_chars P s = true → all_chars P (collapse_underscores s) = true.
Proof.
  induction s as [|c s IH]; [done|]. cbn [all_chars].
  intros [Hc Hs]%andb_prop. specialize (IH Hs).
  cbn [collapse_underscores].
  destruct (Ascii.eqb c "_"); [|cbn [all_chars]; by rewrite Hc, IH].
  destruct s as [|d s']; [cbn; by rewrite Hc|].
  destruct (Ascii.eqb d "_"); [done|]. cbn [all_chars]. by rewrite Hc, IH.
Qed.

Lemma collapse_head s :
  starts_with_underscore (collapse_underscores s) = starts_with_underscore s.
Proof.
  induction s as [|c s IH]; [done|]. cbn [collapse_underscores].
  destruct (Ascii.eqb c "_") eqn:Hc; [|cbn; by rewrite Hc].
  destruct s as [|d s']; [cbn; by rewrite Hc|].
  destruct (Ascii.eqb d "_") eqn:Hd; [|cbn; by rewrite Hc].
  rewrite IH. cbn. by rewrite Hc, Hd.
Qed.

Lemma no_double_cons c d s :
  no_double_underscore (String c (String d s))
  = negb (Ascii.eqb c "_" && Ascii.eqb d "_") && no_double_underscore (String d s).
Proof. reflexivity. Qed.

Lemma collapse_no_double s : no_double_underscore (collapse_underscores s) = true.
Proof.
  induction s as [|c s IH]; [done|]. cbn [collapse_underscores].
  destruct (Ascii.eqb c "_") eqn:Hc.
  - destruct s as [|d s']; [done|].
    destruct (Ascii.eqb d "_") eqn:Hd; [done|].
    pose proof (collapse_head (String d s')) as Hh.
    destruct (collapse_underscores (String d s')) as [|e t]; [done|].
    rewrite no_double_cons. cbn in Hh. rewrite Hd in Hh.
    by rewrite Hh, andb_false_r, IH.
  - destruct (collapse_underscores s) as [|e t]; [done|].
    rewrite no_double_cons. by rewrite Hc, IH.
Qed.

Lemma no_double_tail c s :
  no_double_underscore (String c s) = true → no_double_underscore s = true.
Proof. destruct s as [|d s]; [done|]. cbn. by intros [_ ?]%andb_prop. Qed.

Lemma strip_trailing_all_chars P s :
  all_chars P s = true → all_chars P (strip_trailing_underscore s) = true.
Proof.
  induction s as [|c s IH]; [done|]. cbn [all_chars].
  intros [Hc Hs]%andb_prop. specialize (IH Hs).
  cbn [strip_trailing_underscore]. destruct s as [|d s'].
  - destruct (Ascii.eqb c "_"); [done|]. cbn. by rewrite Hc.
  - cbn [all_chars]. by rewrite Hc, IH.
Qed.

Lemma strip_trailing_head c d s :
  starts_with_underscore (strip_trailing_underscore (String c (String d s)))
  = Ascii.eqb c "_".
Proof. done. Qed.

Lemma strip_trailing_no_double s :
  no_double_underscore s = true →
  no_double_underscore (strip_trailing_underscore s) = true.
Proof.
  induction s as [|c s IH]; [done|]. intros Hs.
  pose proof (no_double_tail _ _ Hs) as Hs'. specialize (IH Hs').
  destruct s as [|d s']; [cbn; by destruct (Ascii.eqb c "_")|].
  change (strip_trailing_underscore (String c (String d s')))
    with (String c (strip_trailing_underscore (String d s'))).
  destruct s' as [|e s''].
  - cbn [strip_trailing_underscore]. destruct (Ascii.eqb d "_") eqn:Hd; [done|].
    by rewrite no_double_cons, Hd, andb_false_r.
  - change (strip_trailing_underscore (String d (String e s'')))
      with (String d (strip_trailing_underscore (String e s''))) in *.
    rewrite no_double_cons in Hs. rewrite no_double_cons.
    apply andb_prop in Hs as [Hcd _]. by rewrite Hcd, IH.
Qed.

Lemma strip_trailing_keeps_head s :
  starts_with_underscore s = false →
  starts_with_underscore (strip_trailing_underscore s) = false.
Proof.
  destruct s as [|c [|d s]]; [done| |done].
  cbn. intros Hc. by rewrite Hc.
Qed.

Lemma strip_facts s :
  all_chars safe_char s = true → no_double_underscore s = true →
  all_chars safe_char (strip_underscores s) = true ∧
  no_double_underscore (strip_underscores s) = true ∧
  starts_with_underscore (strip_underscores s) = false.
Proof.
  intros Hall Hnd. destruct s as [|c s]; [done|]. unfold strip_underscores.
  destruct (Ascii.eqb c "_") eqn:Hc.
  - cbn [all_chars] in Hall. apply andb_prop in Hall as [_ Hall].
    pose proof (no_double_tail _ _ Hnd) as Hnd'.
    split; [by apply strip_trailing_all_chars|].
    split; [by apply strip_trailing_no_double|].
    apply strip_trailing_keeps_head.
    destruct s as [|d s']; [done|]. cbn in Hnd |- *.
    rewrite Hc in Hnd. by destruct (Ascii.eqb d "_").
  - split; [by apply strip_trailing_all_chars|].
    split; [by apply strip_trailing_no_double|].
    apply strip_trailing_keeps_head. cbn. exact Hc.
Qed.

Lemma prefix_facts n : ∀ s,
  (String.length (String.substring 0 n s) ≤ n)%nat ∧
  (all_chars safe_char s = true → all_chars safe_char (String.substring 0 n s) = true) ∧
  (no_double_underscore s = true →
     no_double_underscore (String.substring 0 n s) = true) ∧
  starts_with_underscore (String.substring 0 n s) = 
    match n with O => false | _ => starts_with_underscore s end.
Proof.
  induction n as [|n IH]; intros s.
  - destruct s; cbn; repeat split; done || lia.
  - destruct s as [|c s]; [cbn; repeat split; done || lia|].
    destruct (IH s) as (Hlen & Hall & Hnd & Hhead).
    cbn [String.substring String.length all_chars starts_with_underscore].
    split; [lia|]. split; [|split; [|done]].
    + intros [Hc Hs]%andb_prop. by rewrite Hc, Hall.
    + intros Hs. pose proof (no_double_tail _ _ Hs) as Hs'. specialize (Hnd Hs').
      destruct s as [|d s']; [by destruct n|].
      destruct n as [|n']; [done|].
      cbn [String.substring] in *. rewrite no_double_cons in Hs.
      rewrite no_double_cons.
      apply andb_prop in Hs as [Hcd _]. by rewrite Hcd, Hnd.
Qed.

(** X29.  For input made of ASCII characters, the name [sanitizeFileName]
    returns has at most 50 characters, all of them lower-case letters,
    digits or underscores, never two underscores in a row and never an
    underscore in front. *)
Theorem sanitizeFileName_is_safe input :
  all_chars is_ascii input = true →
  let name := sanitizeFileName input in
  (String.length name ≤ 50)%nat ∧
  all_chars safe_char name = true ∧
  no_double_underscore name = true ∧
  starts_with_underscore name = false.
Proof.
  intros _. cbn zeta. unfold sanitizeFileName.
  set (replaced := map_chars _ (map_chars lower_char input)).
  assert (Hr : all_chars safe_char replaced = true) by apply all_chars_replaced.
  pose proof (collapse_all_chars _ _ Hr) as Hc.
  pose proof (collapse_no_double replaced) as Hnd.
  destruct (strip_facts _ Hc Hnd) as (Hs1 & Hs2 & Hs3).
  destruct (prefix_facts 50 (strip_underscores (collapse_underscores replaced)))
    as (Hlen & Hall & Hno & Hhead).
  split; [done|]. split; [by apply Hall|]. split; [by apply Hno|].
  by rewrite Hhead.
Qed.

Lemma sanitizeFileName_is_safe_witness :
  all_chars is_ascii "Hello,  World!" = true ∧
  sanitizeFileName "Hello,  World!" = "hello_world" ∧
  no_double_underscore (sanitizeFileName "Hello,  World!") = true.
Proof.
  split; [reflexivity|]. split; [reflexivity|].
  exact (proj1 (proj2 (proj2 (sanitizeFileName_is_safe "Hello,  World!" eq_refl)))).
Defined.

Lemma length_append a b :
  String.length (a +:+ b) = (String.length a + String.length b)%nat.
Proof.
  induction a as [|x a IH]; [done|]. rewrite append_cons. cbn. by rewrite IH.
Qed.

Lemma substring_all s : String.substring 0 (String.length s) s = s.
Proof. induction s as [|c s IH]; [done|]. cbn. by rewrite IH. Qed.

Lemma substring_suffix a b :
  String.substring (String.length a) (String.length b) (a +:+ b) = b.
Proof.
  induction a as [|x a IH]; [apply substring_all|]. rewrite append_cons. exact IH.
Qed.

Lemma substring_prefix a b : String.substring 0 (String.length a) (a +:+ b) = a.
Proof.
  induction a as [|x a IH]; [by destruct b|]. rewrite append_cons. cbn. by rewrite IH.
Qed.

Lemma substring_split k : ∀ s,
  (k ≤ String.length s)%nat →
  s = String.substring 0 k s +:+ String.substring k (String.length s - k) s.
Proof.
  induction k as [|k IH]; intros s Hk.
  - rewrite Nat.sub_0_r, substring_all. by destruct s.
  - destruct s as [|c s]; [cbn in Hk; lia|]. cbn in Hk.
    cbn [String.substring String.length Nat.sub]. rewrite append_cons.
    f_equal. apply IH. lia.
Qed.

Lemma ends_with_append a b : ends_with b (a +:+ b) = true.
Proof.
  unfold ends_with. rewrite length_append.
  replace (String.length a + String.length b - String.length b)%nat
    with (String.length a) by lia.
  rewrite substring_suffix, String.eqb_refl.
  apply andb_true_intro. split; [apply Nat.leb_le; lia|done].
Qed.

Lemma ends_with_inv x s : ends_with x s = true → ∃ pre, s = pre +:+ x.
Proof.
  unfold ends_with. intros [Hlen Heq]%andb_prop.
  apply Nat.leb_le in Hlen. apply String.eqb_eq in Heq.
  set (k := (String.length s - String.length x)%nat).
  exists (String.substring 0 k s).
  rewrite (substring_split k s) at 1 by lia. f_equal.
  replace (String.length s - k)%nat with (String.length x) by lia. exact Heq.
Qed.

(** A name cannot end with two suffixes that end differently. *)
Lemma ends_with_other a sfx sfx' (c d : ascii) :
  last (String.list_ascii_of_string sfx) = Some c →
  last (String.list_ascii_of_string sfx') = Some d →
  c ≠ d → ends_with sfx' (a +:+ sfx) = false.
Proof.
  intros Hc Hd Hcd. destruct (ends_with _ _) eqn:E; [|done].
  apply ends_with_inv in E as [pre E].
  apply (f_equal String.list_ascii_of_string) in E.
  rewrite !list_ascii_app in E. apply (f_equal last) in E.
  rewrite !last_app, Hc, Hd in E. congruence.
Qed.

Lemma without_last_append n a b :
  String.length b = n → without_last n (a +:+ b) = a.
Proof.
  intros <-. unfold without_last. rewrite length_append.
  replace (String.length a + String.length b - String.length b)%nat
    with (String.length a) by lia.
  apply substring_prefix.
Qed.

(** X30.  For each of the three formats, the metadata name of
    [stem.format] is [stem.json], whatever the stem, also one with dots or
    with another extension inside; and a name that ends in [.json] already
    is returned as it is. *)
Theorem metadata_name_replaces_the_extension stem format :
  generateMetadataFileName (stem +:+ "." +:+ format_string format) = stem +:+ ".json" ∧
  generateMetadataFileName (stem +:+ ".json") = stem +:+ ".json".
Proof.
  split.
  - unfold generateMetadataFileName. destruct format; cbn [format_string].
    + change ("." +:+ "wav") with ".wav".
      by rewrite ends_with_append, (without_last_append 4 stem ".wav").
    + change ("." +:+ "flac") with ".flac".
      rewrite (ends_with_other stem ".flac" ".wav" "c" "v") by done.
      by rewrite ends_with_append, (without_last_append 5 stem ".flac").
    + change ("." +:+ "mp3") with ".mp3".
      rewrite (ends_with_other stem ".mp3" ".wav" "3" "v") by done.
      rewrite (ends_with_other stem ".mp3" ".flac" "3" "c") by done.
      by rewrite ends_with_append, (without_last_append 4 stem ".mp3").
  - unfold generateMetadataFileName.
    rewrite (ends_with_other stem ".json" ".wav" "n" "v") by done.
    rewrite (ends_with_other stem ".json" ".flac" "n" "c") by done.
    by rewrite (ends_with_other stem ".json" ".mp3" "n" "3") by done.
Qed.

End FileNamingFacts.
